(** * A verification development for the crawler core

    The definitions below embed, function by function, the parts of the
    crawler that the specification talks about:

    - [Heapq]          the two [heapq] operations the frontier calls
                       (CPython's [heappush] / [heappop] with their
                       [_siftdown] / [_siftup] loops);
    - [Frontier]       [core/url_frontier.py];
    - [Engine]         the worker loop body of [core/crawler_engine.py];
    - [RateLimiter]    [core/rate_limiter.py];
    - [SimHash]        the distance and similarity of [utils/hash_utils.py];
    - [Normalizer]     [core/url_normalizer.py] over [Urllib], a model of
                       the [urllib.parse] functions it calls;
    - [PyStr], [Hashlib]  the string methods and the MD5 digest the code
                       above relies on.

    Python [int] is [Z], [float] is [Q] (exact rationals: the claims only
    use comparisons, [min], [max] and products), [str] is [string] read as
    a sequence of ASCII characters, [set] and [dict] are [gset] and [gmap]. *)

From Stdlib Require Import ZArith QArith Qminmax Lia Lqa ZifyNat Ascii String.
From stdpp Require Import base list gmap strings sorting.

Local Open Scope Z_scope.

(** [lia] is asked to reason about division by a constant ([(pos - 1) >> 1]
    in the heap code). *)
Ltac Zify.zify_post_hook ::= Z.to_euclidean_division_equations.

(* ===================================================================== *)
(** ** heapq                                                              *)
(* ===================================================================== *)

Module Heapq.
Section heapq.
Context {A : Type}.
(** [lt a b] is Python's [a < b] on the heap's items. *)
Variable lt : A -> A -> bool.

(** The [while pos > startpos] loop of [_siftdown].  The position
    strictly decreases, so [pos] rounds are enough; with no round left
    [pos = startpos = 0] and the loop has ended by itself.  A lookup
    outside the list is Python's [IndexError]; it cannot happen for
    [pos < len(heap)] and leaves the list as it is. *)
Fixpoint siftdown_loop (fuel : nat) (heap : list A) (startpos : nat)
         (newitem : A) (pos : nat) : list A :=
  match fuel with
  | O => <[pos := newitem]> heap
  | S fuel' =>
      if (startpos <? pos)%nat then
        let parentpos := ((pos - 1) / 2)%nat in
        match heap !! parentpos with
        | Some parent =>
            if lt newitem parent
            then siftdown_loop fuel' (<[pos := parent]> heap) startpos
                               newitem parentpos
            else <[pos := newitem]> heap
        | None => heap
        end
      else <[pos := newitem]> heap
  end.

Definition _siftdown (heap : list A) (startpos pos : nat) : list A :=
  match heap !! pos with
  | Some newitem => siftdown_loop pos heap startpos newitem pos
  | None => heap
  end.

(** The child [_siftup] moves up: the right one when it exists and the
    left one is not smaller. *)
Definition smaller_child (heap : list A) (endpos childpos : nat) : nat :=
  let rightpos := (childpos + 1)%nat in
  match heap !! childpos, heap !! rightpos with
  | Some l, Some r =>
      if (rightpos <? endpos)%nat && negb (lt l r) then rightpos
      else childpos
  | _, _ => childpos
  end.

(** The [while childpos < endpos] loop of [_siftup]: the hole at [pos]
    sinks to a leaf.  Returns the list and the final [pos]. *)
Fixpoint siftup_loop (fuel : nat) (heap : list A) (endpos pos : nat)
  : list A * nat :=
  match fuel with
  | O => (heap, pos)
  | S fuel' =>
      let childpos := (2 * pos + 1)%nat in
      if (childpos <? endpos)%nat then
        let childpos := smaller_child heap endpos childpos in
        match heap !! childpos with
        | Some c => siftup_loop fuel' (<[pos := c]> heap) endpos childpos
        | None => (heap, pos)
        end
      else (heap, pos)
  end.

Definition _siftup (heap : list A) (pos : nat) : list A :=
  let endpos := length heap in
  let startpos := pos in
  match heap !! pos with
  | Some newitem =>
      let '(heap', pos') := siftup_loop (endpos - pos) heap endpos pos in
      _siftdown (<[pos' := newitem]> heap') startpos pos'
  | None => heap
  end.

Definition heappush (heap : list A) (item : A) : list A :=
  let heap := heap ++ [item] in
  _siftdown heap 0 (length heap - 1).

(** [None] is the [IndexError] of [heap.pop()] on an empty list. *)
Definition heappop (heap : list A) : option (A * list A) :=
  match last heap with
  | None => None
  | Some lastelt =>
      let heap := take (length heap - 1) heap in
      match heap with
      | [] => Some (lastelt, heap)
      | returnitem :: _ =>
          Some (returnitem, _siftup (<[0%nat := lastelt]> heap) 0)
      end
  end.
End heapq.

(** *** The heap invariant, for items compared through an integer key *)
Section heap_order.
Context {A : Type}.
Variable key : A -> Z.
Variable lt : A -> A -> bool.
Hypothesis lt_key : forall a b, lt a b = (key a <? key b).

(** No item is smaller than its parent. *)
Definition heap_ok (h : list A) : Prop :=
  forall i c p, (0 < i)%nat -> h !! i = Some c ->
    h !! ((i - 1) / 2)%nat = Some p -> key p <= key c.

(** [h] is a heap except for the slot [pos], whose content is stale:
    every edge that does not touch [pos] is in order, and the children
    of [pos] are in order with the parent of [pos]. *)
Definition hole_ok (h : list A) (pos : nat) : Prop :=
  (forall i c p, (0 < i)%nat -> i <> pos -> ((i - 1) / 2)%nat <> pos ->
     h !! i = Some c -> h !! ((i - 1) / 2)%nat = Some p -> key p <= key c)
  /\ (forall i c p, (0 < pos)%nat -> (0 < i)%nat ->
        ((i - 1) / 2)%nat = pos ->
        h !! i = Some c -> h !! ((pos - 1) / 2)%nat = Some p ->
        key p <= key c).

(** [x] may be put above the children of [pos]. *)
Definition fits_above (x : A) (h : list A) (pos : nat) : Prop :=
  forall i c, (0 < i)%nat -> ((i - 1) / 2)%nat = pos ->
    h !! i = Some c -> key x <= key c.

Lemma heap_ok_nil : heap_ok [].
Proof. intros i c p _ H. by rewrite lookup_nil in H. Qed.

Lemma heap_ok_hole h pos : heap_ok h -> hole_ok h pos.
Proof.
  intros H; split.
  - intros i c p Hi _ _ Hc Hp. by eapply H.
  - intros i c p Hpos Hi Hpar Hc Hp.
    assert (exists q, h !! pos = Some q) as [q Hq].
    { apply lookup_lt_is_Some. apply lookup_lt_Some in Hc. lia. }
    transitivity (key q).
    + by eapply (H pos).
    + eapply (H i); eauto. by rewrite Hpar.
Qed.

Lemma siftdown_loop_length fuel : forall (h : list A) x pos,
  length (siftdown_loop lt fuel h 0 x pos) = length h.
Proof.
  induction fuel as [|fuel IH]; intros h x pos; cbn [siftdown_loop].
  - by rewrite length_insert.
  - destruct (0 <? pos)%nat; [|by rewrite length_insert].
    destruct (h !! _) as [parent|]; [|done].
    destruct (lt x parent); [|by rewrite length_insert].
    by rewrite IH, length_insert.
Qed.

Lemma siftdown_loop_ok fuel : forall (h : list A) x pos,
  (pos <= fuel)%nat -> (pos < length h)%nat ->
  hole_ok h pos -> fits_above x h pos ->
  heap_ok (siftdown_loop lt fuel h 0 x pos).
Proof.
  assert (Hplace : forall (h : list A) x pos,
    (pos < length h)%nat -> hole_ok h pos -> fits_above x h pos ->
    (forall p, (0 < pos)%nat -> h !! ((pos - 1) / 2)%nat = Some p ->
               key p <= key x) ->
    heap_ok (<[pos := x]> h)).
  { intros h x pos Hlen [Ha Hb] Hx Hup i c p Hi Hc Hp.
    destruct (decide (i = pos)) as [->|Hne].
    - rewrite list_lookup_insert_eq in Hc by done.
      rewrite list_lookup_insert_ne in Hp by lia.
      inversion Hc; subst. by apply Hup.
    - rewrite list_lookup_insert_ne in Hc by done.
      destruct (decide (((i - 1) / 2)%nat = pos)) as [Hpar|Hpar].
      + rewrite Hpar, list_lookup_insert_eq in Hp by done.
        inversion Hp; subst. by eapply Hx.
      + rewrite list_lookup_insert_ne in Hp by done. by eapply Ha. }
  induction fuel as [|fuel IH]; intros h x pos Hfuel Hlen Hh Hx;
    cbn [siftdown_loop].
  - apply Hplace; try done. intros; lia.
  - destruct (0 <? pos)%nat eqn:Hpos.
    2:{ apply Nat.ltb_ge in Hpos. apply Hplace; try done. intros; lia. }
    apply Nat.ltb_lt in Hpos.
    destruct (h !! ((pos - 1) / 2)%nat) as [parent|] eqn:Hparent.
    2:{ apply lookup_ge_None in Hparent. lia. }
    rewrite lt_key. destruct (key x <? key parent) eqn:Hcmp.
    2:{ apply Z.ltb_ge in Hcmp. apply Hplace; try done.
        intros p _ Hp. congruence. }
    apply Z.ltb_lt in Hcmp. destruct Hh as [Ha Hb].
    apply IH; [lia | rewrite length_insert; lia | |].
    + split.
      * intros i c p Hi Hne Hpne Hc Hp.
        assert (i <> pos) by (intros ->; lia).
        rewrite list_lookup_insert_ne in Hc by done.
        destruct (decide (((i - 1) / 2)%nat = pos)) as [Hpar|Hpar].
        -- rewrite Hpar, list_lookup_insert_eq in Hp by done.
           inversion Hp; subst. by eapply Hb.
        -- rewrite list_lookup_insert_ne in Hp by done. by eapply Ha.
      * intros i c p Hpp Hi Hpar Hc Hp.
        rewrite list_lookup_insert_ne in Hp by lia.
        assert (key p <= key parent).
        { eapply (Ha ((pos - 1) / 2)%nat); eauto; lia. }
        destruct (decide (i = pos)) as [->|Hne].
        -- rewrite list_lookup_insert_eq in Hc by done.
           by inversion Hc; subst.
        -- rewrite list_lookup_insert_ne in Hc by done.
           transitivity (key parent); [done|].
           eapply (Ha i); eauto; [lia|]. by rewrite Hpar.
    + intros i c Hi Hpar Hc.
      destruct (decide (i = pos)) as [->|Hne].
      * rewrite list_lookup_insert_eq in Hc by done.
        inversion Hc; subst. lia.
      * rewrite list_lookup_insert_ne in Hc by done.
        assert (key parent <= key c); [|lia].
        eapply (Ha i); eauto; [lia|]. by rewrite Hpar.
Qed.

Lemma hole_ok_insert (h : list A) pos x :
  hole_ok h pos -> hole_ok (<[pos := x]> h) pos.
Proof.
  intros [Ha Hb]; split.
  - intros i c p Hi Hne Hpne Hc Hp.
    rewrite list_lookup_insert_ne in Hc by done.
    rewrite list_lookup_insert_ne in Hp by done. by eapply Ha.
  - intros i c p Hpos Hi Hpar Hc Hp.
    rewrite list_lookup_insert_ne in Hc by lia.
    rewrite list_lookup_insert_ne in Hp by lia. by eapply Hb.
Qed.

Lemma fits_above_leaf x (h : list A) pos :
  (length h <= 2 * pos + 1)%nat -> fits_above x h pos.
Proof.
  intros Hleaf i c Hi Hpar Hc. apply lookup_lt_Some in Hc. lia.
Qed.

Lemma _siftdown_ok (h : list A) pos :
  (pos < length h)%nat -> hole_ok h pos ->
  (length h <= 2 * pos + 1)%nat ->
  heap_ok (_siftdown lt h 0 pos).
Proof.
  intros Hlen Hh Hleaf. unfold _siftdown.
  destruct (h !! pos) as [x|] eqn:Hx.
  2:{ apply lookup_ge_None in Hx. lia. }
  apply siftdown_loop_ok; try done. by apply fits_above_leaf.
Qed.

Lemma smaller_child_spec (h : list A) childpos :
  (childpos < length h)%nat ->
  let c' := smaller_child lt h (length h) childpos in
  (c' = childpos \/ c' = (childpos + 1)%nat) /\
  exists c, h !! c' = Some c /\
    forall j v, j = childpos \/ j = (childpos + 1)%nat ->
      h !! j = Some v -> key c <= key v.
Proof.
  intros Hlen. cbv zeta. unfold smaller_child.
  destruct (h !! childpos) as [l|] eqn:Hl.
  2:{ apply lookup_ge_None in Hl. lia. }
  destruct (h !! (childpos + 1)%nat) as [r|] eqn:Hr.
  - assert ((childpos + 1 <? length h)%nat = true) as ->.
    { apply Nat.ltb_lt. by apply lookup_lt_Some in Hr. }
    rewrite lt_key. cbn [andb].
    destruct (key l <? key r) eqn:Hcmp; cbn [negb].
    + apply Z.ltb_lt in Hcmp. split; [by left|]. exists l. split; [done|].
      intros j v [->| ->] Hv; simplify_eq; lia.
    + apply Z.ltb_ge in Hcmp. split; [by right|]. exists r. split; [done|].
      intros j v [->| ->] Hv; simplify_eq; lia.
  - split; [by left|]. exists l. split; [done|].
    intros j v [->| ->] Hv; simplify_eq; lia.
Qed.

Lemma siftup_loop_ok fuel : forall (h : list A) pos,
  (length h <= fuel + pos)%nat -> (pos < length h)%nat -> hole_ok h pos ->
  let r := siftup_loop lt fuel h (length h) pos in
  hole_ok r.1 r.2 /\ length r.1 = length h /\
  (r.2 < length h)%nat /\ (length h <= 2 * r.2 + 1)%nat.
Proof.
  induction fuel as [|fuel IH]; intros h pos Hfuel Hlen Hh;
    cbn [siftup_loop]; [lia|].
  destruct (2 * pos + 1 <? length h)%nat eqn:Hchild.
  2:{ apply Nat.ltb_ge in Hchild. by cbn. }
  apply Nat.ltb_lt in Hchild.
  destruct (smaller_child_spec h (2 * pos + 1) Hchild)
    as (Hwhich & c & Hc & Hmin).
  set (c' := smaller_child lt h (length h) (2 * pos + 1)) in *.
  rewrite Hc. destruct Hh as [Ha Hb].
  assert (Hc' : (c' < length h)%nat) by by eapply lookup_lt_Some.
  assert (Hstep : hole_ok (<[pos := c]> h) c').
  { split.
    - intros i ci p Hi Hne Hpne Hci Hp.
      destruct (decide (i = pos)) as [->|Hipos].
      + rewrite list_lookup_insert_eq in Hci by done.
        rewrite list_lookup_insert_ne in Hp by lia.
        inversion Hci; subst. eapply (Hb c'); eauto; lia.
      + rewrite list_lookup_insert_ne in Hci by done.
        destruct (decide (((i - 1) / 2)%nat = pos)) as [Hpar|Hpar].
        * rewrite Hpar, list_lookup_insert_eq in Hp by done.
          inversion Hp; subst. eapply (Hmin i); [lia|done].
        * rewrite list_lookup_insert_ne in Hp by done. by eapply Ha.
    - intros i ci p Hpos Hi Hpar Hci Hp.
      assert (((c' - 1) / 2)%nat = pos) as Hcp by lia.
      rewrite Hcp, list_lookup_insert_eq in Hp by done.
      rewrite list_lookup_insert_ne in Hci by lia.
      inversion Hp; subst p. eapply (Ha i); eauto; [lia..|].
      by rewrite Hpar. }
  specialize (IH (<[pos := c]> h) c').
  rewrite length_insert in IH. apply IH; [lia|done|done].
Qed.

Lemma _siftup_ok (h : list A) :
  (0 < length h)%nat -> hole_ok h 0 -> heap_ok (_siftup lt h 0).
Proof.
  intros Hlen Hh. unfold _siftup.
  destruct (h !! 0%nat) as [x|] eqn:Hx.
  2:{ apply lookup_ge_None in Hx. lia. }
  pose proof (siftup_loop_ok (length h - 0) h 0) as Hloop.
  destruct (siftup_loop lt (length h - 0) h (length h) 0) as [h' pos'].
  destruct Hloop as (Hh' & Hlen' & Hpos' & Hleaf); [lia|done|done|].
  cbn in Hh', Hlen', Hpos', Hleaf.
  apply _siftdown_ok.
  - rewrite length_insert. lia.
  - by apply hole_ok_insert.
  - rewrite length_insert. lia.
Qed.

Lemma heap_ok_take (h : list A) k : heap_ok h -> heap_ok (take k h).
Proof.
  intros H i c p Hi Hc Hp.
  apply lookup_take_Some in Hc as [Hc _].
  apply lookup_take_Some in Hp as [Hp _]. by eapply H.
Qed.

(** [heappush] and [heappop] keep the heap invariant. *)
Lemma heappush_ok (h : list A) x : heap_ok h -> heap_ok (heappush lt h x).
Proof.
  intros H. unfold heappush. apply _siftdown_ok.
  - rewrite length_app. cbn. lia.
  - rewrite length_app. cbn [length]. split.
    + intros i c p Hi Hne Hpne Hc Hp.
      assert (i < length h)%nat.
      { apply lookup_lt_Some in Hc. rewrite length_app in Hc. cbn in Hc.
        lia. }
      rewrite lookup_app_l in Hc by lia.
      rewrite lookup_app_l in Hp by lia. by eapply H.
    + intros i c p Hpos Hi Hpar Hc Hp.
      apply lookup_lt_Some in Hc. rewrite length_app in Hc. cbn in Hc. lia.
  - rewrite length_app. cbn. lia.
Qed.

Lemma heappop_ok (h h' : list A) x :
  heap_ok h -> heappop lt h = Some (x, h') -> heap_ok h'.
Proof.
  intros H. unfold heappop.
  destruct (last h) as [lastelt|]; [|done].
  destruct (take (length h - 1) h) as [|r t] eqn:Ht.
  - intros [= <- <-]. apply heap_ok_nil.
  - intros [= <- <-]. apply _siftup_ok.
    + cbn. lia.
    + change (hole_ok (<[0%nat := lastelt]> (r :: t)) 0).
      apply hole_ok_insert, heap_ok_hole. rewrite <- Ht.
      by apply heap_ok_take.
Qed.

(** The root of a heap is a minimum. *)
Lemma heap_ok_root (h : list A) r :
  heap_ok h -> h !! 0%nat = Some r ->
  forall x, x ∈ h -> key r <= key x.
Proof.
  intros H Hr x Hx. apply list_elem_of_lookup in Hx as [i Hi].
  revert x Hi. induction (lt_wf i) as [i _ IH]. intros x Hi.
  destruct (decide (i = 0%nat)) as [->|Hne]; [by simplify_eq|].
  assert (exists p, h !! ((i - 1) / 2)%nat = Some p) as [p Hp].
  { apply lookup_lt_is_Some. apply lookup_lt_Some in Hi. lia. }
  transitivity (key p).
  - apply (IH ((i - 1) / 2)%nat); [lia|done].
  - eapply (H i); eauto; lia.
Qed.

Lemma heappop_root (h h' : list A) x :
  heappop lt h = Some (x, h') -> h !! 0%nat = Some x.
Proof.
  unfold heappop. destruct (last h) as [lastelt|] eqn:Hlast; [|done].
  destruct (take (length h - 1) h) as [|r t] eqn:Ht.
  - intros [= <- <-]. destruct h as [|a [|b h]]; cbn in *; by simplify_eq.
  - intros [= <- <-].
    assert (take (length h - 1) h !! 0%nat = Some r) as Hr by by rewrite Ht.
    by apply lookup_take_Some in Hr as [Hr _].
Qed.
End heap_order.

(** *** The heap operations only move items around *)
Section heap_perm.
Context {A : Type}.
Variable lt : A -> A -> bool.

Lemma insert_swap_perm (h : list A) pos x y :
  h !! pos = Some y -> y :: <[pos := x]> h ≡ₚ x :: h.
Proof.
  revert pos. induction h as [|a h IH]; intros [|pos] Hy; try done.
  - cbn in Hy. simplify_eq. cbn. apply Permutation_swap.
  - cbn in Hy. cbn. rewrite (Permutation_swap a y), (IH pos Hy).
    apply Permutation_swap.
Qed.

Lemma siftdown_loop_perm fuel : forall (h : list A) startpos x pos y,
  h !! pos = Some y ->
  y :: siftdown_loop lt fuel h startpos x pos ≡ₚ x :: h.
Proof.
  induction fuel as [|fuel IH]; intros h startpos x pos y Hy;
    cbn [siftdown_loop]; [by apply insert_swap_perm|].
  destruct (startpos <? pos)%nat eqn:Hpos; [|by apply insert_swap_perm].
  apply Nat.ltb_lt in Hpos.
  destruct (h !! ((pos - 1) / 2)%nat) as [parent|] eqn:Hparent.
  2:{ apply lookup_ge_None in Hparent. apply lookup_lt_Some in Hy. lia. }
  destruct (lt x parent); [|by apply insert_swap_perm].
  apply (Permutation_cons_inv (a := parent)).
  rewrite (Permutation_swap y parent).
  rewrite (IH (<[pos := parent]> h) startpos x ((pos - 1) / 2)%nat parent).
  2:{ rewrite list_lookup_insert_ne by lia. done. }
  rewrite (Permutation_swap x y), (insert_swap_perm h pos parent y Hy).
  apply Permutation_swap.
Qed.

Lemma smaller_child_range (h : list A) endpos childpos :
  smaller_child lt h endpos childpos = childpos \/
  smaller_child lt h endpos childpos = (childpos + 1)%nat.
Proof.
  unfold smaller_child. repeat case_match; auto.
Qed.

Lemma siftup_loop_perm fuel : forall (h : list A) endpos pos y,
  h !! pos = Some y ->
  let r := siftup_loop lt fuel h endpos pos in
  exists y', r.1 !! r.2 = Some y' /\ y :: r.1 ≡ₚ y' :: h.
Proof.
  induction fuel as [|fuel IH]; intros h endpos pos y Hy;
    cbn [siftup_loop]; [by exists y|].
  destruct (2 * pos + 1 <? endpos)%nat; [|by exists y].
  pose proof (smaller_child_range h endpos (2 * pos + 1)) as Hrange.
  set (c' := smaller_child lt h endpos (2 * pos + 1)) in *.
  destruct (h !! c') as [c|] eqn:Hc; [|by exists y].
  destruct (IH (<[pos := c]> h) endpos c' c) as (y' & Hy' & Hperm).
  { rewrite list_lookup_insert_ne by lia. done. }
  exists y'. split; [done|].
  apply (Permutation_cons_inv (a := c)).
  rewrite (Permutation_swap y c), Hperm.
  rewrite (Permutation_swap y' y), (insert_swap_perm h pos c y Hy).
  apply Permutation_swap.
Qed.

(** The bounds on the rounds are no restriction: any larger bound gives
    the same list. *)
Lemma siftdown_loop_fuel fuel : forall fuel' (h : list A) startpos x pos,
  (pos <= fuel)%nat -> (pos <= fuel')%nat ->
  siftdown_loop lt fuel h startpos x pos =
  siftdown_loop lt fuel' h startpos x pos.
Proof.
  induction fuel as [|fuel IH]; intros [|fuel'] h startpos x pos Hf Hf';
    cbn [siftdown_loop]; try done.
  - assert (pos = 0)%nat as -> by lia. by destruct startpos.
  - assert (pos = 0)%nat as -> by lia. by destruct startpos.
  - destruct (startpos <? pos)%nat eqn:Hpos; [|done].
    apply Nat.ltb_lt in Hpos.
    destruct (h !! ((pos - 1) / 2)%nat) as [parent|]; [|done].
    destruct (lt x parent); [|done]. apply IH; lia.
Qed.

Lemma siftup_loop_fuel fuel : forall fuel' (h : list A) endpos pos,
  (endpos - pos <= fuel)%nat -> (endpos - pos <= fuel')%nat ->
  siftup_loop lt fuel h endpos pos = siftup_loop lt fuel' h endpos pos.
Proof.
  induction fuel as [|fuel IH]; intros [|fuel'] h endpos pos Hf Hf';
    cbn [siftup_loop]; try done.
  - assert ((2 * pos + 1 <? endpos)%nat = false) as ->
      by (apply Nat.ltb_ge; lia).
    done.
  - assert ((2 * pos + 1 <? endpos)%nat = false) as ->
      by (apply Nat.ltb_ge; lia).
    done.
  - destruct (2 * pos + 1 <? endpos)%nat; [|done].
    pose proof (smaller_child_range h endpos (2 * pos + 1)) as Hrange.
    destruct (h !! smaller_child lt h endpos (2 * pos + 1)); [|done].
    apply IH; lia.
Qed.

Lemma _siftup_perm (h : list A) pos : _siftup lt h pos ≡ₚ h.
Proof.
  unfold _siftup. destruct (h !! pos) as [x|] eqn:Hx; [|done].
  pose proof (siftup_loop_perm (length h - pos) h (length h) pos x Hx)
    as (y' & Hy' & Hperm).
  destruct (siftup_loop lt (length h - pos) h (length h) pos) as [h' pos'].
  cbn in Hy', Hperm. unfold _siftdown.
  assert (<[pos' := x]> h' !! pos' = Some x) as Hx'.
  { apply list_lookup_insert_eq. by eapply lookup_lt_Some. }
  rewrite Hx'.
  apply (Permutation_cons_inv (a := y')).
  transitivity (y' :: <[pos' := x]> h').
  - constructor. apply (Permutation_cons_inv (a := x)).
    by apply siftdown_loop_perm.
  - rewrite <- Hperm. by apply insert_swap_perm.
Qed.

Lemma heappush_perm (h : list A) x : heappush lt h x ≡ₚ x :: h.
Proof.
  unfold heappush, _siftdown.
  assert ((h ++ [x]) !! (length (h ++ [x]) - 1)%nat = Some x) as Hx.
  { rewrite length_app. cbn. rewrite lookup_app_r by lia.
    by replace (length h + 1 - 1 - length h)%nat with 0%nat by lia. }
  rewrite Hx. apply (Permutation_cons_inv (a := x)).
  rewrite siftdown_loop_perm by done.
  constructor. by rewrite Permutation_app_comm.
Qed.

Lemma heappop_perm (h h' : list A) x :
  heappop lt h = Some (x, h') -> h ≡ₚ x :: h'.
Proof.
  unfold heappop. destruct (last h) as [lastelt|] eqn:Hlast; [|done].
  apply last_Some in Hlast as [l' ->].
  rewrite length_app. cbn [length].
  replace (length l' + 1 - 1)%nat with (length l') by lia.
  rewrite take_app_length.
  destruct l' as [|r t].
  - by intros [= <- <-].
  - intros [= <- <-]. cbn [insert list_insert].
    rewrite _siftup_perm. cbn.
    constructor. by rewrite Permutation_app_comm.
Qed.

Lemma heappop_nonempty (h : list A) :
  h <> [] -> exists x h', heappop lt h = Some (x, h').
Proof.
  intros Hne. unfold heappop.
  destruct (last h) as [lastelt|] eqn:Hlast.
  - destruct (take (length h - 1) h); eauto.
  - by apply last_None in Hlast.
Qed.
End heap_perm.

(** *** Runs of the two operations, as CPython gives them *)
Definition pair_lt (a b : Z * string) : bool := a.1 <? b.1.

Definition pushes (items : list (Z * string)) : list (Z * string) :=
  foldl (heappush pair_lt) [] items.

(** Up to [n] pops, in order. *)
Fixpoint pops (n : nat) (heap : list (Z * string)) : list (Z * string) :=
  match n with
  | O => []
  | S n' =>
      match heappop pair_lt heap with
      | Some (x, heap') => x :: pops n' heap'
      | None => []
      end
  end.

Example heap_layout :
  snd <$> pushes [(2, "a"); (0, "b"); (3, "c"); (0, "d"); (1, "e"); (2, "f");
                  (0, "g")]
  = ["b"; "d"; "g"; "a"; "e"; "c"; "f"].
Proof. vm_compute. reflexivity. Qed.

Example heap_pop_order :
  snd <$> pops 7 (pushes [(2, "a"); (0, "b"); (3, "c"); (0, "d"); (1, "e");
                          (2, "f"); (0, "g")])
  = ["b"; "g"; "d"; "e"; "f"; "a"; "c"].
Proof. vm_compute. reflexivity. Qed.

Example heap_ties_not_fifo :
  snd <$> pops 4 (pushes [(2, "1"); (2, "2"); (2, "3"); (2, "4")])
  = ["1"; "3"; "2"; "4"].
Proof. vm_compute. reflexivity. Qed.
End Heapq.

(* ===================================================================== *)
(** ** Python strings (ASCII)                                             *)
(* ===================================================================== *)

Module PyStr.
Definition code (c : ascii) : nat := nat_of_ascii c.

Definition between (lo hi : nat) (c : ascii) : bool :=
  (lo <=? code c)%nat && (code c <=? hi)%nat.

Definition isupper (c : ascii) : bool := between 65 90 c.

Definition lower_char (c : ascii) : ascii :=
  if isupper c then ascii_of_nat (code c + 32) else c.

(** [s.lower()] *)
Fixpoint lower (s : string) : string :=
  match s with
  | EmptyString => EmptyString
  | String c s' => String (lower_char c) (lower s')
  end.

(** [c.isspace()]: tab, newline, vertical tab, form feed, carriage
    return, the four separators 0x1c-0x1f and the space. *)
Definition isspace (c : ascii) : bool := between 9 13 c || between 28 32 c.

Fixpoint rev_app (s acc : string) : string :=
  match s with
  | EmptyString => acc
  | String c s' => rev_app s' (String c acc)
  end.

Definition rev (s : string) : string := rev_app s EmptyString.

Fixpoint lstrip_by (p : ascii -> bool) (s : string) : string :=
  match s with
  | EmptyString => EmptyString
  | String c s' => if p c then lstrip_by p s' else s
  end.

Definition rstrip_by (p : ascii -> bool) (s : string) : string :=
  rev (lstrip_by p (rev s)).

Definition strip_by (p : ascii -> bool) (s : string) : string :=
  rstrip_by p (lstrip_by p s).

(** [s.strip()] *)
Definition strip (s : string) : string := strip_by isspace s.

(** [s.startswith(p)] *)
Fixpoint startswith (s p : string) : bool :=
  match p, s with
  | EmptyString, _ => true
  | String a p', String b s' => if decide (a = b) then startswith s' p' else false
  | String _ _, EmptyString => false
  end.

(** [c in s] *)
Fixpoint contains (c : ascii) (s : string) : bool :=
  match s with
  | EmptyString => false
  | String a s' => Ascii.eqb a c || contains c s'
  end.

(** [all(p(c) for c in s)] *)
Fixpoint all_chars (p : ascii -> bool) (s : string) : bool :=
  match s with
  | EmptyString => true
  | String a s' => p a && all_chars p s'
  end.

(** [s.partition(c)] for a one-character separator: the text before the
    first [c] and, when there is one, the text after it. *)
Fixpoint partition (c : ascii) (s : string) : string * option string :=
  match s with
  | EmptyString => (EmptyString, None)
  | String a s' =>
      if Ascii.eqb a c then (EmptyString, Some s')
      else let '(h, t) := partition c s' in (String a h, t)
  end.

(** [s.rpartition(c)]: the text before the last [c], when there is one,
    and the text after it (all of [s] without a [c]). *)
Definition rpartition (c : ascii) (s : string) : option string * string :=
  match partition c (rev s) with
  | (t, Some h) => (Some (rev h), rev t)
  | (_, None) => (None, s)
  end.

(** [s.split(c)] *)
Fixpoint split (c : ascii) (s : string) : list string :=
  match s with
  | EmptyString => [EmptyString]
  | String a s' =>
      let r := split c s' in
      if Ascii.eqb a c then EmptyString :: r
      else match r with
           | h :: t => String a h :: t
           | [] => [String a EmptyString]
           end
  end.

(** [sep.join(l)] *)
Fixpoint join (sep : string) (l : list string) : string :=
  match l with
  | [] => EmptyString
  | [x] => x
  | x :: l' => x +:+ sep +:+ join sep l'
  end.

(** [s.replace(c, r)] for a one-character [c] *)
Fixpoint replace_char (c : ascii) (r : string) (s : string) : string :=
  match s with
  | EmptyString => EmptyString
  | String a s' =>
      if Ascii.eqb a c then r +:+ replace_char c r s'
      else String a (replace_char c r s')
  end.

(** [s.endswith(c)] for a one-character [c] *)
Definition endswith_char (c : ascii) (s : string) : bool :=
  match rev s with
  | String a _ => Ascii.eqb a c
  | EmptyString => false
  end.

(** [a < b] on strings: lexicographic on the character codes. *)
Fixpoint ltb (a b : string) : bool :=
  match a, b with
  | _, EmptyString => false
  | EmptyString, String _ _ => true
  | String x a', String y b' =>
      if (code x <? code y)%nat then true
      else if (code y <? code x)%nat then false
      else ltb a' b'
  end.

(** [sorted(l)] for a list of items with a key: a stable sort. *)
Fixpoint insert_sorted {A} (key : A -> string) (x : A) (l : list A)
  : list A :=
  match l with
  | [] => [x]
  | y :: l' =>
      if ltb (key y) (key x) then y :: insert_sorted key x l' else x :: l
  end.

Definition sorted {A} (key : A -> string) (l : list A) : list A :=
  foldr (insert_sorted key) [] l.

Definition isdigit (c : ascii) : bool := between 48 57 c.
Definition isalpha (c : ascii) : bool := between 65 90 c || between 97 122 c.

(** [int(s)] for a string of ASCII digits. *)
Fixpoint int_of_digits (s : string) (acc : Z) : Z :=
  match s with
  | EmptyString => acc
  | String c s' => int_of_digits s' (10 * acc + Z.of_nat (code c - 48))
  end.

(** [str(n)] for [n >= 0]: at most [fuel] digits, most significant
    first. *)
Fixpoint digits_of (fuel : nat) (n : Z) (acc : string) : string :=
  match fuel with
  | O => acc
  | S fuel' =>
      let acc := String (ascii_of_nat (48 + Z.to_nat (n mod 10))) acc in
      if n / 10 =? 0 then acc else digits_of fuel' (n / 10) acc
  end.

Definition str_of_int (n : Z) : string :=
  digits_of (S (Z.to_nat (Z.log2 n))) n EmptyString.
End PyStr.

(* ===================================================================== *)
(** ** hashlib.md5 (RFC 1321)                                             *)
(* ===================================================================== *)

Module Hashlib.
Definition w32 (x : Z) : Z := x mod 4294967296.

Definition rotl (x c : Z) : Z :=
  w32 (Z.lor (Z.shiftl x c) (Z.shiftr x (32 - c))).

Definition lnot32 (x : Z) : Z := Z.lxor x 4294967295.

Definition s_table : list Z :=
  [7; 12; 17; 22; 7; 12; 17; 22; 7; 12; 17; 22; 7; 12; 17; 22;
   5; 9; 14; 20; 5; 9; 14; 20; 5; 9; 14; 20; 5; 9; 14; 20;
   4; 11; 16; 23; 4; 11; 16; 23; 4; 11; 16; 23; 4; 11; 16; 23;
   6; 10; 15; 21; 6; 10; 15; 21; 6; 10; 15; 21; 6; 10; 15; 21].

Definition k_table : list Z :=
  [3614090360; 3905402710; 606105819; 3250441966; 4118548399; 1200080426;
   2821735955; 4249261313; 1770035416; 2336552879; 4294925233; 2304563134;
   1804603682; 4254626195; 2792965006; 1236535329; 4129170786; 3225465664;
   643717713; 3921069994; 3593408605; 38016083; 3634488961; 3889429448;
   568446438; 3275163606; 4107603335; 1163531501; 2850285829; 4243563512;
   1735328473; 2368359562; 4294588738; 2272392833; 1839030562; 4259657740;
   2763975236; 1272893353; 4139469664; 3200236656; 681279174; 3936430074;
   3572445317; 76029189; 3654602809; 3873151461; 530742520; 3299628645;
   4096336452; 1126891415; 2878612391; 4237533241; 1700485571; 2399980690;
   4293915773; 2240044497; 1873313359; 4264355552; 2734768916; 1309151649;
   4149444226; 3174756917; 718787259; 3951481745].

Fixpoint bytes_of_string (s : string) : list Z :=
  match s with
  | EmptyString => []
  | String c s' => Z.of_nat (nat_of_ascii c) :: bytes_of_string s'
  end.

(** [n] bytes of [x], least significant first. *)
Fixpoint le_bytes (n : nat) (x : Z) : list Z :=
  match n with
  | O => []
  | S n' => x mod 256 :: le_bytes n' (x / 256)
  end.

Fixpoint le_word (bs : list Z) : Z :=
  match bs with
  | [] => 0
  | b :: bs' => b + 256 * le_word bs'
  end.

Definition pad (msg : list Z) : list Z :=
  let len := Z.of_nat (length msg) in
  msg ++ [128] ++ replicate (Z.to_nat ((55 - len) mod 64)) 0
      ++ le_bytes 8 (8 * len).

(** The list cut in pieces of [n] items; [fuel] bounds the number of pieces. *)
Fixpoint chunks {A} (fuel n : nat) (l : list A) : list (list A) :=
  match fuel with
  | O => []
  | S fuel' =>
      match l with
      | [] => []
      | _ => take n l :: chunks fuel' n (drop n l)
      end
  end.

Definition md5_state : Type := Z * Z * Z * Z.

Definition md5_round (m : list Z) (st : md5_state) (i : Z) : md5_state :=
  let '(a, b, c, d) := st in
  let '(f, g) :=
    if i <? 16 then (Z.lor (Z.land b c) (Z.land (lnot32 b) d), i)
    else if i <? 32 then
      (Z.lor (Z.land d b) (Z.land (lnot32 d) c), (5 * i + 1) mod 16)
    else if i <? 48 then (Z.lxor b (Z.lxor c d), (3 * i + 5) mod 16)
    else (Z.lxor c (Z.lor b (lnot32 d)), (7 * i) mod 16) in
  let f := w32 (f + a + nth (Z.to_nat i) k_table 0 + nth (Z.to_nat g) m 0) in
  (d, w32 (b + rotl f (nth (Z.to_nat i) s_table 0)), b, c).

Definition md5_block (st : md5_state) (block : list Z) : md5_state :=
  let m := le_word <$> chunks 16 4 block in
  let '(a, b, c, d) := st in
  let '(a', b', c', d') := foldl (md5_round m) st (Z.of_nat <$> seq 0 64) in
  (w32 (a + a'), w32 (b + b'), w32 (c + c'), w32 (d + d')).

Definition md5_digest (msg : list Z) : list Z :=
  let p := pad msg in
  let '(a, b, c, d) :=
    foldl md5_block (1732584193, 4023233417, 2562383102, 271733878)
          (chunks (length p) 64 p) in
  le_bytes 4 a ++ le_bytes 4 b ++ le_bytes 4 c ++ le_bytes 4 d.

Definition hex_digit (n : Z) : ascii :=
  ascii_of_nat (Z.to_nat (if n <? 10 then 48 + n else 87 + n)).

Fixpoint hex_of_bytes (bs : list Z) : string :=
  match bs with
  | [] => EmptyString
  | b :: bs' =>
      String (hex_digit (b / 16))
             (String (hex_digit (b mod 16)) (hex_of_bytes bs'))
  end.

(** [hashlib.md5(s.encode("utf-8")).hexdigest()] *)
Definition md5_hexdigest (s : string) : string :=
  hex_of_bytes (md5_digest (bytes_of_string s)).
Example md5_empty : md5_hexdigest EmptyString = "d41d8cd98f00b204e9800998ecf8427e".
Proof. vm_compute. reflexivity. Qed.

Example md5_abc : md5_hexdigest "abc" = "900150983cd24fb0d6963f7d28e17f72".
Proof. vm_compute. reflexivity. Qed.

Example md5_url : md5_hexdigest "http://a.test/" = "2ebb4d78b2ab4e17481b3537b07a31c0".
Proof. vm_compute. reflexivity. Qed.
End Hashlib.

(* ===================================================================== *)
(** ** utils/hash_utils.py                                                *)
(* ===================================================================== *)

Module HashUtils.
Definition md5_hash (content : string) : string :=
  Hashlib.md5_hexdigest content.

(** [url_hash]: the digest of the lowercased, trimmed URL. *)
Definition url_hash (url : string) : string :=
  md5_hash (PyStr.strip (PyStr.lower url)).
#[global] Arguments url_hash : simpl never.
End HashUtils.

(* ===================================================================== *)
(** ** core/url_frontier.py                                               *)
(* ===================================================================== *)

Module Frontier.

Inductive URLPriority := CRITICAL | HIGH | NORMAL | LOW | DEFERRED.

(** [priority.value] *)
Definition value (p : URLPriority) : Z :=
  match p with
  | CRITICAL => 0 | HIGH => 1 | NORMAL => 2 | LOW => 3 | DEFERRED => 4
  end.

(** The dataclass [URLEntry].  [discovered_at] is the reading of
    [time.time()] taken when the entry is built. *)
Record URLEntry := {
  priority : Z;
  depth : Z;
  url : string;
  parent_url : string;
  discovered_at : Q;
  retry_count : Z;
  metadata : gmap string string;
}.

(** [@dataclass(order=True)] compares the tuples of the fields that are
    not declared [compare=False]: here the one-field tuple
    [(priority,)]. *)
Definition entry_lt (a b : URLEntry) : bool := priority a <? priority b.

Record URLFrontier := {
  _max_depth : Z;
  _max_urls : Z;
  _queue : list URLEntry;
  _seen_urls : gset string;
  _crawled_urls : gset string;
  _failed_urls : gmap string Z;
  _not_empty : bool;            (* the flag of the [asyncio.Event] *)
  _total_added : Z;
  _total_duplicates_skipped : Z;
}.

Import HashUtils.

Definition init (max_depth max_urls : Z) : URLFrontier :=
  {| _max_depth := max_depth; _max_urls := max_urls; _queue := [];
     _seen_urls := ∅; _crawled_urls := ∅; _failed_urls := ∅;
     _not_empty := false;
     _total_added := 0; _total_duplicates_skipped := 0 |}.

Definition new_entry (url : string) (depth : Z) (prio : URLPriority)
    (parent_url : string) (metadata : option (gmap string string))
    (now : Q) : URLEntry :=
  {| priority := value prio; depth := depth; url := url;
     parent_url := parent_url; discovered_at := now; retry_count := 0;
     metadata := default ∅ metadata |}.

(** [URLFrontier.add].  [now] is what [time.time()] returns if the entry
    gets built. *)
Definition add (f : URLFrontier) (url : string) (depth : Z)
    (prio : URLPriority) (parent_url : string)
    (metadata : option (gmap string string)) (now : Q)
  : bool * URLFrontier :=
  let uhash := url_hash url in
  if bool_decide (uhash ∈ _seen_urls f) then
    (false,
     {| _max_depth := _max_depth f; _max_urls := _max_urls f;
        _queue := _queue f; _seen_urls := _seen_urls f;
        _crawled_urls := _crawled_urls f; _failed_urls := _failed_urls f;
        _not_empty := _not_empty f; _total_added := _total_added f;
        _total_duplicates_skipped := _total_duplicates_skipped f + 1 |})
  else if depth >? _max_depth f then (false, f)
  else if Z.of_nat (length (_queue f)) >=? _max_urls f then (false, f)
  else
    let entry := new_entry url depth prio parent_url metadata now in
    (true,
     {| _max_depth := _max_depth f; _max_urls := _max_urls f;
        _queue := Heapq.heappush entry_lt (_queue f) entry;
        _seen_urls := _seen_urls f ∪ {[uhash]};
        _crawled_urls := _crawled_urls f; _failed_urls := _failed_urls f;
        _not_empty := true; _total_added := _total_added f + 1;
        _total_duplicates_skipped := _total_duplicates_skipped f |}).

(** [URLFrontier.add_many]: the number of admitted URLs. *)
Fixpoint add_many (f : URLFrontier) (urls : list string) (depth : Z)
    (prio : URLPriority) (parent_url : string) (now : Q)
  : Z * URLFrontier :=
  match urls with
  | [] => (0, f)
  | u :: urls' =>
      let '(ok, f1) := add f u depth prio parent_url None now in
      let '(added, f2) := add_many f1 urls' depth prio parent_url now in
      ((if ok then 1 else 0) + added, f2)
  end.

Definition set_not_empty (f : URLFrontier) (flag : bool) : URLFrontier :=
  {| _max_depth := _max_depth f; _max_urls := _max_urls f;
     _queue := _queue f; _seen_urls := _seen_urls f;
     _crawled_urls := _crawled_urls f; _failed_urls := _failed_urls f;
     _not_empty := flag; _total_added := _total_added f;
     _total_duplicates_skipped := _total_duplicates_skipped f |}.

Definition set_queue (f : URLFrontier) (q : list URLEntry) : URLFrontier :=
  {| _max_depth := _max_depth f; _max_urls := _max_urls f;
     _queue := q; _seen_urls := _seen_urls f;
     _crawled_urls := _crawled_urls f; _failed_urls := _failed_urls f;
     _not_empty := _not_empty f; _total_added := _total_added f;
     _total_duplicates_skipped := _total_duplicates_skipped f |}.

(** [URLFrontier.get].  With the event unset the wait runs into its
    timeout (nothing else runs inside one call) and the result is
    [None].  [heappop] is [None] on the empty queue only: the branch
    [if not self._queue]. *)
Definition get (f : URLFrontier) : option URLEntry * URLFrontier :=
  if negb (_not_empty f) then (None, f)
  else
    match Heapq.heappop entry_lt (_queue f) with
    | None => (None, set_not_empty f false)
    | Some (entry, q) =>
        let f1 := set_queue f q in
        (Some entry,
         if bool_decide (q = []) then set_not_empty f1 false else f1)
    end.

Definition mark_crawled (f : URLFrontier) (url : string) : URLFrontier :=
  {| _max_depth := _max_depth f; _max_urls := _max_urls f;
     _queue := _queue f; _seen_urls := _seen_urls f;
     _crawled_urls := _crawled_urls f ∪ {[url_hash url]};
     _failed_urls := _failed_urls f;
     _not_empty := _not_empty f; _total_added := _total_added f;
     _total_duplicates_skipped := _total_duplicates_skipped f |}.

(** [URLFrontier.mark_failed]: [True] when the URL should be retried. *)
Definition mark_failed (f : URLFrontier) (url : string) (max_retries : Z)
  : bool * URLFrontier :=
  let uhash := url_hash url in
  let n := default 0 (_failed_urls f !! uhash) + 1 in
  (n <? max_retries,
   {| _max_depth := _max_depth f; _max_urls := _max_urls f;
      _queue := _queue f; _seen_urls := _seen_urls f;
      _crawled_urls := _crawled_urls f;
      _failed_urls := <[uhash := n]> (_failed_urls f);
      _not_empty := _not_empty f; _total_added := _total_added f;
      _total_duplicates_skipped := _total_duplicates_skipped f |}).

Definition is_crawled (f : URLFrontier) (url : string) : bool :=
  bool_decide (url_hash url ∈ _crawled_urls f).

Definition is_seen (f : URLFrontier) (url : string) : bool :=
  bool_decide (url_hash url ∈ _seen_urls f).

Definition size (f : URLFrontier) : Z := Z.of_nat (length (_queue f)).

Definition is_empty (f : URLFrontier) : bool :=
  Z.of_nat (length (_queue f)) =? 0.

(** The frontier is shared by the workers; between two calls of one
    worker any number of calls of the others may happen.  [steps f f']:
    [f'] comes from [f] by calls of the four state-changing methods. *)
Inductive steps (f0 : URLFrontier) : URLFrontier -> Prop :=
| steps_refl : steps f0 f0
| steps_add f url depth prio parent_url metadata now :
    steps f0 f ->
    steps f0 (add f url depth prio parent_url metadata now).2
| steps_get f :
    steps f0 f -> steps f0 (get f).2
| steps_mark_crawled f url :
    steps f0 f -> steps f0 (mark_crawled f url)
| steps_mark_failed f url max_retries :
    steps f0 f -> steps f0 (mark_failed f url max_retries).2.

(** The states the frontier can be in, starting from the constructor's. *)
Definition reachable (max_depth max_urls : Z) (f : URLFrontier) : Prop :=
  steps (init max_depth max_urls) f.

(** What every reachable state satisfies. *)
Record invariant (max_depth max_urls : Z) (f : URLFrontier) : Prop := {
  inv_max_depth : _max_depth f = max_depth;
  inv_max_urls : _max_urls f = max_urls;
  inv_heap : Heapq.heap_ok priority (_queue f);
  inv_seen : forall e, e ∈ _queue f -> url_hash (url e) ∈ _seen_urls f;
  inv_depth : forall e, e ∈ _queue f -> depth e <= max_depth;
  inv_size : _queue f = [] \/ Z.of_nat (length (_queue f)) <= max_urls;
  inv_event : _not_empty f = true <-> _queue f <> [];
}.

Lemma entry_lt_key a b : entry_lt a b = (priority a <? priority b).
Proof. done. Qed.

Lemma heappush_length (q : list URLEntry) e :
  length (Heapq.heappush entry_lt q e) = S (length q).
Proof. by rewrite (Heapq.heappush_perm entry_lt q e). Qed.

Lemma add_max_depth f url d prio par meta now :
  _max_depth (add f url d prio par meta now).2 = _max_depth f.
Proof. unfold add. by repeat case_match. Qed.

Lemma add_max_urls f url d prio par meta now :
  _max_urls (add f url d prio par meta now).2 = _max_urls f.
Proof. unfold add. by repeat case_match. Qed.

Lemma add_invariant md mu f url d prio par meta now :
  invariant md mu f -> invariant md mu (add f url d prio par meta now).2.
Proof.
  intros [Hmd Hmu Hheap Hseen Hdepth Hsize Hevent]. unfold add.
  case_bool_decide as Hin; [by split|].
  destruct (d >? _max_depth f) eqn:Hd; [by split|].
  destruct (Z.of_nat (length (_queue f)) >=? _max_urls f) eqn:Hfull;
    [by split|].
  split; cbn; try done.
  - apply (Heapq.heappush_ok priority entry_lt entry_lt_key). done.
  - intros e. rewrite (Heapq.heappush_perm entry_lt).
    intros [Heq|He]%elem_of_cons.
    + rewrite Heq. cbn. by apply elem_of_union_r, elem_of_singleton_2.
    + by apply elem_of_union_l, Hseen.
  - intros e. rewrite (Heapq.heappush_perm entry_lt).
    intros [Heq|He]%elem_of_cons.
    + rewrite Heq. cbn. lia.
    + by apply Hdepth.
  - right. rewrite heappush_length. lia.
  - split; [|done]. intros _ Hnil.
    pose proof (heappush_length (_queue f)
                  (new_entry url d prio par meta now)) as Hlen.
    by rewrite Hnil in Hlen.
Qed.

Lemma get_invariant md mu f :
  invariant md mu f -> invariant md mu (get f).2.
Proof.
  intros Hinv. pose proof Hinv as [Hmd Hmu Hheap Hseen Hdepth Hsize Hevent].
  unfold get.
  destruct (negb (_not_empty f)) eqn:Hflag; [done|].
  apply negb_false_iff in Hflag.
  destruct (Heapq.heappop entry_lt (_queue f)) as [[e q]|] eqn:Hpop.
  - pose proof (Heapq.heappop_perm _ _ _ _ Hpop) as Hperm.
    assert (Hsub : forall x, x ∈ q -> x ∈ _queue f).
    { intros x Hx. rewrite Hperm. by right. }
    assert (Hlen : length (_queue f) = S (length q)) by by rewrite Hperm.
    assert (Hq : Heapq.heap_ok priority q).
    { by eapply (Heapq.heappop_ok priority entry_lt entry_lt_key). }
    cbn [snd]. case_bool_decide as Hnil.
    + subst q. split; cbn; auto. split; [done|]. by intros [].
    + split; cbn; auto.
      * destruct Hsize as [Hsize|Hsize]; [by rewrite Hsize in Hlen|].
        right. lia.
      * by rewrite Hflag.
  - destruct (_queue f) as [|a q] eqn:Hq.
    + split; cbn; rewrite ?Hq; auto.
      all: try (by intros e ?%elem_of_nil).
      split; [done|]. by intros [].
    + destruct (Heapq.heappop_nonempty entry_lt (a :: q)) as (x & h' & Hx);
        [done|congruence].
Qed.

Lemma steps_invariant md mu f0 f :
  invariant md mu f0 -> steps f0 f -> invariant md mu f.
Proof.
  intros H0. induction 1 as [|f url d prio par meta now _ IH|f _ IH
                            |f url _ IH|f url mr _ IH].
  - done.
  - by apply add_invariant.
  - by apply get_invariant.
  - by destruct IH.
  - by destruct IH.
Qed.

Lemma init_invariant md mu : invariant md mu (init md mu).
Proof.
  split; cbn; auto using Heapq.heap_ok_nil.
  - by intros e ?%elem_of_nil.
  - by intros e ?%elem_of_nil.
  - split; [done|]. by intros [].
Qed.

Theorem reachable_invariant md mu f :
  reachable md mu f -> invariant md mu f.
Proof. apply steps_invariant, init_invariant. Qed.

Lemma steps_trans f0 f1 f2 : steps f0 f1 -> steps f1 f2 -> steps f0 f2.
Proof. intros H1. induction 1; [done|by constructor..]. Qed.

(** [n] calls of [get] in a row. *)
Fixpoint gets (n : nat) (f : URLFrontier) : URLFrontier :=
  match n with
  | O => f
  | S n' => gets n' (get f).2
  end.

Lemma get_seen f : _seen_urls (get f).2 = _seen_urls f.
Proof. unfold get. by repeat (case_match || case_bool_decide). Qed.

Lemma get_limits f :
  _max_depth (get f).2 = _max_depth f /\ _max_urls (get f).2 = _max_urls f.
Proof. unfold get. by repeat (case_match || case_bool_decide). Qed.

Lemma gets_seen n : forall f, _seen_urls (gets n f) = _seen_urls f.
Proof. induction n as [|n IH]; intros f; cbn; [done|]. by rewrite IH, get_seen. Qed.

Lemma gets_limits n : forall f,
  _max_depth (gets n f) = _max_depth f /\ _max_urls (gets n f) = _max_urls f.
Proof.
  induction n as [|n IH]; intros f; cbn; [done|].
  destruct (IH (get f).2) as [-> ->]. apply get_limits.
Qed.

(** The lexicographic order of the specification on
    [(priority, depth, discovery_time)]. *)
Definition tuple_lt (a b : URLEntry) : Prop :=
  priority a < priority b \/
  (priority a = priority b /\
   (depth a < depth b \/
    (depth a = depth b /\ (discovered_at a < discovered_at b)%Q))).

Lemma get_some md mu f :
  reachable md mu f -> _queue f <> [] -> exists e f', get f = (Some e, f').
Proof.
  intros Hinv%reachable_invariant Hne. unfold get.
  apply (inv_event _ _ _ Hinv) in Hne as Hflag. rewrite Hflag. cbn [negb].
  destruct (Heapq.heappop_nonempty entry_lt _ Hne) as (e & q & ->). eauto.
Qed.

Lemma get_pops f e f' :
  get f = (Some e, f') ->
  exists q, Heapq.heappop entry_lt (_queue f) = Some (e, q) /\ _queue f' = q /\
    _seen_urls f' = _seen_urls f /\ _crawled_urls f' = _crawled_urls f /\
    _failed_urls f' = _failed_urls f /\ _max_depth f' = _max_depth f /\
    _max_urls f' = _max_urls f /\
    _total_duplicates_skipped f' = _total_duplicates_skipped f.
Proof.
  unfold get. destruct (negb (_not_empty f)); [done|].
  destruct (Heapq.heappop entry_lt (_queue f)) as [[e0 q]|]; [|done].
  intros [= <- <-]. exists q. by case_bool_decide.
Qed.

Lemma add_seen_mono f u d prio par meta now :
  _seen_urls f ⊆ _seen_urls (add f u d prio par meta now).2.
Proof.
  unfold add. repeat (case_match || case_bool_decide); cbn; try done.
  apply union_subseteq_l.
Qed.

Lemma steps_seen_mono f0 f : steps f0 f -> _seen_urls f0 ⊆ _seen_urls f.
Proof.
  induction 1 as [|f url d prio par meta now _ IH|f _ IH|f url _ IH
                 |f url mr _ IH]; try done.
  - etrans; [exact IH|]. apply add_seen_mono.
  - by rewrite get_seen.
Qed.

(** A popped entry went through [add]: its hash is in the seen set, and
    stays there. *)
Lemma popped_is_seen md mu f0 e f1 f2 :
  reachable md mu f0 -> get f0 = (Some e, f1) -> steps f1 f2 ->
  url_hash (url e) ∈ _seen_urls f2.
Proof.
  intros Hinv%reachable_invariant (q & Hpop & _ & Hseen & _)%get_pops Hsteps.
  apply (steps_seen_mono _ _ Hsteps). rewrite Hseen.
  apply (inv_seen _ _ _ Hinv).
  rewrite (Heapq.heappop_perm _ _ _ _ Hpop). by left.
Qed.

(** C3 (as amended): in every reachable state with a non-empty queue
    [get] returns an entry, and the entry it returns is one of the queue
    whose priority is the least of all enqueued entries; the rest of the
    queue stays enqueued.  Depth and discovery time take no part. *)
Theorem get_min_priority md mu f :
  reachable md mu f ->
  (_queue f <> [] -> exists e f', get f = (Some e, f')) /\
  (forall e f', get f = (Some e, f') ->
     e ∈ _queue f /\
     (forall e', e' ∈ _queue f -> priority e <= priority e') /\
     _queue f ≡ₚ e :: _queue f').
Proof.
  intros Hreach. split; [by eapply get_some|].
  intros e f' (q & Hpop & Hq & _)%get_pops.
  pose proof (reachable_invariant _ _ _ Hreach) as Hinv.
  pose proof (Heapq.heappop_perm _ _ _ _ Hpop) as Hperm.
  split; [|split].
  - rewrite Hperm. by left.
  - apply (Heapq.heap_ok_root priority); [apply Hinv|].
    by eapply Heapq.heappop_root.
  - by rewrite Hq.
Qed.

(** C6: [add] answers [False] exactly when the hash is already seen, or
    the depth is over [max_depth], or the queue holds [max_urls] entries,
    and [True] otherwise; an admission puts the hash into the seen set and
    the entry into the heap; every URL of the queue is in the seen set and
    the queue never holds more than [max_urls] entries. *)
Theorem add_admission md mu f u d prio par meta now :
  reachable md mu f -> 0 <= mu ->
  let r := add f u d prio par meta now in
  let rejected := url_hash u ∈ _seen_urls f \/ d > _max_depth f \/
                  Z.of_nat (length (_queue f)) = _max_urls f in
  (r.1 = false <-> rejected) /\
  (r.1 = true <-> ~ rejected) /\
  (r.1 = true ->
     _seen_urls r.2 = _seen_urls f ∪ {[url_hash u]} /\
     _queue r.2 ≡ₚ new_entry u d prio par meta now :: _queue f) /\
  (forall e, e ∈ _queue r.2 -> url_hash (url e) ∈ _seen_urls r.2) /\
  Z.of_nat (length (_queue r.2)) <= _max_urls r.2.
Proof.
  intros Hreach Hmu r rejected.
  pose proof (reachable_invariant _ _ _ Hreach) as Hinv.
  pose proof (add_invariant _ _ _ u d prio par meta now Hinv) as Hinv'.
  fold r in Hinv'.
  assert (Hlen : Z.of_nat (length (_queue f)) <= _max_urls f).
  { rewrite (inv_max_urls _ _ _ Hinv).
    destruct (inv_size _ _ _ Hinv) as [->|]; [cbn; lia|done]. }
  assert (Hcase : (r.1 = false /\ rejected) \/
    (r.1 = true /\ ~ rejected /\
     _seen_urls r.2 = _seen_urls f ∪ {[url_hash u]} /\
     _queue r.2 ≡ₚ new_entry u d prio par meta now :: _queue f)).
  { subst r rejected. unfold add.
    case_bool_decide as Hin; [left; by auto|].
    destruct (d >? _max_depth f) eqn:Hd.
    { left. split; [done|]. right; left. lia. }
    destruct (Z.of_nat (length (_queue f)) >=? _max_urls f) eqn:Hfull.
    { left. split; [done|]. right; right. lia. }
    right. cbn. split; [done|]. split; [|split; [done|]].
    - intros [?|[?|?]]; [done|lia|lia].
    - apply Heapq.heappush_perm. }
  split; [|split; [|split; [|split]]].
  - destruct Hcase as [[-> ?]|[-> ?]]; [done|]. split; [done|tauto].
  - destruct Hcase as [[-> ?]|[-> ?]]; [|tauto]. split; [done|tauto].
  - destruct Hcase as [[-> ?]|[_ (_ & ? & ?)]]; done.
  - apply Hinv'.
  - rewrite (inv_max_urls _ _ _ Hinv').
    destruct (inv_size _ _ _ Hinv') as [->|]; [cbn; lia|done].
Qed.

(** C10: a rejection for depth or for capacity of a URL that is not in
    the seen set leaves the frontier as it was (seen set and
    [duplicates_skipped] included), so after any number of [get]s the same
    URL is admitted once its depth is admissible and the queue has room;
    [duplicates_skipped] moves, by one, exactly on rejections of seen
    URLs. *)
Theorem add_reject_keeps_state f url d prio par meta now :
  url_hash url ∉ _seen_urls f ->
  d > _max_depth f \/ Z.of_nat (length (_queue f)) >= _max_urls f ->
  let r := add f url d prio par meta now in
  r = (false, f) /\
  (forall n d' prio' par' meta' now',
     let f' := gets n r.2 in
     d' <= _max_depth f' ->
     Z.of_nat (length (_queue f')) < _max_urls f' ->
     (add f' url d' prio' par' meta' now').1 = true) /\
  (forall url' d' prio' par' meta' now',
     _total_duplicates_skipped (add f url' d' prio' par' meta' now').2 =
     _total_duplicates_skipped f +
     (if bool_decide (url_hash url' ∈ _seen_urls f) then 1 else 0)).
Proof.
  intros Hnew Hrej r.
  assert (Hr : r = (false, f)).
  { subst r. unfold add. rewrite bool_decide_eq_false_2 by done.
    destruct (d >? _max_depth f) eqn:Hd; [done|].
    destruct (Z.of_nat (length (_queue f)) >=? _max_urls f) eqn:Hfull;
      [done|lia]. }
  split; [done|]. split.
  - intros n d' prio' par' meta' now' f' Hd' Hroom.
    assert (_seen_urls f' = _seen_urls f) as Hseen.
    { subst f'. by rewrite gets_seen, Hr. }
    unfold add. rewrite Hseen, bool_decide_eq_false_2 by done.
    destruct (d' >? _max_depth f') eqn:Hd; [lia|].
    destruct (Z.of_nat (length (_queue f')) >=? _max_urls f') eqn:Hfull;
      [lia|done].
  - intros url' d' prio' par' meta' now'. unfold add.
    case_bool_decide; cbn; [done|]. repeat case_match; cbn; lia.
Qed.

(** *** Concrete runs *)

(** Two links found at the same priority, the deeper one first. *)
Definition two_depths : URLFrontier :=
  let f1 := (add (init 3 100) "http://a.test/deep" 1 NORMAL EmptyString None 10).2 in
  (add f1 "http://a.test/top" 0 NORMAL EmptyString None 20).2.

(** Four links with one and the same tuple [(2, 0, 10)]. *)
Definition four_ties : URLFrontier :=
  let f1 := (add (init 3 100) "http://a.test/1" 0 NORMAL EmptyString None 10).2 in
  let f2 := (add f1 "http://a.test/2" 0 NORMAL EmptyString None 10).2 in
  let f3 := (add f2 "http://a.test/3" 0 NORMAL EmptyString None 10).2 in
  (add f3 "http://a.test/4" 0 NORMAL EmptyString None 10).2.

Lemma two_depths_reachable : reachable 3 100 two_depths.
Proof. do 2 apply steps_add. apply steps_refl. Qed.

(** C3 fails as stated: [get] hands out the entry of depth 1 while an
    entry with the smaller tuple [(2, 0, _)] is enqueued; and of four
    entries with equal tuples the third inserted is popped second. *)
Lemma get_not_tuple_minimal :
  (exists e e', (get two_depths).1 = Some e /\ e' ∈ _queue two_depths /\
                tuple_lt e' e) /\
  url <$> (get four_ties).1 = Some "http://a.test/1" /\
  url <$> (get (get four_ties).2).1 = Some "http://a.test/3".
Proof.
  split; [|split; vm_compute; reflexivity].
  exists (new_entry "http://a.test/deep" 1 NORMAL EmptyString None 10),
         (new_entry "http://a.test/top" 0 NORMAL EmptyString None 20).
  split; [vm_compute; reflexivity|]. split.
  - assert (_queue two_depths =
            [new_entry "http://a.test/deep" 1 NORMAL EmptyString None 10;
             new_entry "http://a.test/top" 0 NORMAL EmptyString None 20]) as ->
      by (vm_compute; reflexivity).
    apply list_elem_of_further, list_elem_of_here.
  - right. split; [reflexivity|]. left. cbn. lia.
Qed.

Lemma get_min_priority_witness :
  reachable 3 100 two_depths /\
  (_queue two_depths <> [] -> exists e f', get two_depths = (Some e, f')) /\
  (forall e f', get two_depths = (Some e, f') ->
     e ∈ _queue two_depths /\
     (forall e', e' ∈ _queue two_depths -> priority e <= priority e') /\
     _queue two_depths ≡ₚ e :: _queue f').
Proof.
  split; [apply two_depths_reachable|].
  apply (get_min_priority 3 100 two_depths), two_depths_reachable.
Defined.

Lemma add_admission_witness :
  let r := add two_depths "http://a.test/new" 2 LOW EmptyString None 30 in
  reachable 3 100 two_depths /\ 0 <= 100 /\
  (r.1 = true ->
     _seen_urls r.2 =
       (_seen_urls two_depths ∪ {[url_hash "http://a.test/new"]}) /\
     _queue r.2 ≡ₚ
       new_entry "http://a.test/new" 2 LOW EmptyString None 30 :: _queue two_depths) /\
  Z.of_nat (length (_queue r.2)) <= _max_urls r.2.
Proof.
  intros r. split; [apply two_depths_reachable|]. split; [lia|].
  destruct (add_admission 3 100 two_depths "http://a.test/new" 2 LOW EmptyString
              None 30 two_depths_reachable ltac:(lia))
    as (_ & _ & Hadm & _ & Hsize).
  split; [exact Hadm|exact Hsize].
Defined.

(** A frontier with [max_depth = 1] that has seen nothing. *)
Lemma add_reject_keeps_state_witness :
  let f := init 1 100 in
  let r := add f "http://a.test/p2" 2 NORMAL EmptyString None 10 in
  (url_hash "http://a.test/p2" ∉ _seen_urls f) /\
  (2 > _max_depth f \/ Z.of_nat (length (_queue f)) >= _max_urls f) /\
  r = (false, f) /\
  (add (gets 0 r.2) "http://a.test/p2" 1 NORMAL EmptyString None 20).1 = true.
Proof.
  intros f r.
  assert (Hnew : url_hash "http://a.test/p2" ∉ _seen_urls f)
    by apply not_elem_of_empty.
  assert (Hrej : 2 > _max_depth f \/
                 Z.of_nat (length (_queue f)) >= _max_urls f)
    by (left; cbn; lia).
  destruct (add_reject_keeps_state f "http://a.test/p2" 2 NORMAL EmptyString None 10
              Hnew Hrej) as (Hsame & Hlater & _).
  split; [exact Hnew|]. split; [exact Hrej|]. split; [exact Hsame|].
  apply (Hlater 0%nat 1 NORMAL EmptyString None 20%Q); rewrite Hsame; cbn; lia.
Defined.
End Frontier.

(* ===================================================================== *)
(** ** core/crawler_engine.py: the worker                                 *)
(* ===================================================================== *)

Module Engine.
Import HashUtils Frontier.

(** What [_crawl_page] hands to the worker.  The call goes through robots,
    the rate limiter, the fetchers and the extractors and never touches the
    frontier, so only its outcome matters here. *)
Inductive crawl_outcome :=
| PageData (internal external : list string)  (* a page record, with its links *)
| NoPage    (* [None]: robots block, non-success fetch, fetch exception *)
| Raised.   (* an exception left [_crawl_page] *)

(** The engine fields the worker writes: the frontier and the two
    counters of [self.stats]. *)
Record EngineState := {
  frontier : URLFrontier;
  pages_crawled : Z;
  pages_failed : Z;
}.

(** The [for link in ...: await self.frontier.add(...)] loops.  [now]
    stands for the clock readings taken while the links of one page are
    added; no code reads [discovered_at]. *)
Fixpoint add_links (f : URLFrontier) (links : list string) (d : Z)
    (prio : URLPriority) (parent_url : string) (now : Q) : URLFrontier :=
  match links with
  | [] => f
  | link :: links' =>
      add_links (add f link d prio parent_url None now).2 links' d prio
                parent_url now
  end.

(** [_process_links].  [follow_external] is
    [crawl_config.follow_external_links]. *)
Definition _process_links (follow_external : bool) (f : URLFrontier)
    (internal external : list string) (parent_url : string) (d : Z)
    (now : Q) : URLFrontier :=
  let f := add_links f internal d NORMAL parent_url now in
  if follow_external
  then add_links f (take 10 external) d DEFERRED parent_url now
  else f.

(** The body of the worker loop after a successful [get]: the
    [try] / [except Exception] around [_crawl_page]. *)
Definition handle_entry (follow_external : bool) (st : EngineState)
    (entry : URLEntry) (result : crawl_outcome) (now : Q) : EngineState :=
  let u := url entry in
  let d := depth entry in
  match result with
  | PageData internal external =>
      let f := mark_crawled (frontier st) u in
      {| frontier := _process_links follow_external f internal external u
                                    (d + 1) now;
         pages_crawled := pages_crawled st + 1;
         pages_failed := pages_failed st |}
  | NoPage =>
      {| frontier := frontier st;
         pages_crawled := pages_crawled st;
         pages_failed := pages_failed st + 1 |}
  | Raised =>
      let '(should_retry, f) := mark_failed (frontier st) u 3 in
      {| frontier :=
           if should_retry then (add f u d LOW EmptyString None now).2 else f;
         pages_crawled := pages_crawled st;
         pages_failed := pages_failed st + 1 |}
  end.

(** One round of [while self._running]: [Some] state to go on with, or
    [None] when the worker breaks out of the loop. *)
Definition worker_round (follow_external : bool) (st : EngineState)
    (result : crawl_outcome) (now : Q) : option EngineState :=
  let '(entry, f) := get (frontier st) in
  let st := {| frontier := f; pages_crawled := pages_crawled st;
               pages_failed := pages_failed st |} in
  match entry with
  | None => if is_empty f then None else Some st
  | Some entry => Some (handle_entry follow_external st entry result now)
  end.




Lemma add_links_fields f links d prio par now :
  _crawled_urls (add_links f links d prio par now) = _crawled_urls f /\
  _failed_urls (add_links f links d prio par now) = _failed_urls f /\
  _seen_urls f ⊆ _seen_urls (add_links f links d prio par now).
Proof.
  revert f. induction links as [|l links IH]; intros f; cbn; [done|].
  destruct (IH (add f l d prio par None now).2) as (-> & -> & Hsub).
  split; [|split].
  - unfold add. by repeat (case_match || case_bool_decide).
  - unfold add. by repeat (case_match || case_bool_decide).
  - etrans; [|exact Hsub]. apply add_seen_mono.
Qed.

(** An entry enqueued by [add_links] is an old one or one whose hash had
    not been seen. *)
Lemma add_links_queue f links d prio par now e :
  e ∈ _queue (add_links f links d prio par now) ->
  e ∈ _queue f \/ url_hash (url e) ∉ _seen_urls f.
Proof.
  revert f. induction links as [|l links IH]; intros f; cbn; [by left|].
  intros [He|He]%IH.
  - revert He. unfold add. case_bool_decide as Hseen; [by left|].
    destruct (_ >? _); [by left|]. destruct (_ >=? _); [by left|]. cbn.
    rewrite (Heapq.heappush_perm entry_lt).
    intros [->|He]%elem_of_cons; [by right|by left].
  - right. intros Hin. apply He. by apply add_seen_mono.
Qed.

(** C1 (what the code does instead): when the handler has raised for a
    popped entry the worker calls [mark_failed] and, if retries remain,
    [add] at [LOW] priority -- and that [add] answers [False], whatever
    the other workers did meanwhile: the hash of the URL never left the
    seen set.  The entry does not come back into the queue; only
    [duplicates_skipped] moves. *)
Theorem retry_add_rejected md mu f0 e f1 f2 now :
  reachable md mu f0 -> get f0 = (Some e, f1) -> steps f1 f2 ->
  let f3 := (mark_failed f2 (url e) 3).2 in
  let r := add f3 (url e) (depth e) LOW EmptyString None now in
  r.1 = false /\
  _queue r.2 = _queue f2 /\
  _total_duplicates_skipped r.2 = _total_duplicates_skipped f2 + 1 /\
  forall follow st, frontier st = f2 ->
    _queue (frontier (handle_entry follow st e Raised now)) = _queue f2.
Proof.
  intros Hreach Hget Hsteps f3 r.
  pose proof (popped_is_seen _ _ _ _ _ _ Hreach Hget Hsteps) as Hseen.
  assert (Hr : r.1 = false /\ _queue r.2 = _queue f2 /\
    _total_duplicates_skipped r.2 = _total_duplicates_skipped f2 + 1).
  { subst r f3. unfold add. cbn [mark_failed snd _seen_urls].
    by rewrite bool_decide_eq_true_2. }
  destruct Hr as (Hfalse & Hqueue & Hdup). repeat split; try done.
  intros follow st Hst. unfold handle_entry. rewrite Hst.
  cbn [mark_failed]. case_match; [exact Hqueue|done].
Qed.

(** [CrawlerEngine.start] up to the spawning of the workers: the seed is
    enqueued at [CRITICAL] priority and depth 0. *)
Definition start (max_depth max_urls : Z) (seed_url : string) (now : Q)
  : EngineState :=
  {| frontier := (add (init max_depth max_urls) seed_url 0 CRITICAL EmptyString
                      None now).2;
     pages_crawled := 0; pages_failed := 0 |}.

Definition seed_state : EngineState := start 3 100 "http://a.test/" 0.

Definition seed_entry : URLEntry :=
  new_entry "http://a.test/" 0 CRITICAL EmptyString None 0.

Lemma seed_reachable : reachable 3 100 (frontier seed_state).
Proof. apply steps_add, steps_refl. Qed.

Lemma seed_popped :
  get (frontier seed_state) =
  (Some seed_entry, set_not_empty (set_queue (frontier seed_state) []) false).
Proof. vm_compute. reflexivity. Qed.

(** The run behind C1: the seed is popped, the handler raises,
    [mark_failed] asks for a retry and the retry is turned away. *)
Lemma retry_add_rejected_witness :
  let f1 := (get (frontier seed_state)).2 in
  let f3 := (mark_failed f1 "http://a.test/" 3).2 in
  reachable 3 100 (frontier seed_state) /\
  get (frontier seed_state) = (Some seed_entry, f1) /\
  steps f1 f1 /\
  (mark_failed f1 "http://a.test/" 3).1 = true /\
  (add f3 "http://a.test/" 0 LOW EmptyString None 1).1 = false /\
  _queue (add f3 "http://a.test/" 0 LOW EmptyString None 1).2 = [].
Proof.
  intros f1 f3.
  assert (Hget : get (frontier seed_state) = (Some seed_entry, f1))
    by (subst f1; by rewrite seed_popped).
  destruct (retry_add_rejected 3 100 (frontier seed_state) seed_entry f1 f1 1
              seed_reachable Hget (steps_refl f1)) as (Hfalse & Hqueue & _).
  split; [exact seed_reachable|]. split; [exact Hget|].
  split; [apply steps_refl|]. split; [vm_compute; reflexivity|].
  split; [exact Hfalse|]. etrans; [exact Hqueue|].
  subst f1. by rewrite seed_popped.
Defined.

Lemma _process_links_fields follow f internal external par d now :
  let f' := _process_links follow f internal external par d now in
  _crawled_urls f' = _crawled_urls f /\ _failed_urls f' = _failed_urls f /\
  forall e, e ∈ _queue f' -> e ∈ _queue f \/ url_hash (url e) ∉ _seen_urls f.
Proof.
  cbv zeta. unfold _process_links.
  set (fi := add_links f internal d NORMAL par now).
  destruct (add_links_fields f internal d NORMAL par now) as (Hc & Hf & Hs).
  fold fi in Hc, Hf, Hs.
  destruct follow.
  - destruct (add_links_fields fi (take 10 external) d DEFERRED par now)
      as (-> & -> & _).
    split; [done|]. split; [done|].
    intros e [He|He]%add_links_queue.
    + by apply add_links_queue in He.
    + right. intros Hin. by apply He, Hs.
  - split; [done|]. split; [done|]. intros e He. by apply add_links_queue in He.
Qed.



End Engine.

(* ===================================================================== *)
(** ** core/rate_limiter.py                                               *)
(* ===================================================================== *)

Module RateLimiter.
Section rate_limiter.
Local Open Scope Q_scope.

(** The dataclass [DomainState], with its defaults. *)
Record DomainState := {
  last_request_time : Q;
  request_count : Z;
  error_count : Z;
  consecutive_errors : Z;
  avg_response_time : Q;
  current_delay : Q;
  _response_times : list Q;
}.

Definition DomainState_default : DomainState :=
  {| last_request_time := 0; request_count := 0; error_count := 0;
     consecutive_errors := 0; avg_response_time := 0; current_delay := 1;
     _response_times := [] |}.

(** [sum(xs)] *)
Definition sum (xs : list Q) : Q := foldl Qplus 0 xs.

(** [DomainState.record_request]; [now] is the reading of [time.time()]. *)
Definition record_request (st : DomainState) (response_time : Q)
    (success : bool) (now : Q) : DomainState :=
  if success then
    let times := _response_times st ++ [response_time] in
    let times := drop (length times - 50) times in          (* [-50:] *)
    {| last_request_time := now;
       request_count := (request_count st + 1)%Z;
       error_count := error_count st;
       consecutive_errors := 0;
       avg_response_time := sum times / inject_Z (Z.of_nat (length times));
       current_delay := current_delay st;
       _response_times := times |}
  else
    {| last_request_time := now;
       request_count := (request_count st + 1)%Z;
       error_count := (error_count st + 1)%Z;
       consecutive_errors := (consecutive_errors st + 1)%Z;
       avg_response_time := avg_response_time st;
       current_delay := current_delay st;
       _response_times := _response_times st |}.

(** [AdaptiveRateLimiter]; the per-domain locks are not modelled, each
    method below runs as one step. *)
Record AdaptiveRateLimiter := {
  _base_delay : Q;
  _min_delay : Q;
  _max_delay : Q;
  _adaptive : bool;
  _jitter : Q;
  _domains : gmap string DomainState;
}.

(** [__init__]; [None] is the [ZeroDivisionError] of
    [1.0 / requests_per_second]. *)
Definition __init__ (requests_per_second min_delay max_delay : Q)
    (adaptive : bool) (jitter : Q) : option AdaptiveRateLimiter :=
  if Qeq_bool requests_per_second 0 then None
  else Some {| _base_delay := 1 / requests_per_second;
               _min_delay := min_delay; _max_delay := max_delay;
               _adaptive := adaptive; _jitter := jitter; _domains := ∅ |}.

(** [self._domains[domain]] on the [defaultdict(DomainState)]. *)
Definition domain_state (l : AdaptiveRateLimiter) (domain : string)
  : DomainState :=
  default DomainState_default (_domains l !! domain).

Definition set_domain (l : AdaptiveRateLimiter) (domain : string)
    (st : DomainState) : AdaptiveRateLimiter :=
  {| _base_delay := _base_delay l; _min_delay := _min_delay l;
     _max_delay := _max_delay l; _adaptive := _adaptive l;
     _jitter := _jitter l; _domains := <[domain := st]> (_domains l) |}.

Definition set_current_delay (st : DomainState) (d : Q) : DomainState :=
  {| last_request_time := last_request_time st;
     request_count := request_count st; error_count := error_count st;
     consecutive_errors := consecutive_errors st;
     avg_response_time := avg_response_time st;
     current_delay := d; _response_times := _response_times st |}.

Definition _calculate_delay (l : AdaptiveRateLimiter) (st : DomainState)
  : Q :=
  if _adaptive l then current_delay st else _base_delay l.

(** [_adjust_delay].  Python's [min(a, b)] is [b] when [b < a] and [a]
    otherwise, [max(a, b)] is [b] when [b > a]: [Qmin] and [Qmax]. *)
Definition _adjust_delay (l : AdaptiveRateLimiter) (st : DomainState)
    (status_code : Z) : DomainState :=
  if (status_code =? 429)%Z then
    set_current_delay st (Qmin (current_delay st * 3) (_max_delay l))
  else if (status_code >=? 500)%Z then
    set_current_delay st (Qmin (current_delay st * 2) (_max_delay l))
  else if (consecutive_errors st >=? 3)%Z then
    set_current_delay st (Qmin (current_delay st * 2) (_max_delay l))
  else if (consecutive_errors st =? 0)%Z && (status_code <? 400)%Z then
    set_current_delay st (Qmax (current_delay st * (95 # 100)) (_min_delay l))
  else st.

(** [record] *)
Definition record (l : AdaptiveRateLimiter) (domain : string)
    (response_time : Q) (success : bool) (status_code : Z) (now : Q)
  : AdaptiveRateLimiter :=
  let st := record_request (domain_state l domain) response_time success now in
  set_domain l domain
    (if _adaptive l then _adjust_delay l st status_code else st).

(** [set_crawl_delay] for a delay that is a number; what the floats that
    are no numbers give is [crawl_delay_value] below. *)
Definition set_crawl_delay (l : AdaptiveRateLimiter) (domain : string)
    (delay : Q) : AdaptiveRateLimiter :=
  set_domain l domain
    (set_current_delay (domain_state l domain) (Qmax delay (_min_delay l))).

(** The floats that can reach [set_crawl_delay]: the engine passes what
    [float(text)] made of the robots.txt line, which is a number, an
    infinity or NaN. *)
Inductive pyfloat := Num (q : Q) | PInf | NInf | NaN.

(** [b > a] on floats; false whenever one side is NaN. *)
Definition float_gt (b a : pyfloat) : bool :=
  match b, a with
  | NaN, _ | _, NaN => false
  | NInf, _ | _, PInf => false
  | _, NInf | PInf, _ => true
  | Num x, Num y => if Qlt_le_dec y x then true else false
  end.

(** [max(a, b)]: [b] when [b > a], else [a]. *)
Definition float_max (a b : pyfloat) : pyfloat :=
  if float_gt b a then b else a.

(** The value [max(delay, self._min_delay)] that [set_crawl_delay]
    assigns to [current_delay]. *)
Definition crawl_delay_value (l : AdaptiveRateLimiter) (delay : pyfloat)
  : pyfloat :=
  float_max delay (Num (_min_delay l)).

(** [acquire]: the time slept ([0] when no wait is due) and the limiter,
    in which the domain now has a state.  [u] is the draw of
    [random.uniform(-jitter_amount, jitter_amount)], with
    [jitter_amount = remaining * self._jitter]. *)
Definition acquire (l : AdaptiveRateLimiter) (domain : string) (now u : Q)
  : Q * AdaptiveRateLimiter :=
  let st := domain_state l domain in
  let elapsed := now - last_request_time st in
  let remaining := _calculate_delay l st - elapsed in
  (if Qlt_le_dec 0 remaining then Qmax 0 (remaining + u) else 0,
   set_domain l domain st).

Lemma domain_state_set l d st : domain_state (set_domain l d st) d = st.
Proof. unfold domain_state. cbn. by rewrite lookup_insert_eq. Qed.

Lemma record_request_delay st rt ok now :
  current_delay (record_request st rt ok now) = current_delay st.
Proof. unfold record_request. by destruct ok. Qed.

Definition within (l : AdaptiveRateLimiter) (d : Q) : Prop :=
  _min_delay l <= d /\ d <= _max_delay l.

Lemma _adjust_delay_within l st status :
  0 <= _min_delay l -> within l (current_delay st) ->
  within l (current_delay (_adjust_delay l st status)).
Proof.
  intros Hmin [Hlo Hhi]. unfold _adjust_delay, within in *.
  assert (Hmm : _min_delay l <= _max_delay l) by by eapply Qle_trans.
  assert (H0 : 0 <= current_delay st) by by eapply Qle_trans.
  assert (Hup : forall k, 1 <= k ->
    _min_delay l <= Qmin (current_delay st * k) (_max_delay l) /\
    Qmin (current_delay st * k) (_max_delay l) <= _max_delay l).
  { intros k Hk. split; [|apply Q.le_min_r].
    apply Q.min_glb; [|done]. eapply Qle_trans; [exact Hlo|].
    rewrite <- (Qmult_1_r (current_delay st)) at 1.
    rewrite !(Qmult_comm (current_delay st)).
    by apply Qmult_le_compat_r. }
  repeat case_match; cbn; try (by apply Hup); try done.
  split; [apply Q.le_max_r|]. apply Q.max_lub; [|done].
  eapply Qle_trans; [|exact Hhi].
  rewrite <- (Qmult_1_r (current_delay st)) at 2.
  rewrite !(Qmult_comm (current_delay st)).
  by apply Qmult_le_compat_r.
Qed.

Lemma domain_state_other l d d' st :
  d <> d' -> domain_state (set_domain l d st) d' = domain_state l d'.
Proof. intros Hne. unfold domain_state. cbn. by rewrite lookup_insert_ne. Qed.

(** C5: with the adaptive flag on, [record] with status 429 sets the
    domain's [current_delay] to [min(prev * 3, max_delay)], whatever the
    success flag and the response time. *)
Theorem record_429_triples l domain response_time success now :
  _adaptive l = true ->
  current_delay (domain_state
    (record l domain response_time success 429 now) domain) =
  Qmin (current_delay (domain_state l domain) * 3) (_max_delay l).
Proof.
  intros Hadaptive. unfold record. rewrite domain_state_set, Hadaptive.
  unfold _adjust_delay. cbn [Z.eqb Pos.eqb set_current_delay current_delay].
  by rewrite record_request_delay.
Qed.

Lemma Qmax_cases q m : Qmax q m = if Qlt_le_dec q m then m else q.
Proof.
  unfold Qmax, GenericMinMax.gmax.
  destruct (Qlt_le_dec q m) as [Hlt|Hle].
  - assert (Hc : (q ?= m) = Lt) by (by apply Qlt_alt). by rewrite Hc.
  - assert (Hc : (m ?= q) <> Gt) by (by apply Qle_alt).
    rewrite <- Qcompare_antisym. by destruct (m ?= q).
Qed.

(** On a delay that is a number the state model stores what the float
    [max] gives; a NaN delay is stored as NaN and an infinite one as
    itself or as [min_delay], values that no [DomainState] of the model
    holds. *)
Lemma crawl_delay_value_cases l domain :
  (forall delay,
     crawl_delay_value l (Num delay)
     = Num (current_delay (domain_state (set_crawl_delay l domain delay)
                                        domain))) /\
  crawl_delay_value l NaN = NaN /\
  crawl_delay_value l PInf = PInf /\
  crawl_delay_value l NInf = Num (_min_delay l).
Proof.
  split; [|done]. intros delay.
  unfold set_crawl_delay. rewrite domain_state_set.
  cbn [set_current_delay current_delay]. rewrite Qmax_cases.
  unfold crawl_delay_value, float_max, float_gt.
  by destruct (Qlt_le_dec delay (_min_delay l)).
Qed.

(** C4 (as amended): a domain's [current_delay] starts at the default
    [1.0] of [DomainState], whatever [requests_per_second] is; [record]
    keeps it within [[min_delay, max_delay]] when it was within (for
    [min_delay >= 0]); [set_crawl_delay] with a delay that is a number
    sets it to [max(delay, min_delay)] as Python's [max] gives it on
    floats, which is then at least [min_delay], and within the bounds
    when [delay <= max_delay] and [min_delay <= max_delay].  The delays
    that are no numbers are left out here, see
    [crawl_delay_value_cases]. *)
Theorem current_delay_start_and_bounds rps mn mx adaptive jitter l0 domain :
  __init__ rps mn mx adaptive jitter = Some l0 ->
  current_delay (domain_state l0 domain) = 1 /\
  (forall l response_time success status_code now,
     0 <= _min_delay l ->
     within l (current_delay (domain_state l domain)) ->
     let l' := record l domain response_time success status_code now in
     within l' (current_delay (domain_state l' domain))) /\
  (forall l delay,
     let l' := set_crawl_delay l domain delay in
     crawl_delay_value l (Num delay)
       = Num (current_delay (domain_state l' domain)) /\
     current_delay (domain_state l' domain) = Qmax delay (_min_delay l) /\
     _min_delay l' <= current_delay (domain_state l' domain) /\
     (delay <= _max_delay l -> _min_delay l <= _max_delay l ->
      within l' (current_delay (domain_state l' domain)))).
Proof.
  intros Hinit. split; [|split].
  - unfold __init__ in Hinit. destruct (Qeq_bool rps 0); [done|].
    by injection Hinit as <-.
  - intros l rt ok status now Hmin Hin l'. subst l'. unfold record.
    rewrite domain_state_set. unfold within. cbn [_min_delay _max_delay
      set_domain]. fold (within l (current_delay
        (if _adaptive l
         then _adjust_delay l (record_request (domain_state l domain) rt ok now)
                            status
         else record_request (domain_state l domain) rt ok now))).
    destruct (_adaptive l).
    + apply _adjust_delay_within; [done|]. by rewrite record_request_delay.
    + by rewrite record_request_delay.
  - intros l delay l'. subst l'.
    split; [apply (proj1 (crawl_delay_value_cases l domain))|].
    unfold set_crawl_delay.
    rewrite domain_state_set. cbn [set_current_delay current_delay
      set_domain _min_delay _max_delay]. split; [done|].
    split; [apply Q.le_max_r|]. intros Hd Hmm. split; [apply Q.le_max_r|].
    by apply Q.max_lub.
Qed.

(** The limiter of the engine's defaults:
    [requests_per_second=2.0, min_delay=0.5, max_delay=10.0]. *)
Definition default_limiter : AdaptiveRateLimiter :=
  {| _base_delay := 1 / 2; _min_delay := 1 # 2; _max_delay := 10;
     _adaptive := true; _jitter := 3 # 10; _domains := ∅ |}.

(** C4 fails as stated: with [requests_per_second = 2.0] a fresh domain
    paces at [1.0], not at [1/2.0]; and a robots crawl-delay of 20 s puts
    [current_delay] above [max_delay = 10]. *)
Lemma current_delay_not_as_claimed :
  __init__ 2 (1 # 2) 10 true (3 # 10) = Some default_limiter /\
  ~ current_delay (domain_state default_limiter "a.test") == 1 / 2 /\
  ~ within (set_crawl_delay default_limiter "a.test" 20)
      (current_delay
         (domain_state (set_crawl_delay default_limiter "a.test" 20)
                       "a.test")).
Proof.
  split; [reflexivity|]. split.
  - vm_compute. discriminate.
  - intros [_ Hhi]. vm_compute in Hhi. by apply Hhi.
Qed.

Lemma current_delay_start_and_bounds_witness :
  __init__ 2 (1 # 2) 10 true (3 # 10) = Some default_limiter /\
  current_delay (domain_state default_limiter "a.test") = 1 /\
  (0 <= _min_delay default_limiter ->
   within default_limiter
     (current_delay (domain_state default_limiter "a.test")) ->
   within (record default_limiter "a.test" (1 # 5) true 200 100)
     (current_delay
        (domain_state (record default_limiter "a.test" (1 # 5) true 200 100)
                      "a.test"))).
Proof.
  destruct (current_delay_start_and_bounds 2 (1 # 2) 10 true (3 # 10)
              default_limiter "a.test" eq_refl) as (Hstart & Hrec & _).
  split; [reflexivity|]. split; [exact Hstart|].
  intros Hmin Hin. exact (Hrec default_limiter (1 # 5) true 200%Z 100 Hmin Hin).
Defined.

(** Scenario S4: from [current_delay = 0.5] and [max_delay = 2.0] a 429
    gives [1.5], a second one [2.0]. *)
Definition s4_limiter : AdaptiveRateLimiter :=
  set_crawl_delay
    {| _base_delay := 1 / 2; _min_delay := 1 # 2; _max_delay := 2;
       _adaptive := true; _jitter := 3 # 10; _domains := ∅ |}
    "a.test" (1 # 2).

Lemma record_429_triples_witness :
  _adaptive s4_limiter = true /\
  current_delay (domain_state s4_limiter "a.test") == 1 # 2 /\
  current_delay (domain_state (record s4_limiter "a.test" 0 false 429 1)
                              "a.test") == 3 # 2 /\
  current_delay
    (domain_state (record (record s4_limiter "a.test" 0 false 429 1)
                          "a.test" 0 false 429 2) "a.test") == 2.
Proof.
  split; [reflexivity|]. split; [reflexivity|].
  pose proof (record_429_triples s4_limiter "a.test" 0 false 1 eq_refl) as H1.
  pose proof (record_429_triples (record s4_limiter "a.test" 0 false 429 1)
                "a.test" 0 false 2 eq_refl) as H2.
  split; [rewrite H1; reflexivity|]. rewrite H2, H1. reflexivity.
Defined.
End rate_limiter.
End RateLimiter.

(* ===================================================================== *)
(** ** utils/hash_utils.py: SimHash distance and similarity               *)
(* ===================================================================== *)

Module SimHash.

(** The [while xor:] loop of [hamming_distance] (Kernighan's count).  The
    Python loop has no bound: on a negative [xor] it never ends.  [fuel]
    bounds the rounds and [None] says that they did not suffice. *)
Fixpoint hamming_loop (fuel : nat) (xor distance : Z) : option Z :=
  if xor =? 0 then Some distance
  else match fuel with
       | O => None
       | S fuel' => hamming_loop fuel' (Z.land xor (xor - 1)) (distance + 1)
       end.

Definition hamming_distance (fuel : nat) (hash1 hash2 : Z) : option Z :=
  hamming_loop fuel (Z.lxor hash1 hash2) 0.

(** [similarity]; [hash_bits] is [self.hash_bits] (64 unless the
    constructor is told otherwise; [0] makes the division raise). *)
Definition similarity (hash_bits : Z) (fuel : nat) (hash1 hash2 : Z)
  : option Q :=
  match hamming_distance fuel hash1 hash2 with
  | Some distance =>
      if hash_bits =? 0 then None
      else Some (1 - inject_Z distance / inject_Z hash_bits)%Q
  | None => None
  end.

(** The specification's [popcount] on 64-bit values: the sum of the bits
    0 to 63. *)
Fixpoint bit_sum (x : Z) (n : nat) : Z :=
  match n with
  | O => 0
  | S n' => bit_sum x n' + Z.b2z (Z.testbit x (Z.of_nat n'))
  end.

Definition popcount (x : Z) : Z := bit_sum x 64.

(** The number of ones in the binary numeral. *)
Fixpoint pos_popcount (p : positive) : nat :=
  match p with
  | xH => 1
  | xO q => pos_popcount q
  | xI q => S (pos_popcount q)
  end.

Definition ones (x : Z) : nat :=
  match x with
  | Zpos p => pos_popcount p
  | _ => O
  end.

Lemma pos_popcount_pos p : (1 <= pos_popcount p)%nat.
Proof. induction p; cbn; lia. Qed.

Lemma ones_double y : 0 <= y -> ones (2 * y) = ones y.
Proof. by destruct y. Qed.

Lemma land_pred_double a :
  0 < a -> Z.land (2 * a) (2 * a - 1) = 2 * Z.land a (a - 1).
Proof.
  intros Ha. replace (2 * a - 1) with (2 * (a - 1) + 1) by lia.
  apply Z.bits_inj'. intros n Hn. rewrite Z.land_spec.
  destruct (Z.eq_dec n 0) as [->|Hne].
  - by rewrite !Z.testbit_even_0.
  - replace n with (Z.succ (n - 1)) by lia.
    rewrite !Z.testbit_even_succ, Z.testbit_odd_succ by lia.
    by rewrite Z.land_spec.
Qed.

Lemma land_succ_double a : Z.land (2 * a + 1) (2 * a) = 2 * a.
Proof.
  apply Z.bits_inj'. intros n Hn. rewrite Z.land_spec.
  destruct (Z.eq_dec n 0) as [->|Hne].
  - by rewrite Z.testbit_odd_0, Z.testbit_even_0.
  - replace n with (Z.succ (n - 1)) by lia.
    rewrite Z.testbit_even_succ, Z.testbit_odd_succ by lia.
    apply andb_diag.
Qed.

(** One round clears the lowest one. *)
Lemma kernighan_step p :
  ones (Z.land (Zpos p) (Zpos p - 1)) = pred (pos_popcount p).
Proof.
  induction p as [p IH|p IH|].
  - change (Zpos p~1 - 1) with (2 * Zpos p).
    change (Zpos p~1) with (2 * Zpos p + 1). by rewrite land_succ_double.
  - change (Zpos p~0) with (2 * Zpos p). rewrite land_pred_double by done.
    rewrite ones_double by (apply Z.land_nonneg; lia).
    by rewrite IH.
  - done.
Qed.

Lemma hamming_loop_ones fuel : forall x d,
  0 <= x -> (ones x <= fuel)%nat ->
  hamming_loop fuel x d = Some (d + Z.of_nat (ones x)).
Proof.
  induction fuel as [|fuel IH]; intros x d Hx Hfuel.
  - destruct x as [|p|p]; [cbn; f_equal; lia| |lia].
    pose proof (pos_popcount_pos p). cbn in Hfuel. lia.
  - destruct x as [|p|p]; [cbn; f_equal; lia| |lia].
    cbn [hamming_loop Z.eqb]. rewrite IH.
    + rewrite kernighan_step. pose proof (pos_popcount_pos p).
      f_equal. cbn [ones]. lia.
    + apply Z.land_nonneg. lia.
    + rewrite kernighan_step. cbn in Hfuel. lia.
Qed.

Lemma bit_sum_0 n : bit_sum 0 n = 0.
Proof. induction n as [|n IH]; cbn [bit_sum]; [done|]. by rewrite IH, Z.bits_0. Qed.

Lemma bit_sum_shift y (b : bool) n :
  bit_sum (2 * y + Z.b2z b) (S n) = Z.b2z b + bit_sum y n.
Proof.
  induction n as [|n IH].
  - cbn [bit_sum]. change (Z.of_nat 0) with 0. rewrite Z.testbit_0_r. lia.
  - change (bit_sum (2 * y + Z.b2z b) (S (S n)))
      with (bit_sum (2 * y + Z.b2z b) (S n) +
            Z.b2z (Z.testbit (2 * y + Z.b2z b) (Z.of_nat (S n)))).
    rewrite IH. cbn [bit_sum]. rewrite Nat2Z.inj_succ.
    rewrite Z.testbit_succ_r by lia. lia.
Qed.

Lemma bit_sum_ones p : forall n,
  Zpos p < 2 ^ Z.of_nat n -> bit_sum (Zpos p) n = Z.of_nat (pos_popcount p).
Proof.
  induction p as [p IH|p IH|]; intros [|n] Hlt;
    try (change (2 ^ Z.of_nat 0) with 1 in Hlt; lia);
    rewrite Nat2Z.inj_succ, Z.pow_succ_r in Hlt by lia.
  - change (Zpos p~1) with (2 * Zpos p + Z.b2z true).
    rewrite bit_sum_shift, IH by lia. cbn [pos_popcount Z.b2z]. lia.
  - change (Zpos p~0) with (2 * Zpos p + Z.b2z false).
    rewrite bit_sum_shift, IH by lia. cbn [pos_popcount Z.b2z]. lia.
  - change 1 with (2 * 0 + Z.b2z true) at 1.
    rewrite bit_sum_shift, bit_sum_0. done.
Qed.

Lemma popcount_ones x :
  0 <= x < 2 ^ 64 -> popcount x = Z.of_nat (ones x).
Proof.
  intros [H0 H64]. destruct x as [|p|p]; [apply bit_sum_0| |lia].
  by apply (bit_sum_ones p 64).
Qed.

Lemma bit_sum_bounds x n : 0 <= bit_sum x n <= Z.of_nat n.
Proof.
  induction n as [|n IH]; cbn [bit_sum]; [lia|].
  destruct (Z.testbit x (Z.of_nat n)); cbn [Z.b2z]; lia.
Qed.

Lemma popcount_bounds x : 0 <= popcount x <= 64.
Proof. exact (bit_sum_bounds x 64). Qed.

Lemma lxor_range h1 h2 :
  0 <= h1 < 2 ^ 64 -> 0 <= h2 < 2 ^ 64 -> 0 <= Z.lxor h1 h2 < 2 ^ 64.
Proof.
  intros [H1 H1'] [H2 H2']. split; [apply Z.lxor_nonneg; lia|].
  destruct (Z.eq_dec (Z.lxor h1 h2) 0) as [->|Hne]; [done|].
  apply Z.log2_lt_pow2; [pose proof (Z.lxor_nonneg h1 h2); lia|].
  eapply Z.le_lt_trans; [apply Z.log2_lxor; lia|].
  apply Z.max_lub_lt.
  - destruct (Z.eq_dec h1 0) as [->|?]; [done|]. apply Z.log2_lt_pow2; lia.
  - destruct (Z.eq_dec h2 0) as [->|?]; [done|]. apply Z.log2_lt_pow2; lia.
Qed.

(** The distance loop ends within 64 rounds on 64-bit values and counts
    the ones of the XOR. *)
Lemma hamming_distance_popcount fuel h1 h2 :
  (64 <= fuel)%nat -> 0 <= h1 < 2 ^ 64 -> 0 <= h2 < 2 ^ 64 ->
  hamming_distance fuel h1 h2 = Some (popcount (Z.lxor h1 h2)).
Proof.
  intros Hfuel H1 H2. pose proof (lxor_range h1 h2 H1 H2) as Hx.
  pose proof (popcount_ones _ Hx) as Hp.
  pose proof (popcount_bounds (Z.lxor h1 h2)) as Hb.
  unfold hamming_distance. rewrite hamming_loop_ones by lia.
  f_equal. lia.
Qed.

Lemma similarity_value fuel h1 h2 :
  (64 <= fuel)%nat -> 0 <= h1 < 2 ^ 64 -> 0 <= h2 < 2 ^ 64 ->
  similarity 64 fuel h1 h2 =
  Some (1 - inject_Z (popcount (Z.lxor h1 h2)) / inject_Z 64)%Q.
Proof.
  intros Hfuel H1 H2. unfold similarity.
  by rewrite hamming_distance_popcount.
Qed.

Lemma similarity_nonneg d : 0 <= d <= 64 -> (0 <= 1 - inject_Z d / inject_Z 64)%Q.
Proof.
  intros Hd. unfold Qle, Qminus, Qplus, Qopp, Qdiv, Qmult, Qinv, inject_Z.
  cbn. lia.
Qed.

(** C9: on 64-bit hash values the similarity is
    [1 - popcount(h1 XOR h2) / 64] (the distance loop ends, any bound of
    at least 64 rounds gives the result); a hash is at similarity [1] from
    itself; the similarity is symmetric and never negative. *)
Theorem similarity_properties fuel h h1 h2 :
  (64 <= fuel)%nat ->
  0 <= h < 2 ^ 64 -> 0 <= h1 < 2 ^ 64 -> 0 <= h2 < 2 ^ 64 ->
  similarity 64 fuel h1 h2 =
    Some (1 - inject_Z (popcount (Z.lxor h1 h2)) / inject_Z 64)%Q /\
  (exists s, similarity 64 fuel h h = Some s /\ (s == 1)%Q) /\
  similarity 64 fuel h1 h2 = similarity 64 fuel h2 h1 /\
  (exists s, similarity 64 fuel h1 h2 = Some s /\ (0 <= s)%Q).
Proof.
  intros Hfuel Hh H1 H2. split; [by apply similarity_value|].
  split; [|split].
  - eexists. split; [by apply similarity_value|].
    rewrite Z.lxor_nilpotent. unfold popcount. rewrite bit_sum_0. reflexivity.
  - by rewrite !similarity_value, Z.lxor_comm.
  - eexists. split; [by apply similarity_value|].
    apply similarity_nonneg, popcount_bounds.
Qed.

Lemma similarity_properties_witness :
  (64 <= 64)%nat /\ 0 <= 5 < 2 ^ 64 /\ 0 <= 12 < 2 ^ 64 /\ 0 <= 10 < 2 ^ 64 /\
  similarity 64 64 12 10 = Some (1 - 2 / 64)%Q /\
  similarity 64 64 12 10 = similarity 64 64 10 12.
Proof.
  assert (H5 : 0 <= 5 < 2 ^ 64) by lia.
  assert (H12 : 0 <= 12 < 2 ^ 64) by lia.
  assert (H10 : 0 <= 10 < 2 ^ 64) by lia.
  destruct (similarity_properties 64 5 12 10 (le_n 64) H5 H12 H10)
    as (Hval & _ & Hsym & _).
  split; [apply le_n|]. split; [exact H5|]. split; [exact H12|].
  split; [exact H10|]. split; [|exact Hsym].
  rewrite Hval. vm_compute. reflexivity.
Defined.
End SimHash.

(* ===================================================================== *)
(** ** urllib.parse (CPython 3.11), on ASCII text                         *)
(* ===================================================================== *)

(** The functions [URLNormalizer] calls, after [Lib/urllib/parse.py].
    Strings are sequences of ASCII characters; an escape [%80]..[%FF] is
    decoded to the byte itself, where Python decodes the run of such bytes
    as UTF-8. *)
Module Urllib.
Import PyStr.

Definition uses_params : list string :=
  [EmptyString; "ftp"; "hdl"; "prospero"; "http"; "imap"; "https"; "shttp"; "rtsp";
   "rtspu"; "sip"; "sips"; "mms"; "sftp"; "tel"].

Definition uses_netloc : list string :=
  [EmptyString; "ftp"; "http"; "gopher"; "nntp"; "telnet"; "imap"; "wais"; "file";
   "mms"; "https"; "shttp"; "snews"; "prospero"; "rtsp"; "rtspu"; "rsync";
   "svn"; "svn+ssh"; "sftp"; "nfs"; "git"; "git+ssh"; "ws"; "wss"].

(** [x in l] for a list of strings *)
Definition str_in (x : string) (l : list string) : bool :=
  existsb (String.eqb x) l.

Definition hexval (c : ascii) : option nat :=
  if isdigit c then Some (code c - 48)%nat
  else if between 65 70 c then Some (code c - 55)%nat
  else if between 97 102 c then Some (code c - 87)%nat
  else None.

(** [unquote]: every [%xx] with two hex digits becomes the character of
    that code; any other [%] stays. *)
Fixpoint unquote (s : string) : string :=
  match s with
  | EmptyString => EmptyString
  | String c r =>
      if Ascii.eqb c "%" then
        match r with
        | String a (String b r') =>
            match hexval a, hexval b with
            | Some x, Some y => String (ascii_of_nat (16 * x + y)) (unquote r')
            | _, _ => String c (unquote r)
            end
        | _ => String c (unquote r)
        end
      else String c (unquote r)
  end.

Definition hex_digit (n : nat) : ascii :=
  ascii_of_nat (if (n <? 10)%nat then 48 + n else 55 + n).

Definition always_safe (c : ascii) : bool :=
  isalpha c || isdigit c || contains c "_.-~".

(** [quote(s, safe)]: [%XX] for every character outside the always-safe
    set and [safe]. *)
Fixpoint quote (safe : string) (s : string) : string :=
  match s with
  | EmptyString => EmptyString
  | String c r =>
      if always_safe c || (contains c safe && (code c <? 128)%nat)
      then String c (quote safe r)
      else String "%" (String (hex_digit (code c / 16))
                         (String (hex_digit (code c mod 16)) (quote safe r)))
  end.

(** [quote_plus(s)] with [safe=''] *)
Definition quote_plus (s : string) : string :=
  if contains " " s then replace_char " " "+" (quote " " s)
  else quote EmptyString s.

(** [urlencode(parts)] for a list of pairs of strings *)
Definition urlencode (parts : list (string * string)) : string :=
  join "&" ((fun kv => quote_plus kv.1 +:+ "=" +:+ quote_plus kv.2) <$> parts).

(** [parse_qsl(qs, keep_blank_values)] *)
Definition parse_qsl (qs : string) (keep_blank_values : bool)
  : list (string * string) :=
  let query_args := if String.eqb qs EmptyString then [] else split "&" qs in
  flat_map (fun name_value =>
    if String.eqb name_value EmptyString then []
    else
      let '(name, value) := partition "=" name_value in
      match value with
      | None =>
          if keep_blank_values
          then [(unquote (replace_char "+" " " name), EmptyString)]
          else []
      | Some value =>
          if negb (String.eqb value EmptyString) || keep_blank_values
          then [(unquote (replace_char "+" " " name),
                 unquote (replace_char "+" " " value))]
          else []
      end) query_args.

(** [parsed_result[name].append(value)] or [parsed_result[name] = [value]]
    on a dict kept in insertion order. *)
Fixpoint dict_append (d : list (string * list string)) (name value : string)
  : list (string * list string) :=
  match d with
  | [] => [(name, [value])]
  | (k, vs) :: d' =>
      if String.eqb k name then (k, vs ++ [value]) :: d'
      else (k, vs) :: dict_append d' name value
  end.

(** [parse_qs(qs, keep_blank_values)]: the dict, as the list of its items
    in insertion order. *)
Definition parse_qs (qs : string) (keep_blank_values : bool)
  : list (string * list string) :=
  foldl (fun d nv => dict_append d nv.1 nv.2) []
        (parse_qsl qs keep_blank_values).

(** The six fields of [ParseResult]. *)
Record ParseResult := {
  scheme : string;
  netloc : string;
  path : string;
  params : string;
  query : string;
  fragment : string;
}.

Definition is_scheme_char (c : ascii) : bool :=
  isalpha c || isdigit c || contains c "+-.".

Fixpoint span_until (p : ascii -> bool) (s : string) : string * string :=
  match s with
  | EmptyString => (EmptyString, EmptyString)
  | String a s' =>
      if p a then (EmptyString, s)
      else let '(h, t) := span_until p s' in (String a h, t)
  end.

Fixpoint remove_chars (p : ascii -> bool) (s : string) : string :=
  match s with
  | EmptyString => EmptyString
  | String a s' => if p a then remove_chars p s' else String a (remove_chars p s')
  end.

Section urlsplit.
(** [_check_bracketed_host]: the text between the brackets matches the
    IPvFuture pattern or is what [ipaddress.ip_address] takes as an IPv6
    address. *)
Variable check_bracketed_host : string -> bool.

(** [_check_bracketed_netloc]; [false] is its [ValueError]. *)
Definition _check_bracketed_netloc (netloc : string) : bool :=
  let hostname_and_port := (rpartition "@" netloc).2 in
  match partition "[" hostname_and_port with
  | (before_bracket, Some bracketed) =>
      if negb (String.eqb before_bracket EmptyString) then false
      else
        let '(hostname, port) := partition "]" bracketed in
        let port := default EmptyString port in
        if negb (String.eqb port EmptyString) && negb (startswith port ":") then false
        else check_bracketed_host hostname
  | (_, None) =>
      check_bracketed_host (partition ":" hostname_and_port).1
  end.

(** The scheme test of [urlsplit]: a first colon, not in front, after
    a letter and scheme characters only. *)
Definition split_scheme (url : string) : string * string :=
  match partition ":" url with
  | (String c0 head, Some rest) =>
      if isalpha c0 && all_chars is_scheme_char (String c0 head)
      then (lower (String c0 head), rest) else (EmptyString, url)
  | _ => (EmptyString, url)
  end.

(** [_splitnetloc(url, 2)] *)
Definition _splitnetloc (url : string) : string * string :=
  span_until (fun c => contains c "/?#")
             match url with
             | String _ (String _ r) => r
             | _ => EmptyString
             end.

(** The [if url[:2] == '//'] block of [urlsplit]: netloc, rest, and
    [false] where the block raises [ValueError]. *)
Definition split_netloc (url : string) : string * string * bool :=
  if startswith url "//" then
    let '(netloc, rest) := _splitnetloc url in
    let lb := contains "[" netloc in
    let rb := contains "]" netloc in
    if (lb && negb rb) || (rb && negb lb) then (netloc, rest, false)
    else if lb && rb then (netloc, rest, _check_bracketed_netloc netloc)
    else (netloc, rest, true)
  else (EmptyString, url, true).

(** [url.split(c, 1)] when [c in url] *)
Definition split_once (c : ascii) (url : string) : string * string :=
  match partition c url with
  | (u, Some rest) => (u, rest)
  | (u, None) => (u, EmptyString)
  end.

(** [urlsplit(url)] with the default [scheme=''] and
    [allow_fragments=True]: scheme, netloc, path, query, fragment.  [None]
    is a [ValueError]. *)
Definition urlsplit (url : string)
  : option (string * string * string * string * string) :=
  let url := lstrip_by (fun c => (code c <=? 32)%nat) url in
  let url := remove_chars (fun c => Ascii.eqb c "009" || Ascii.eqb c "013"
                                    || Ascii.eqb c "010") url in
  let '(scheme, url) := split_scheme url in
  let '(netloc, url, ok) := split_netloc url in
  let '(url, fragment) := split_once "#" url in
  let '(url, query) := split_once "?" url in
  if ok then Some (scheme, netloc, url, query, fragment) else None.

(** [_splitparams] *)
Definition _splitparams (url : string) : string * string :=
  if contains "/" url then
    match rpartition "/" url with
    | (Some dir, last) =>
        match partition ";" last with
        | (seg, Some params) => (dir +:+ "/" +:+ seg, params)
        | (_, None) => (url, EmptyString)
        end
    | (None, _) => (url, EmptyString)
    end
  else
    match partition ";" url with
    | (head, Some params) => (head, params)
    | (head, None) => (head, EmptyString)
    end.

(** [urlparse(url)] *)
Definition urlparse (url : string) : option ParseResult :=
  match urlsplit url with
  | None => None
  | Some (scheme, netloc, url, query, fragment) =>
      let '(url, params) :=
        if str_in scheme uses_params && contains ";" url
        then _splitparams url else (url, EmptyString) in
      Some {| scheme := scheme; netloc := netloc; path := url;
              params := params; query := query; fragment := fragment |}
  end.
End urlsplit.

(** The property [_userinfo]: username and password, each [None] when
    absent. *)
Definition _userinfo (r : ParseResult) : option string * option string :=
  match rpartition "@" (netloc r) with
  | (Some userinfo, _) =>
      let '(username, password) := partition ":" userinfo in
      (Some username, password)
  | (None, _) => (None, None)
  end.

(** The property [_hostinfo]: host name and port text ([None] when
    empty). *)
Definition _hostinfo (r : ParseResult) : string * option string :=
  let hostinfo := (rpartition "@" (netloc r)).2 in
  let '(hostname, port) :=
    match partition "[" hostinfo with
    | (_, Some bracketed) =>
        let '(hostname, port) := partition "]" bracketed in
        (hostname, default EmptyString
                     (partition ":" (default EmptyString port)).2)
    | (_, None) =>
        let '(hostname, port) := partition ":" hostinfo in
        (hostname, default EmptyString port)
    end in
  (hostname, if String.eqb port EmptyString then None else Some port).

Definition username (r : ParseResult) : option string := (_userinfo r).1.
Definition password (r : ParseResult) : option string := (_userinfo r).2.

(** The property [hostname] *)
Definition hostname (r : ParseResult) : option string :=
  let hostname := (_hostinfo r).1 in
  if String.eqb hostname EmptyString then None
  else
    let '(hostname, zone) := partition "%" hostname in
    Some (lower hostname +:+
          match zone with
          | Some z => "%" +:+ z
          | None => EmptyString
          end).

(** The property [port]: [None] is its [ValueError], [Some None] no
    port. *)
Definition port (r : ParseResult) : option (option Z) :=
  match (_hostinfo r).2 with
  | None => Some None
  | Some port =>
      if all_chars isdigit port then
        let n := int_of_digits port 0 in
        if (0 <=? n) && (n <=? 65535) then Some (Some n) else None
      else None
  end.

(** [urlunsplit] *)
Definition urlunsplit (scheme netloc url query fragment : string) : string :=
  let url :=
    if negb (String.eqb netloc EmptyString) ||
       (negb (String.eqb scheme EmptyString) && str_in scheme uses_netloc &&
        negb (startswith url "//"))
    then
      let url := if negb (String.eqb url EmptyString) && negb (startswith url "/")
                 then "/" +:+ url else url in
      "//" +:+ netloc +:+ url
    else url in
  let url := if String.eqb scheme EmptyString then url else scheme +:+ ":" +:+ url in
  let url := if String.eqb query EmptyString then url else url +:+ "?" +:+ query in
  if String.eqb fragment EmptyString then url else url +:+ "#" +:+ fragment.

(** [urlunparse] *)
Definition urlunparse (scheme netloc url params query fragment : string)
  : string :=
  let url := if String.eqb params EmptyString then url else url +:+ ";" +:+ params in
  urlunsplit scheme netloc url query fragment.
(** *** Values of the library functions, as CPython 3.11 gives them *)
Example unquote_mixed : unquote "a%20b%2Fc%zz%4" = "a b/c%zz%4".
Proof. vm_compute. reflexivity. Qed.

Example parse_qs_blank :
  parse_qs "b=2&a=1&&a=0&c&d=&e=x+y%26z" true =
  [("b", ["2"]); ("a", ["1"; "0"]); ("c", [EmptyString]);
   ("d", [EmptyString]); ("e", ["x y&z"])].
Proof. vm_compute. reflexivity. Qed.

Example quote_path :
  quote "/:@!$&'()*+,;=-._~" "/a b/%/[x]:@!$&'()*+,;=-._~" =
  "/a%20b/%25/%5Bx%5D:@!$&'()*+,;=-._~".
Proof. vm_compute. reflexivity. Qed.

Example urlencode_pairs :
  urlencode [("q", "&"); ("a b", "c+d/~")] = "q=%26&a+b=c%2Bd%2F~".
Proof. vm_compute. reflexivity. Qed.

Example urlparse_full check :
  let r := urlparse check "Http://u:p@Host.Test:8080/a;x=1/b;y=2?b=2#f?g" in
  r = Some {| scheme := "http"; netloc := "u:p@Host.Test:8080";
              path := "/a;x=1/b"; params := "y=2"; query := "b=2";
              fragment := "f?g" |} /\
  hostname <$> r = Some (Some "host.test") /\
  port <$> r = Some (Some (Some 8080)) /\
  username <$> r = Some (Some "u") /\ password <$> r = Some (Some "p").
Proof. vm_compute. repeat split; reflexivity. Qed.

Example urlparse_no_scheme check :
  urlparse check "a.test/x:y?q" =
  Some {| scheme := EmptyString; netloc := EmptyString; path := "a.test/x:y";
          params := EmptyString; query := "q"; fragment := EmptyString |}.
Proof. vm_compute. reflexivity. Qed.

Example urlparse_open_bracket check : urlparse check "http://[::1/x" = None.
Proof. vm_compute. reflexivity. Qed.

Example port_out_of_range check :
  port <$> urlparse check "http://a.test:99999/" = Some None.
Proof. vm_compute. reflexivity. Qed.

Example urlunparse_empty_netloc :
  urlunparse "http" EmptyString "/x" EmptyString EmptyString EmptyString
  = "http:///x".
Proof. vm_compute. reflexivity. Qed.
End Urllib.

(* ===================================================================== *)
(** ** core/url_normalizer.py                                             *)
(* ===================================================================== *)

Module Normalizer.
Import PyStr Urllib.

Definition TRACKING_PARAMS : list string :=
  ["utm_source"; "utm_medium"; "utm_campaign"; "utm_term";
   "utm_content"; "utm_id"; "fbclid"; "gclid"; "gclsrc";
   "dclid"; "msclkid"; "twclid"; "ref"; "ref_src";
   "source"; "mc_cid"; "mc_eid"; "si"; "spm";
   "_ga"; "_gl"; "_hsenc"; "_hsmi"; "hsa_cam";
   "hsa_grp"; "hsa_mt"; "hsa_src"; "hsa_ad"; "hsa_acc";
   "hsa_net"; "hsa_ver"; "hsa_kw"; "hsa_tgt"; "hsa_la";
   "hsa_ol"].

Definition ALLOWED_SCHEMES : list string := ["http"; "https"].

(** The three flags of [URLNormalizer.__init__]. *)
Record URLNormalizer := {
  remove_tracking : bool;
  remove_fragments : bool;
  sort_params : bool;
}.

(** [URLNormalizer()] *)
Definition default_normalizer : URLNormalizer :=
  {| remove_tracking := true; remove_fragments := true; sort_params := true |}.

(** [re.sub(r"/+", "/", path)] *)
Fixpoint collapse_slashes (s : string) : string :=
  match s with
  | EmptyString => EmptyString
  | String c r =>
      if Ascii.eqb c "/" && startswith r "/" then collapse_slashes r
      else String c (collapse_slashes r)
  end.

(** The loop over the segments; [resolved] is kept last item first. *)
Definition resolve_segment (resolved : list string) (seg : string)
  : list string :=
  if String.eqb seg "." then resolved
  else if String.eqb seg ".." then
    match resolved with
    | last :: rest => if String.eqb last EmptyString then seg :: resolved else rest
    | [] => seg :: resolved
    end
  else seg :: resolved.

(** [_normalize_path] *)
Definition _normalize_path (path : string) : string :=
  let path := collapse_slashes path in
  let segments := split "/" path in
  let resolved := reverse (foldl resolve_segment [] segments) in
  let path := join "/" resolved in
  let path := if startswith path "/" then path else "/" +:+ path in
  let path :=
    if negb (String.eqb path "/") && endswith_char "/" path
    then rstrip_by (Ascii.eqb "/") path else path in
  quote "/:@!$&'()*+,;=-._~" path.

(** [_normalize_query] *)
Definition _normalize_query (self : URLNormalizer) (query : string)
  : string :=
  if String.eqb query EmptyString then EmptyString
  else
    let params := parse_qs query true in
    let params :=
      if remove_tracking self
      then filter (fun kv => negb (str_in (lower kv.1) TRACKING_PARAMS)) params
      else params in
    match params with
    | [] => EmptyString
    | _ =>
        let sorted_params :=
          if sort_params self then sorted fst params else params in
        let parts :=
          flat_map (fun kv => (fun v => (kv.1, v)) <$> sorted id kv.2)
                   sorted_params in
        urlencode parts
    end.

Section normalize.
(** [urllib.parse.urljoin], which only the [base_url] branch calls, and
    the address check behind bracketed hosts. *)
Variable urljoin : string -> string -> string.
Variable check_bracketed_host : string -> bool.

(** The first statements of [normalize]: the URL is made absolute when a
    base is given ([if base_url and not url.startswith(...)]), unquoted,
    and parsed. *)
Definition unquoted_url (url : string) (base_url : option string) : string :=
  unquote
    match base_url with
    | Some base =>
        if negb (String.eqb base EmptyString) &&
           negb (startswith url "http://" || startswith url "https://")
        then urljoin base url else url
    | None => url
    end.

Definition parsed_url (url : string) (base_url : option string)
  : option ParseResult :=
  urlparse check_bracketed_host (unquoted_url url base_url).

Definition skip_patterns : list string :=
  ["javascript:"; "mailto:"; "tel:"; "data:"; "ftp:"; "file:"; "blob:"].

(** [normalize]; [None] is Python's [None], returned for the URLs that
    are not crawled and from the [except Exception] branch. *)
Definition normalize (self : URLNormalizer) (url : string)
    (base_url : option string) : option string :=
  match parsed_url url base_url with
  | None => None                                  (* urlparse raised *)
  | Some parsed =>
      if negb (str_in (lower (scheme parsed)) ALLOWED_SCHEMES) then None
      else if existsb (startswith (lower (unquoted_url url base_url)))
                      skip_patterns then None
      else
        let scheme := lower (scheme parsed) in
        match hostname parsed with
        | None => None
        | Some hostname =>
            let hostname := strip_by (Ascii.eqb ".") (lower hostname) in
            match port parsed with
            | None => None                        (* parsed.port raised *)
            | Some port =>
                let port :=
                  if (String.eqb scheme "http" && bool_decide (port = Some 80))
                     || (String.eqb scheme "https" &&
                         bool_decide (port = Some 443))
                  then None else port in
                let netloc :=
                  match port with
                  | Some p => if p =? 0 then hostname
                              else hostname +:+ ":" +:+ str_of_int p
                  | None => hostname
                  end in
                let netloc :=
                  match username parsed with
                  | Some user =>
                      if String.eqb user EmptyString then netloc
                      else
                        let user_info :=
                          match password parsed with
                          | Some pw => if String.eqb pw EmptyString then user
                                       else user +:+ ":" +:+ pw
                          | None => user
                          end in
                        user_info +:+ "@" +:+ netloc
                  | None => netloc
                  end in
                let path :=
                  _normalize_path (if String.eqb (path parsed) EmptyString then "/"
                                   else path parsed) in
                let query := _normalize_query self (query parsed) in
                let fragment :=
                  if remove_fragments self then EmptyString
                  else fragment parsed in
                Some (urlunparse scheme netloc path (params parsed) query
                                 fragment)
            end
        end
  end.
End normalize.

(** Runs are shown without a base URL; the two library parameters are not
    reached on URLs without brackets. *)
Definition normalize_url (url : string) : option string :=
  normalize (fun _ u => u) (fun _ => true) default_normalizer url None.

(** Scenario S1 of the specification. *)
Example canonicalization_s1 :
  normalize_url "HTTPS://Example.com:443/a/./b/../c?utm_source=x&q=1#frag"
  = Some "https://example.com/a/c?q=1".
Proof. vm_compute. reflexivity. Qed.

Example canonicalization_userinfo :
  normalize_url "http://u:p@Host.:8080//a;x=1/b/;y=2?b=2&a=1&a=0&c=x+y#f"
  = Some "http://u:p@host:8080/a;x=1/b;y=2?a=0&a=1&b=2&c=x+y".
Proof. vm_compute. reflexivity. Qed.

Lemma str_in_spec x l : str_in x l = true <-> x ∈ l.
Proof.
  unfold str_in. rewrite existsb_exists. split.
  - intros (y & Hy & ->%String.eqb_eq). by apply list_elem_of_In.
  - intros Hx. exists x. split; [by apply list_elem_of_In|apply String.eqb_refl].
Qed.

Lemma filter_none {A} (f : A -> bool) (l : list A) :
  (forall x, x ∈ l -> f x = false) -> filter f l = [].
Proof.
  induction l as [|a l IH]; intros Hall; [done|].
  rewrite filter_cons. destruct (decide (f a)) as [Hfa|_].
  - rewrite (Hall a) in Hfa by by left. done.
  - apply IH. intros x Hx. apply Hall. by right.
Qed.

Lemma _normalize_query_tracking_only self qs :
  remove_tracking self = true ->
  (forall k vs, (k, vs) ∈ parse_qs qs true -> lower k ∈ TRACKING_PARAMS) ->
  _normalize_query self qs = EmptyString.
Proof.
  intros Hflag Hall. unfold _normalize_query.
  destruct (String.eqb qs EmptyString); [done|]. rewrite Hflag.
  rewrite filter_none; [done|].
  intros [k vs] Hin. apply negb_false_iff, str_in_spec. by eapply Hall.
Qed.

(** *** No question mark is left in a URL normalized without a query *)
Lemma contains_app c a b : contains c (a +:+ b) = contains c a || contains c b.
Proof.
  induction a as [|x a IH]; [done|].
  change (String x a +:+ b) with (String x (a +:+ b)).
  cbn [contains]. by rewrite IH, orb_assoc.
Qed.

Lemma contains_rev_app c s acc :
  contains c (rev_app s acc) = contains c s || contains c acc.
Proof.
  revert acc. induction s as [|x s IH]; intros acc; cbn; [done|].
  rewrite IH. cbn. destruct (Ascii.eqb x c), (contains c s), (contains c acc); done.
Qed.

Lemma contains_rev c s : contains c (rev s) = contains c s.
Proof. unfold rev. rewrite contains_rev_app. cbn. apply orb_false_r. Qed.

Lemma partition_contains c d s :
  contains c s = false ->
  contains c (partition d s).1 = false /\
  forall t, (partition d s).2 = Some t -> contains c t = false.
Proof.
  induction s as [|x s IH]; cbn; [done|].
  intros [Hx Hs]%orb_false_elim. destruct (Ascii.eqb x d).
  - cbn. split; [done|]. by intros t [= <-].
  - destruct (IH Hs) as [Hh Ht]. destruct (partition d s) as [h t]. cbn in *.
    rewrite Hx, Hh. done.
Qed.

Lemma partition_head c s : contains c (partition c s).1 = false.
Proof.
  induction s as [|x s IH]; cbn; [done|].
  destruct (Ascii.eqb x c) eqn:Hx; [done|].
  destruct (partition c s) as [h t]. cbn in *. by rewrite Hx, IH.
Qed.

Lemma rpartition_contains c d s :
  contains c s = false ->
  contains c (rpartition d s).2 = false /\
  forall h, (rpartition d s).1 = Some h -> contains c h = false.
Proof.
  intros Hs. unfold rpartition.
  destruct (partition_contains c d (rev s)) as [Hh Ht];
    [by rewrite contains_rev|].
  destruct (partition d (rev s)) as [t [h|]]; cbn in *.
  - rewrite contains_rev. split; [done|]. intros ? [= <-].
    rewrite contains_rev. by apply Ht.
  - split; [done|]. by intros ? [=].
Qed.

Lemma lower_char_q x : Ascii.eqb (lower_char x) "?" = Ascii.eqb x "?".
Proof.
  unfold lower_char, isupper, between, code.
  destruct (_ && _) eqn:Hup; [|done].
  apply andb_true_iff in Hup as [H1%Nat.leb_le H2%Nat.leb_le].
  transitivity false; [|symmetry]; apply Ascii.eqb_neq; intros Heq.
  - apply (f_equal nat_of_ascii) in Heq.
    rewrite nat_ascii_embedding in Heq by lia.
    change (nat_of_ascii "?") with 63%nat in Heq. lia.
  - subst x. change (nat_of_ascii "?") with 63%nat in H1. lia.
Qed.

Lemma lower_contains_q s : contains "?" (lower s) = contains "?" s.
Proof. induction s as [|x s IH]; cbn; [done|]. by rewrite lower_char_q, IH. Qed.

Lemma lstrip_by_contains c p s :
  contains c s = false -> contains c (lstrip_by p s) = false.
Proof.
  induction s as [|x s IH]; cbn; [done|].
  intros Hs. destruct (p x); [|done].
  apply orb_false_elim in Hs as [_ Hs]. by apply IH.
Qed.

Lemma strip_by_contains c p s :
  contains c s = false -> contains c (strip_by p s) = false.
Proof.
  intros Hs. unfold strip_by, rstrip_by.
  rewrite contains_rev. apply lstrip_by_contains. rewrite contains_rev.
  by apply lstrip_by_contains.
Qed.

Lemma span_until_head (p : ascii -> bool) c s :
  p c = true -> contains c (span_until p s).1 = false.
Proof.
  intros Hp. induction s as [|x s IH]; cbn; [done|].
  destruct (p x) eqn:Hx; [done|].
  destruct (span_until p s) as [h t]. cbn in *. rewrite IH.
  destruct (Ascii.eqb x c) eqn:Hxc; [|done].
  apply Ascii.eqb_eq in Hxc. congruence.
Qed.

Lemma hex_digit_q n : (n < 16)%nat -> Ascii.eqb (Urllib.hex_digit n) "?" = false.
Proof.
  intros Hn. do 16 (destruct n as [|n]; [done|]). lia.
Qed.

Lemma quote_contains_q safe s :
  contains "?" safe = false -> contains "?" (quote safe s) = false.
Proof.
  intros Hsafe. induction s as [|x s IH]; cbn [quote]; [done|].
  destruct (always_safe x || _) eqn:Hx.
  - cbn [contains]. rewrite IH, orb_false_r.
    destruct (Ascii.eqb x "?") eqn:Hq; [|done].
    apply Ascii.eqb_eq in Hq. subst x. rewrite Hsafe in Hx. done.
  - cbn [contains]. rewrite IH, !hex_digit_q; [done|..].
    + apply Nat.mod_upper_bound. lia.
    + apply Nat.Div0.div_lt_upper_bound. pose proof (nat_ascii_bounded x).
      unfold code. lia.
Qed.

Lemma digits_of_contains_q fuel : forall n acc,
  0 <= n -> contains "?" acc = false ->
  contains "?" (digits_of fuel n acc) = false.
Proof.
  induction fuel as [|fuel IH]; intros n acc Hn Hacc; cbn [digits_of]; [done|].
  assert (Hd : contains "?" (String (ascii_of_nat (48 + Z.to_nat (n mod 10))) acc) = false).
  { cbn [contains]. rewrite Hacc, orb_false_r.
    apply Ascii.eqb_neq. intros Heq.
    apply (f_equal nat_of_ascii) in Heq.
    rewrite nat_ascii_embedding in Heq by lia.
    change (nat_of_ascii "?") with 63%nat in Heq. lia. }
  destruct (n / 10 =? 0); [done|]. apply IH; [lia|done].
Qed.

Lemma str_of_int_contains_q n : 0 <= n -> contains "?" (str_of_int n) = false.
Proof. intros Hn. by apply digits_of_contains_q. Qed.

Lemma _splitparams_no_q url :
  contains "?" url = false ->
  contains "?" (_splitparams url).1 = false /\
  contains "?" (_splitparams url).2 = false.
Proof.
  intros Hurl. unfold _splitparams. destruct (contains "/" url).
  - destruct (rpartition_contains "?" "/" url Hurl) as [Hlast Hdir].
    destruct (rpartition "/" url) as [[dir|] last]; cbn in *; [|done].
    destruct (partition_contains "?" ";" last Hlast) as [Hseg Hpar].
    destruct (partition ";" last) as [seg [par|]]; cbn in *; [|done].
    rewrite !contains_app, (Hdir dir eq_refl), Hseg, (Hpar par eq_refl). done.
  - destruct (partition_contains "?" ";" url Hurl) as [Hseg Hpar].
    destruct (partition ";" url) as [seg [par|]]; cbn in *; [|done].
    by rewrite Hseg, (Hpar par eq_refl).
Qed.

Lemma split_netloc_no_q check url :
  contains "?" (split_netloc check url).1.1 = false.
Proof.
  unfold split_netloc, _splitnetloc. destruct (startswith url "//"); [|done].
  pose proof (span_until_head (fun c => contains c "/?#") "?"
    match url with String _ (String _ r) => r | _ => EmptyString end eq_refl)
    as Hnl.
  destruct (span_until _ _) as [nl rest]. cbn in Hnl.
  by repeat case_match.
Qed.

Lemma split_once_head c url : contains c (split_once c url).1 = false.
Proof.
  unfold split_once. pose proof (partition_head c url) as H.
  by destruct (partition c url) as [u [r|]].
Qed.

Lemma urlparse_no_q check url p :
  urlparse check url = Some p ->
  contains "?" (netloc p) = false /\ contains "?" (path p) = false /\
  contains "?" (params p) = false.
Proof.
  unfold urlparse, urlsplit.
  set (u0 := remove_chars _ _).
  destruct (split_scheme u0) as [sch u1].
  pose proof (split_netloc_no_q check u1) as Hnl.
  destruct (split_netloc check u1) as [[nl u2] ok]. cbn in Hnl.
  destruct (split_once "#" u2) as [u3 frag].
  pose proof (split_once_head "?" u3) as Hpath.
  destruct (split_once "?" u3) as [u4 q]. cbn in Hpath.
  destruct ok; [|done].
  pose proof (_splitparams_no_q u4 Hpath) as [Hp1 Hp2].
  destruct (_ && _); [destruct (_splitparams u4) as [u5 par]|];
    intros [= <-]; cbn in *; done.
Qed.

Lemma _hostinfo_no_q p :
  contains "?" (netloc p) = false -> contains "?" (_hostinfo p).1 = false.
Proof.
  intros Hnl. unfold _hostinfo.
  destruct (rpartition_contains "?" "@" (netloc p) Hnl) as [Hhi _].
  set (hi := (rpartition "@" (netloc p)).2) in *. clearbody hi.
  destruct (partition_contains "?" "[" hi Hhi) as [_ Hbr].
  destruct (partition "[" hi) as [pre [br|]]; cbn in Hbr.
  - destruct (partition_contains "?" "]" br (Hbr br eq_refl)) as [Hh _].
    by destruct (partition "]" br) as [hn po].
  - destruct (partition_contains "?" ":" hi Hhi) as [Hh _].
    by destruct (partition ":" hi) as [hn po].
Qed.

Lemma hostname_no_q p h :
  contains "?" (netloc p) = false -> hostname p = Some h ->
  contains "?" h = false.
Proof.
  intros Hnl. unfold hostname.
  pose proof (_hostinfo_no_q p Hnl) as Hhost.
  set (hn := (_hostinfo p).1) in *. clearbody hn.
  destruct (String.eqb hn EmptyString); [done|].
  destruct (partition_contains "?" "%" hn Hhost) as [Hh Hz].
  destruct (partition "%" hn) as [h0 [z|]]; cbn in *; intros [= <-].
  - rewrite !contains_app, lower_contains_q, Hh, (Hz z eq_refl). done.
  - rewrite contains_app, lower_contains_q, Hh. done.
Qed.

Lemma userinfo_no_q p :
  contains "?" (netloc p) = false ->
  (forall u, username p = Some u -> contains "?" u = false) /\
  (forall w, password p = Some w -> contains "?" w = false).
Proof.
  intros Hnl. unfold username, password, _userinfo.
  destruct (rpartition_contains "?" "@" (netloc p) Hnl) as [_ Hui].
  destruct (rpartition "@" (netloc p)) as [[ui|] hi]; cbn in *; [|done].
  destruct (partition_contains "?" ":" ui (Hui ui eq_refl)) as [Hu Hw].
  destruct (partition ":" ui) as [u w]; cbn in *.
  split; [by intros ? [= <-]|]. intros ? ->. by apply Hw.
Qed.

Lemma port_nonneg p n : port p = Some (Some n) -> 0 <= n.
Proof.
  unfold port. destruct (_hostinfo p).2; [|done].
  destruct (all_chars isdigit s); [|done].
  destruct (_ && _) eqn:Hr; [|done]. intros [= <-]. lia.
Qed.

Lemma urlunparse_no_q sch nl pa pr :
  contains "?" sch = false -> contains "?" nl = false ->
  contains "?" pa = false -> contains "?" pr = false ->
  contains "?" (urlunparse sch nl pa pr EmptyString EmptyString) = false.
Proof.
  intros Hs Hn Hp Hr. unfold urlunparse, urlunsplit. cbn [String.eqb].
  repeat case_match; rewrite ?contains_app, ?Hs, ?Hn, ?Hp, ?Hr; done.
Qed.

Lemma allowed_scheme_no_q x :
  str_in x ALLOWED_SCHEMES = true -> contains "?" x = false.
Proof.
  intros Hx%str_in_spec. unfold ALLOWED_SCHEMES in Hx.
  repeat (apply elem_of_cons in Hx as [->|Hx]; [done|]).
  by apply elem_of_nil in Hx.
Qed.

Lemma _normalize_path_no_q path : contains "?" (_normalize_path path) = false.
Proof. unfold _normalize_path. by apply quote_contains_q. Qed.

Lemma normalize_no_q urljoin check self url base parsed n :
  remove_fragments self = true ->
  parsed_url urljoin check url base = Some parsed ->
  _normalize_query self (query parsed) = EmptyString ->
  normalize urljoin check self url base = Some n ->
  contains "?" n = false.
Proof.
  intros Hfrag Hparsed Hq. unfold normalize. rewrite Hparsed, Hq, Hfrag.
  destruct (urlparse_no_q _ _ _ Hparsed) as (Hnl & _ & Hpar).
  destruct (userinfo_no_q parsed Hnl) as [Huser Hpw].
  destruct (negb (str_in _ _)) eqn:Hsch; [done|].
  apply negb_false_iff, allowed_scheme_no_q in Hsch.
  destruct (existsb _ _); [done|].
  destruct (hostname parsed) as [h|] eqn:Hh; [|done].
  apply (hostname_no_q _ _ Hnl) in Hh.
  assert (Hhost : contains "?" (strip_by (Ascii.eqb ".") (lower h)) = false).
  { apply strip_by_contains. by rewrite lower_contains_q. }
  destruct (port parsed) as [po|] eqn:Hport; [|done].
  assert (Hpo : forall m, po = Some m -> contains "?" (str_of_int m) = false).
  { intros m ->. apply str_of_int_contains_q. by eapply port_nonneg. }
  intros [= <-]. apply urlunparse_no_q; try done.
  - destruct (username parsed) as [u|];
      [specialize (Huser u eq_refl)|clear Huser];
      (destruct (password parsed) as [w|];
       [specialize (Hpw w eq_refl)|clear Hpw]);
      repeat case_match; simplify_eq;
      rewrite ?contains_app, ?Huser, ?Hpw, ?Hhost, ?(Hpo _ eq_refl); done.
  - apply _normalize_path_no_q.
Qed.

(** The tracking filter on the query that [normalize] parses, which is
    the query of the URL after [unquote]: when all its keys are, in
    lowercase, in [TRACKING_PARAMS] it is normalized to the empty string,
    the normalized URL is put together with an empty query, and with the
    fragment removed (the default) it holds no question mark at all. *)
Theorem tracking_only_query_is_dropped urljoin check self :
  remove_tracking self = true ->
  (forall qs,
     (forall k vs, (k, vs) ∈ parse_qs qs true -> lower k ∈ TRACKING_PARAMS) ->
     _normalize_query self qs = EmptyString) /\
  (forall url base parsed n,
     parsed_url urljoin check url base = Some parsed ->
     (forall k vs, (k, vs) ∈ parse_qs (query parsed) true ->
                   lower k ∈ TRACKING_PARAMS) ->
     normalize urljoin check self url base = Some n ->
     (exists scheme netloc path,
        n = urlunparse scheme netloc path (params parsed) EmptyString
              (if remove_fragments self then EmptyString
               else fragment parsed)) /\
     (remove_fragments self = true -> contains "?" n = false)).
Proof.
  intros Hflag. split; [intros qs; by apply _normalize_query_tracking_only|].
  intros url base parsed n Hparsed Hall Hn.
  pose proof (_normalize_query_tracking_only self (query parsed) Hflag Hall)
    as Hq.
  split; [|intros Hfrag; by eapply normalize_no_q].
  revert Hn. unfold normalize. rewrite Hparsed, Hq.
  repeat case_match; try done; intros [= <-]; eauto.
Qed.

Lemma tracking_only_query_is_dropped_witness :
  let u := "http://a.test/p?utm_source=x&FBCLID=y&ref" in
  let parsed := {| scheme := "http"; netloc := "a.test"; path := "/p";
                   params := EmptyString; query := "utm_source=x&FBCLID=y&ref";
                   fragment := EmptyString |} in
  remove_tracking default_normalizer = true /\
  parsed_url (fun _ u => u) (fun _ => true) u None = Some parsed /\
  (forall k vs, (k, vs) ∈ parse_qs (query parsed) true ->
                lower k ∈ TRACKING_PARAMS) /\
  _normalize_query default_normalizer (query parsed) = EmptyString /\
  normalize_url u = Some "http://a.test/p" /\
  contains "?" "http://a.test/p" = false.
Proof.
  intros u parsed.
  assert (Hall : forall k vs, (k, vs) ∈ parse_qs (query parsed) true ->
                              lower k ∈ TRACKING_PARAMS).
  { intros k vs Hin.
    assert (parse_qs (query parsed) true =
            [("utm_source", ["x"]); ("FBCLID", ["y"]); ("ref", [EmptyString])]) as Heq
      by (vm_compute; reflexivity).
    rewrite Heq in Hin. apply str_in_spec.
    repeat (apply elem_of_cons in Hin as [[= -> ->]|Hin];
            [vm_compute; reflexivity|]).
    by apply elem_of_nil in Hin. }
  destruct (tracking_only_query_is_dropped (fun _ u => u) (fun _ => true)
              default_normalizer eq_refl) as [Hq Hurl].
  assert (Hp : parsed_url (fun _ u => u) (fun _ => true) u None = Some parsed)
    by (vm_compute; reflexivity).
  assert (Hn : normalize_url u = Some "http://a.test/p")
    by (vm_compute; reflexivity).
  split; [reflexivity|]. split; [exact Hp|].
  split; [exact Hall|]. split; [exact (Hq (query parsed) Hall)|].
  split; [exact Hn|].
  exact (proj2 (Hurl u None parsed "http://a.test/p" Hp Hall Hn) eq_refl).
Defined.

(** C8 (what the code does instead): the query of
    [http://a.test/p?utm_source=a%26b%3D1] holds one parameter, the
    tracking parameter [utm_source] with the value [a&b=1], and yet the
    normalized URL has the query [b=1]: [normalize] unquotes the whole
    URL first, so [_normalize_query] is given [utm_source=a&b=1], drops
    [utm_source] and keeps the [b] that the escaped value has turned
    into.  The double decoding is the one of C7. *)
Theorem tracking_only_query_not_dropped urljoin check :
  let url := "http://a.test/p?utm_source=a%26b%3D1" in
  query <$> urlparse check url = Some "utm_source=a%26b%3D1" /\
  parse_qs "utm_source=a%26b%3D1" true = [("utm_source", ["a&b=1"])] /\
  str_in (lower "utm_source") TRACKING_PARAMS = true /\
  remove_tracking default_normalizer = true /\
  query <$> parsed_url urljoin check url None = Some "utm_source=a&b=1" /\
  normalize urljoin check default_normalizer url None
    = Some "http://a.test/p?b=1" /\
  query <$> urlparse check "http://a.test/p?b=1" = Some "b=1".
Proof.
  cbv zeta. split; [vm_compute; reflexivity|].
  split; [vm_compute; reflexivity|]. split; [vm_compute; reflexivity|].
  split; [reflexivity|]. split; [vm_compute; reflexivity|].
  split; vm_compute; reflexivity.
Qed.

(** C7 (what the code does instead): the URL [http://a.test/?q=%2526] is
    admissible, and normalizing its normal form gives a different URL:
    [normalize] unquotes the whole URL and [parse_qs] unquotes the query
    once more, so the value [%26] of the first pass is an ampersand in
    the second. *)
Theorem normalize_not_idempotent urljoin check :
  normalize urljoin check default_normalizer "http://a.test/?q=%2526" None
    = Some "http://a.test/?q=%26" /\
  normalize urljoin check default_normalizer "http://a.test/?q=%26" None
    = Some "http://a.test/?q=" /\
  exists n,
    normalize urljoin check default_normalizer "http://a.test/?q=%2526" None
      = Some n /\
    normalize urljoin check default_normalizer n None <> Some n.
Proof.
  assert (H1 : normalize urljoin check default_normalizer
                 "http://a.test/?q=%2526" None = Some "http://a.test/?q=%26")
    by (vm_compute; reflexivity).
  assert (H2 : normalize urljoin check default_normalizer
                 "http://a.test/?q=%26" None = Some "http://a.test/?q=")
    by (vm_compute; reflexivity).
  split; [exact H1|]. split; [exact H2|].
  exists "http://a.test/?q=%26". split; [exact H1|]. by rewrite H2.
Qed.
End Normalizer.

(* ===================================================================== *)
(** ** core/url_frontier.py: the rest of the class                        *)
(* ===================================================================== *)

Module FrontierProps.
Import HashUtils Frontier.

(** [crawled_count] *)
Definition crawled_count (f : URLFrontier) : Z :=
  Z.of_nat (base.size (_crawled_urls f)).

(** The dict [get_stats] returns. *)
Record FrontierStats := {
  queue_size : Z;
  total_added : Z;
  total_crawled : Z;
  total_seen : Z;
  total_failed : Z;
  duplicates_skipped : Z;
}.

Definition get_stats (f : URLFrontier) : FrontierStats :=
  {| queue_size := Frontier.size f;
     total_added := _total_added f;
     total_crawled := crawled_count f;
     total_seen := Z.of_nat (base.size (_seen_urls f));
     total_failed := Z.of_nat (base.size (_failed_urls f));
     duplicates_skipped := _total_duplicates_skipped f |}.

(** The URL hashes of the enqueued entries. *)
Definition hashes (q : list URLEntry) : list string :=
  (fun e => url_hash (url e)) <$> q.

(** [n] calls of [mark_failed] for one URL. *)
Fixpoint mark_failed_n (n : nat) (f : URLFrontier) (u : string)
    (max_retries : Z) : URLFrontier :=
  match n with
  | O => f
  | S n' => (mark_failed (mark_failed_n n' f u max_retries) u max_retries).2
  end.

(** The entries handed out by up to [n] calls of [get] in a row. *)
Fixpoint drain (n : nat) (f : URLFrontier) : list URLEntry :=
  match n with
  | O => []
  | S n' =>
      match get f with
      | (Some e, f') => e :: drain n' f'
      | (None, _) => []
      end
  end.

(** What holds of the counters and of the hashes in every reachable
    state. *)
Record counters_ok (f : URLFrontier) : Prop := {
  ok_nodup : NoDup (hashes (_queue f));
  ok_seen_size : Z.of_nat (base.size (_seen_urls f)) = _total_added f;
  ok_queue_le : Z.of_nat (length (_queue f)) <= _total_added f;
  ok_dups : 0 <= _total_duplicates_skipped f;
  ok_queue_seen : forall e, e ∈ _queue f -> url_hash (url e) ∈ _seen_urls f;
}.

Lemma hashes_perm q q' : q ≡ₚ q' -> hashes q ≡ₚ hashes q'.
Proof. intros H. unfold hashes. by rewrite H. Qed.

Lemma elem_of_hashes h q :
  h ∈ hashes q <-> exists e, e ∈ q /\ url_hash (url e) = h.
Proof.
  unfold hashes. rewrite list_elem_of_fmap. split.
  - intros (e & -> & He). eauto.
  - intros (e & He & <-). eauto.
Qed.

Lemma add_counters_ok f u d prio par meta now :
  counters_ok f -> counters_ok (add f u d prio par meta now).2.
Proof.
  intros [Hnd Hsz Hle Hdup Hseen]. unfold add.
  case_bool_decide as Hin; [split; cbn; try done; lia|].
  destruct (d >? _max_depth f); [by split|].
  destruct (_ >=? _); [by split|].
  pose proof (Heapq.heappush_perm entry_lt (_queue f)
                (new_entry u d prio par meta now)) as Hperm.
  split; cbn.
  - rewrite (hashes_perm _ _ Hperm). cbn. apply NoDup_cons. split; [|done].
    intros (e & He & Heq)%elem_of_hashes. apply Hin. rewrite <- Heq.
    by apply Hseen.
  - rewrite size_union by (apply disjoint_singleton_r; exact Hin).
    rewrite size_singleton. lia.
  - rewrite Hperm. cbn. lia.
  - done.
  - intros e. rewrite Hperm. intros [->|He]%elem_of_cons.
    + cbn. by apply elem_of_union_r, elem_of_singleton_2.
    + by apply elem_of_union_l, Hseen.
Qed.

Lemma get_total_added f : _total_added (get f).2 = _total_added f.
Proof. unfold get. by repeat (case_match || case_bool_decide). Qed.

Lemma get_counters_ok f : counters_ok f -> counters_ok (get f).2.
Proof.
  intros Hok. destruct (get f) as [[e|] f'] eqn:Hget; cbn.
  - pose proof Hget as Hget'. apply get_pops in Hget'
      as (q & Hpop & Hq & Hseen & _ & _ & _ & _ & Hdup).
    pose proof (Heapq.heappop_perm _ _ _ _ Hpop) as Hperm.
    destruct Hok as [Hnd Hsz Hle Hd Hqs].
    assert (Hadded : _total_added f' = _total_added f).
    { pose proof (get_total_added f) as Ha. by rewrite Hget in Ha. }
    split.
    + rewrite Hq. rewrite (hashes_perm _ _ Hperm) in Hnd. cbn in Hnd.
      by apply NoDup_cons in Hnd as [_ Hnd].
    + by rewrite Hseen, Hadded.
    + rewrite Hq, Hadded. rewrite Hperm in Hle. cbn in Hle. lia.
    + by rewrite Hdup.
    + intros x Hx. rewrite Hseen. apply Hqs. rewrite Hperm, <- Hq. by right.
  - revert Hget. unfold get. destruct (negb (_not_empty f)).
    + by intros [= <-].
    + destruct (Heapq.heappop entry_lt (_queue f)) as [[e q]|]; [done|].
      intros [= <-]. by destruct Hok.
Qed.

Lemma steps_counters_ok f0 f : counters_ok f0 -> steps f0 f -> counters_ok f.
Proof.
  intros H0. induction 1 as [|f u d prio par meta now _ IH|f _ IH
                            |f u _ IH|f u mr _ IH].
  - done.
  - by apply add_counters_ok.
  - by apply get_counters_ok.
  - by destruct IH.
  - by destruct IH.
Qed.

Lemma reachable_counters_ok md mu f : reachable md mu f -> counters_ok f.
Proof.
  apply steps_counters_ok. split; cbn; try done.
  - apply NoDup_nil_2.
  - by intros e ?%elem_of_nil.
Qed.

(** The hash [h] is seen and no enqueued entry carries it. *)
Definition retired (h : string) (f : URLFrontier) : Prop :=
  h ∈ _seen_urls f /\ h ∉ hashes (_queue f).

Lemma steps_retired h f0 f : retired h f0 -> steps f0 f -> retired h f.
Proof.
  intros H0. induction 1 as [|f u d prio par meta now _ IH|f _ IH
                            |f u _ IH|f u mr _ IH]; try done.
  - destruct IH as [Hs Hq]. split; [by apply add_seen_mono|].
    unfold add. case_bool_decide as Hin; [done|].
    destruct (d >? _max_depth f); [done|]. destruct (_ >=? _); [done|].
    cbn. rewrite (hashes_perm _ _ (Heapq.heappush_perm entry_lt _ _)). cbn.
    intros [->|?]%elem_of_cons; done.
  - destruct IH as [Hs Hq]. split; [by rewrite get_seen|].
    destruct (get f) as [[e|] f'] eqn:Hget.
    + apply get_pops in Hget as (q & Hpop & Hq' & _). cbn. rewrite Hq'.
      intros Hin. apply Hq.
      rewrite (hashes_perm _ _ (Heapq.heappop_perm _ _ _ _ Hpop)). by right.
    + revert Hget. unfold get. repeat case_match; try done;
        by intros [= <-].
Qed.

(** X1: an entry that [get] has handed out is never handed out again: the
    hash of its URL stays in the seen set, so whatever the workers call
    afterwards no entry with that hash is enqueued or popped. *)
Theorem popped_never_again md mu f0 e f1 f2 :
  reachable md mu f0 -> get f0 = (Some e, f1) -> steps f1 f2 ->
  (forall e', e' ∈ _queue f2 -> url_hash (url e') <> url_hash (url e)) /\
  (forall e2 f3, get f2 = (Some e2, f3) ->
                 url_hash (url e2) <> url_hash (url e)).
Proof.
  intros Hreach Hget Hsteps.
  assert (Hret : retired (url_hash (url e)) f2).
  { apply (steps_retired _ f1); [|done]. split.
    - by eapply popped_is_seen; [..|apply steps_refl].
    - pose proof (ok_nodup _ (reachable_counters_ok _ _ _ Hreach)) as Hnd.
      apply get_pops in Hget as (q & Hpop & Hq & _).
      rewrite (hashes_perm _ _ (Heapq.heappop_perm _ _ _ _ Hpop)) in Hnd.
      cbn in Hnd. apply NoDup_cons in Hnd as [Hnot _]. by rewrite Hq. }
  destruct Hret as [_ Hnot].
  assert (Hq : forall e', e' ∈ _queue f2 ->
                          url_hash (url e') <> url_hash (url e)).
  { intros e' He' Heq. apply Hnot, elem_of_hashes. eauto. }
  split; [done|]. intros e2 f3 (q & Hpop & _)%get_pops. apply Hq.
  rewrite (Heapq.heappop_perm _ _ _ _ Hpop). by left.
Qed.

Lemma popped_never_again_witness :
  let e := new_entry "http://a.test/deep" 1 NORMAL EmptyString None 10 in
  let f1 := (get two_depths).2 in
  let f2 := (add f1 "HTTP://A.TEST/DEEP" 1 HIGH EmptyString None 30).2 in
  reachable 3 100 two_depths /\ get two_depths = (Some e, f1) /\
  steps f1 f2 /\
  forall e', e' ∈ _queue f2 -> url_hash (url e') <> url_hash (url e).
Proof.
  intros e f1 f2.
  assert (Hget : get two_depths = (Some e, f1)) by (vm_compute; reflexivity).
  assert (Hsteps : steps f1 f2) by apply steps_add, steps_refl.
  split; [exact two_depths_reachable|]. split; [exact Hget|].
  split; [exact Hsteps|].
  exact (proj1 (popped_never_again 3 100 two_depths e f1 f2
                  two_depths_reachable Hget Hsteps)).
Defined.

(** X2: the counters [get_stats] reports agree in every reachable state:
    as many hashes are seen as entries were admitted, the queue holds at
    most that many entries (and at most [max_urls], when that is not
    negative), and no counter is negative. *)
Theorem stats_consistent md mu f :
  reachable md mu f ->
  let s := get_stats f in
  total_seen s = total_added s /\
  0 <= queue_size s <= total_added s /\
  (0 <= mu -> queue_size s <= mu) /\
  0 <= duplicates_skipped s /\ 0 <= total_crawled s /\ 0 <= total_failed s.
Proof.
  intros Hreach s.
  destruct (reachable_counters_ok _ _ _ Hreach) as [_ Hsz Hle Hdup _].
  pose proof (reachable_invariant _ _ _ Hreach) as Hinv.
  subst s. unfold get_stats, Frontier.size, crawled_count. cbn.
  repeat split; try lia; try done.
  intros Hmu. destruct (inv_size _ _ _ Hinv) as [->|]; [cbn; lia|done].
Qed.

Lemma stats_consistent_witness :
  reachable 3 100 two_depths /\
  total_seen (get_stats two_depths) = total_added (get_stats two_depths) /\
  get_stats two_depths =
    {| queue_size := 2; total_added := 2; total_crawled := 0;
       total_seen := 2; total_failed := 0; duplicates_skipped := 0 |}.
Proof.
  split; [exact two_depths_reachable|].
  split; [exact (proj1 (stats_consistent 3 100 two_depths
                          two_depths_reachable))|].
  vm_compute. reflexivity.
Defined.

(** X3: [mark_failed] counts the failures of a URL: after [n] calls the
    count is [n] more than before, call number [n + 1] asks for a retry
    exactly when the count it reaches is below [max_retries] -- so once a
    call has said no, every later one says no -- and nothing but that
    URL's count changes. *)
Theorem mark_failed_counts f u max_retries n :
  let c0 := default 0 (_failed_urls f !! url_hash u) in
  let fn := mark_failed_n n f u max_retries in
  default 0 (_failed_urls fn !! url_hash u) = c0 + Z.of_nat n /\
  (mark_failed fn u max_retries).1 = (c0 + Z.of_nat n + 1 <? max_retries) /\
  (forall m, (n <= m)%nat ->
     (mark_failed fn u max_retries).1 = false ->
     (mark_failed (mark_failed_n m f u max_retries) u max_retries).1
       = false) /\
  _queue fn = _queue f /\ _seen_urls fn = _seen_urls f /\
  _crawled_urls fn = _crawled_urls f /\
  (forall h, h <> url_hash u -> _failed_urls fn !! h = _failed_urls f !! h).
Proof.
  intros c0.
  assert (Hcount : forall k,
    default 0 (_failed_urls (mark_failed_n k f u max_retries) !! url_hash u)
    = c0 + Z.of_nat k).
  { induction k as [|k IH]; [cbn; lia|].
    cbn [mark_failed_n mark_failed snd _failed_urls].
    rewrite lookup_insert_eq. cbn. rewrite IH. lia. }
  assert (Hret : forall k,
    (mark_failed (mark_failed_n k f u max_retries) u max_retries).1
    = (c0 + Z.of_nat k + 1 <? max_retries)).
  { intros k. cbn [mark_failed fst]. by rewrite Hcount. }
  intros fn. subst fn. split; [apply Hcount|]. split; [apply Hret|].
  split; [|clear; induction n as [|n IH]; [done|];
            destruct IH as (Hq & Hs & Hc & Hf); cbn; repeat split; try done;
            intros h Hh; rewrite lookup_insert_ne by done; by apply Hf].
  intros m Hm. rewrite !Hret. intros H%Z.ltb_ge. apply Z.ltb_ge. lia.
Qed.

(** X4: with nobody adding in between, [n] calls of [get] hand out [n]
    entries of the queue in the order of their priorities, lowest first,
    none of them deeper than [max_depth]; draining the whole queue hands
    out every entry. *)
Theorem drain_sorted md mu n : forall f,
  reachable md mu f -> (n <= length (_queue f))%nat ->
  length (drain n f) = n /\
  StronglySorted (fun a b => priority a <= priority b) (drain n f) /\
  drain n f ⊆+ _queue f /\
  (forall e, e ∈ drain n f -> depth e <= md) /\
  (n = length (_queue f) -> drain n f ≡ₚ _queue f).
Proof.
  assert (Hmain : forall n f, reachable md mu f ->
    (n <= length (_queue f))%nat ->
    length (drain n f) = n /\
    StronglySorted (fun a b => priority a <= priority b) (drain n f) /\
    drain n f ⊆+ _queue f).
  { clear n. induction n as [|n IH]; intros f Hreach Hlen; cbn [drain].
    { split; [done|]. split; [constructor|]. apply submseteq_nil_l. }
    pose proof (reachable_invariant _ _ _ Hreach) as Hinv.
    destruct (get_some md mu f Hreach) as (e & f' & Hget).
    { intros Hnil. rewrite Hnil in Hlen. cbn in Hlen. lia. }
    rewrite Hget.
    pose proof Hget as (q & Hpop & Hq & _)%get_pops.
    pose proof (Heapq.heappop_perm _ _ _ _ Hpop) as Hperm.
    assert (Hreach' : reachable md mu f').
    { replace f' with (get f).2 by by rewrite Hget. by apply steps_get. }
    destruct (IH f' Hreach') as (Hl & Hs & Hsub).
    { rewrite Hq. rewrite Hperm in Hlen. cbn in Hlen. lia. }
    split; [cbn; by rewrite Hl|]. split.
    - constructor; [done|]. apply Forall_forall. intros x Hx.
      apply (Heapq.heap_ok_root priority _ e (inv_heap _ _ _ Hinv));
        [by eapply Heapq.heappop_root|].
      rewrite Hperm. right. rewrite <- Hq.
      by eapply elem_of_submseteq.
    - rewrite Hperm, <- Hq. by apply submseteq_skip. }
  intros f Hreach Hlen. destruct (Hmain n f Hreach Hlen) as (Hl & Hs & Hsub).
  split; [done|]. split; [done|]. split; [done|]. split.
  - intros e He. apply (inv_depth _ _ _ (reachable_invariant _ _ _ Hreach)).
    by eapply elem_of_submseteq.
  - intros ->. apply submseteq_length_Permutation; [done|lia].
Qed.

Lemma drain_sorted_witness :
  reachable 3 100 four_ties /\ (4 <= length (_queue four_ties))%nat /\
  length (drain 4 four_ties) = 4%nat /\
  drain 4 four_ties ≡ₚ _queue four_ties /\
  url <$> drain 4 four_ties =
    ["http://a.test/1"; "http://a.test/3"; "http://a.test/2";
     "http://a.test/4"].
Proof.
  assert (Hreach : reachable 3 100 four_ties)
    by (do 4 apply steps_add; apply steps_refl).
  assert (Hlen : (4 <= length (_queue four_ties))%nat)
    by (vm_compute; lia).
  destruct (drain_sorted 3 100 4 four_ties Hreach Hlen)
    as (Hl & _ & _ & _ & Hall).
  split; [exact Hreach|]. split; [exact Hlen|]. split; [exact Hl|].
  split; [apply Hall; vm_compute; reflexivity|]. vm_compute. reflexivity.
Defined.

(** X5: [add_many] returns the number of URLs it admitted: the growth of
    the queue and of [total_added], between 0 and the number of URLs
    offered; the seen set only grows. *)
Theorem add_many_count urls : forall f d prio par now,
  let r := add_many f urls d prio par now in
  r.1 = Z.of_nat (length (_queue r.2)) - Z.of_nat (length (_queue f)) /\
  r.1 = _total_added r.2 - _total_added f /\
  0 <= r.1 <= Z.of_nat (length urls) /\
  _seen_urls f ⊆ _seen_urls r.2.
Proof.
  induction urls as [|u urls IH]; intros f d prio par now; cbn [add_many].
  { cbn. repeat split; try lia. done. }
  pose proof (add_seen_mono f u d prio par None now) as Hmono.
  assert (Hone :
    let a := add f u d prio par None now in
    (if a.1 then 1 else 0) =
      Z.of_nat (length (_queue a.2)) - Z.of_nat (length (_queue f)) /\
    (if a.1 then 1 else 0) = _total_added a.2 - _total_added f).
  { unfold add. case_bool_decide; [cbn; lia|].
    destruct (d >? _max_depth f); [cbn; lia|].
    destruct (_ >=? _); [cbn; lia|]. cbn.
    rewrite (Heapq.heappush_perm entry_lt). cbn. lia. }
  destruct (add f u d prio par None now) as [ok f1]. cbn in Hone, Hmono.
  specialize (IH f1 d prio par now).
  destruct (add_many f1 urls d prio par now) as [k f2]. cbn in IH |- *.
  destruct IH as (Hq & Ht & Hk & Hs), Hone as [H1 H2].
  repeat split; try (destruct ok; lia). by etrans.
Qed.

(** X6: in a reachable state [get] returns [None] exactly when the queue
    is empty, and then it leaves the frontier as it is; [is_empty] says
    the same. *)
Theorem get_none_iff_empty md mu f :
  reachable md mu f ->
  ((get f).1 = None <-> _queue f = []) /\
  (_queue f = [] -> get f = (None, f)) /\
  (is_empty f = true <-> _queue f = []).
Proof.
  intros Hreach. pose proof (reachable_invariant _ _ _ Hreach) as Hinv.
  assert (Hempty : _queue f = [] -> get f = (None, f)).
  { intros Hnil. unfold get.
    destruct (_not_empty f) eqn:Hflag; [|done].
    by apply (inv_event _ _ _ Hinv) in Hflag. }
  split; [split|split; [done|]].
  - intros Hnone. destruct (decide (_queue f = [])) as [|Hne]; [done|].
    destruct (get_some _ _ _ Hreach Hne) as (e & f' & Hget).
    by rewrite Hget in Hnone.
  - intros Hnil. by rewrite Hempty.
  - unfold is_empty. destruct (_queue f); cbn; split; (done || lia).
Qed.

Lemma get_none_iff_empty_witness :
  reachable 3 100 (init 3 100) /\
  get (init 3 100) = (None, init 3 100) /\
  is_empty (init 3 100) = true.
Proof.
  destruct (get_none_iff_empty 3 100 (init 3 100) (steps_refl _))
    as (_ & Hget & Hemp).
  split; [apply steps_refl|]. split; [by apply Hget|]. by apply Hemp.
Defined.
End FrontierProps.

(* ===================================================================== *)
(** ** utils/hash_utils.py: what [url_hash] identifies                    *)
(* ===================================================================== *)

Module UrlHashProps.
Import PyStr HashUtils Frontier.

Lemma append_nil_r s : s +:+ EmptyString = s.
Proof.
  induction s as [|c s IH]; [done|].
  change (String c s +:+ EmptyString) with (String c (s +:+ EmptyString)).
  by rewrite IH.
Qed.

Lemma rev_app_append a : forall b acc,
  rev_app (a +:+ b) acc = rev_app b (rev_app a acc).
Proof.
  induction a as [|c a IH]; intros b acc; [done|].
  change (String c a +:+ b) with (String c (a +:+ b)). cbn. apply IH.
Qed.

Lemma rev_app_rev_app a : forall b c,
  rev_app (rev_app a b) c = rev_app b (a +:+ c).
Proof.
  induction a as [|x a IH]; intros b c; [done|].
  cbn [rev_app]. rewrite IH. done.
Qed.

Lemma rev_involutive s : rev (rev s) = s.
Proof. unfold rev. rewrite rev_app_rev_app. cbn. apply append_nil_r. Qed.

Lemma rev_snoc a c : rev (a +:+ String c EmptyString) = String c (rev a).
Proof. unfold rev. by rewrite rev_app_append. Qed.

Lemma rev_cons c s : rev (String c s) = rev s +:+ String c EmptyString.
Proof.
  rewrite <- (rev_involutive (rev s +:+ String c EmptyString)).
  by rewrite rev_snoc, rev_involutive.
Qed.

Lemma lstrip_by_idem p s : lstrip_by p (lstrip_by p s) = lstrip_by p s.
Proof.
  induction s as [|c s IH]; [done|]. cbn [lstrip_by].
  destruct (p c) eqn:Hc; [done|]. cbn [lstrip_by]. by rewrite Hc.
Qed.

Lemma lstrip_by_snoc p c a :
  p c = false ->
  lstrip_by p (a +:+ String c EmptyString)
  = lstrip_by p a +:+ String c EmptyString.
Proof.
  intros Hc. induction a as [|x a IH].
  { change (lstrip_by p (String c EmptyString) = String c EmptyString).
    cbn [lstrip_by]. by rewrite Hc. }
  change (String x a +:+ String c EmptyString)
    with (String x (a +:+ String c EmptyString)).
  cbn [lstrip_by]. by destruct (p x).
Qed.

(** Stripping on the right leaves a leading character that is kept in
    place. *)
Lemma rstrip_by_cons p c t :
  p c = false -> exists r, rstrip_by p (String c t) = String c r.
Proof.
  intros Hc. unfold rstrip_by.
  rewrite rev_cons, lstrip_by_snoc, rev_snoc by done. eauto.
Qed.

Lemma strip_by_idem p s : strip_by p (strip_by p s) = strip_by p s.
Proof.
  unfold strip_by.
  assert (Hl : lstrip_by p (rstrip_by p (lstrip_by p s))
               = rstrip_by p (lstrip_by p s)).
  { assert (Hhead : lstrip_by p s = EmptyString \/
      exists c t, lstrip_by p s = String c t /\ p c = false).
    { induction s as [|c s IH]; [by left|]. cbn.
      destruct (p c) eqn:Hc; [done|]. right. eauto. }
    destruct Hhead as [->|(c & t & -> & Hc)]; [done|].
    destruct (rstrip_by_cons p c t Hc) as [r ->]. cbn. by rewrite Hc. }
  rewrite Hl. unfold rstrip_by at 1 2.
  by rewrite rev_involutive, lstrip_by_idem.
Qed.

Lemma lower_char_not_upper c : isupper (lower_char c) = false.
Proof.
  unfold lower_char. destruct (isupper c) eqn:Hup; [|done].
  unfold isupper, between, code in *.
  apply andb_true_iff in Hup as [H1%Nat.leb_le H2%Nat.leb_le].
  rewrite nat_ascii_embedding by lia.
  apply andb_false_iff. right. apply Nat.leb_gt. lia.
Qed.

Lemma lower_idem s : lower (lower s) = lower s.
Proof.
  induction s as [|c s IH]; [done|]. cbn. rewrite IH. f_equal.
  unfold lower_char at 1. by rewrite lower_char_not_upper.
Qed.

Lemma isspace_lower_char c : isspace (lower_char c) = isspace c.
Proof.
  unfold lower_char. destruct (isupper c) eqn:Hup; [|done].
  unfold isupper, isspace, between, code in *.
  apply andb_true_iff in Hup as [H1%Nat.leb_le H2%Nat.leb_le].
  rewrite nat_ascii_embedding by lia.
  transitivity false; [|symmetry]; apply orb_false_iff; split;
    apply andb_false_iff; (left; apply Nat.leb_gt; lia)
    || (right; apply Nat.leb_gt; lia).
Qed.

Lemma lower_lstrip s : lower (lstrip_by isspace s) = lstrip_by isspace (lower s).
Proof.
  induction s as [|c s IH]; [done|]. cbn. rewrite isspace_lower_char.
  by destruct (isspace c).
Qed.

Lemma lower_rev_app s : forall acc,
  lower (rev_app s acc) = rev_app (lower s) (lower acc).
Proof. induction s as [|c s IH]; intros acc; [done|]. cbn. by rewrite IH. Qed.

Lemma lower_strip s : lower (strip s) = strip (lower s).
Proof.
  unfold strip, strip_by, rstrip_by, rev.
  by rewrite lower_rev_app, lower_lstrip, lower_rev_app, lower_lstrip.
Qed.

(** X7: [url_hash] does not see letter case nor surrounding whitespace:
    a URL, its lowercase form and its stripped form have one hash, and
    once a URL is admitted to the frontier every URL that differs from it
    in these respects only is turned away as a duplicate. *)
Theorem url_hash_insensitive u :
  url_hash (lower u) = url_hash u /\
  url_hash (strip u) = url_hash u /\
  forall u' f d prio par meta now d' prio' par' meta' now',
    strip (lower u') = strip (lower u) ->
    (add f u d prio par meta now).1 = true ->
    let f1 := (add f u d prio par meta now).2 in
    (add f1 u' d' prio' par' meta' now').1 = false /\
    _queue (add f1 u' d' prio' par' meta' now').2 = _queue f1 /\
    _total_duplicates_skipped (add f1 u' d' prio' par' meta' now').2
      = _total_duplicates_skipped f1 + 1.
Proof.
  unfold url_hash, md5_hash. split; [by rewrite lower_idem|].
  split; [by rewrite lower_strip; unfold strip; rewrite strip_by_idem|].
  intros u' f d prio par meta now d' prio' par' meta' now' Heq Hadm.
  set (f1 := (add f u d prio par meta now).2).
  assert (Hseen : url_hash u' ∈ _seen_urls f1).
  { unfold url_hash, md5_hash. rewrite Heq. subst f1. revert Hadm.
    unfold add, url_hash, md5_hash. case_bool_decide; [done|].
    destruct (_ >? _); [done|]. destruct (_ >=? _); [done|]. cbn.
    intros _. by apply elem_of_union_r, elem_of_singleton_2. }
  unfold add. by rewrite bool_decide_eq_true_2.
Qed.

Lemma url_hash_insensitive_witness :
  let f := init 3 100 in
  let f1 := (add f "http://a.test/x" 0 NORMAL EmptyString None 1).2 in
  strip (lower "  HTTP://A.test/X ") = strip (lower "http://a.test/x") /\
  (add f "http://a.test/x" 0 NORMAL EmptyString None 1).1 = true /\
  (add f1 "  HTTP://A.test/X " 0 NORMAL EmptyString None 2).1 = false.
Proof.
  intros f f1.
  assert (Heq : strip (lower "  HTTP://A.test/X ")
                = strip (lower "http://a.test/x")) by (vm_compute; reflexivity).
  assert (Hadm : (add f "http://a.test/x" 0 NORMAL EmptyString None 1).1
                 = true) by (vm_compute; reflexivity).
  split; [exact Heq|]. split; [exact Hadm|].
  exact (proj1 (proj2 (proj2 (url_hash_insensitive "http://a.test/x"))
    "  HTTP://A.test/X " f 0 NORMAL EmptyString None 1%Q 0 NORMAL EmptyString
    None 2%Q Heq Hadm)).
Defined.
End UrlHashProps.

(* ===================================================================== *)
(** ** core/rate_limiter.py: runs of [record], [acquire]                   *)
(* ===================================================================== *)

Module RateLimiterProps.
Import RateLimiter.
Local Open Scope Q_scope.

(** The arguments of one call of [record] and the clock reading of its
    [time.time()]. *)
Record Outcome := {
  response_time : Q;
  success : bool;
  status_code : Z;
  at_time : Q;
}.

(** [record] called for [domain] once per outcome, in the list's order. *)
Definition records (l : AdaptiveRateLimiter) (domain : string)
    (os : list Outcome) : AdaptiveRateLimiter :=
  foldl (fun l o => record l domain (response_time o) (success o)
                      (status_code o) (at_time o)) l os.

Definition failed (o : Outcome) : bool := negb (success o).

(** How many of the outcomes failed. *)
Definition failures (os : list Outcome) : Z :=
  Z.of_nat (length (filter (fun o => success o = false) os)).

(** The length of the run of failures at the head of a list; on the
    reversed list of outcomes, of the run that ends it. *)
Fixpoint failure_run (os : list Outcome) : Z :=
  match os with
  | [] => 0%Z
  | o :: os' => if success o then 0%Z else (1 + failure_run os')%Z
  end.

(** The response times of the successes, oldest first. *)
Definition successes (os : list Outcome) : list Q :=
  response_time <$> filter (fun o => success o = true) os.

(** [xs[-50:]] *)
Definition last50 (xs : list Q) : list Q := drop (length xs - 50) xs.

Ltac qminmax :=
  repeat match goal with
  | |- context [Qmin ?a ?b] =>
      let m := fresh "m" in
      pose proof (Q.min_spec a b); set (m := Qmin a b) in *; clearbody m
  | |- context [Qmax ?a ?b] =>
      let m := fresh "m" in
      pose proof (Q.max_spec a b); set (m := Qmax a b) in *; clearbody m
  | _ : context [Qmin ?a ?b] |- _ =>
      let m := fresh "m" in
      pose proof (Q.min_spec a b); set (m := Qmin a b) in *; clearbody m
  | _ : context [Qmax ?a ?b] |- _ =>
      let m := fresh "m" in
      pose proof (Q.max_spec a b); set (m := Qmax a b) in *; clearbody m
  end; lra.

Lemma records_snoc l domain os o :
  records l domain (os ++ [o]) =
  record (records l domain os) domain (response_time o) (success o)
    (status_code o) (at_time o).
Proof. unfold records. by rewrite foldl_app. Qed.

Lemma records_cons l domain o os :
  records l domain (o :: os) =
  records (record l domain (response_time o) (success o) (status_code o)
             (at_time o)) domain os.
Proof. done. Qed.

Lemma record_config l domain rt ok code now :
  let l' := record l domain rt ok code now in
  _base_delay l' = _base_delay l /\ _min_delay l' = _min_delay l /\
  _max_delay l' = _max_delay l /\ _adaptive l' = _adaptive l /\
  _jitter l' = _jitter l.
Proof. done. Qed.

Lemma records_config l domain os :
  let l' := records l domain os in
  _base_delay l' = _base_delay l /\ _min_delay l' = _min_delay l /\
  _max_delay l' = _max_delay l /\ _adaptive l' = _adaptive l /\
  _jitter l' = _jitter l.
Proof.
  induction os as [|o os IH] using rev_ind; [done|].
  rewrite records_snoc. cbn in *. done.
Qed.

Lemma _adjust_delay_counters l st code :
  let st' := _adjust_delay l st code in
  last_request_time st' = last_request_time st /\
  request_count st' = request_count st /\
  error_count st' = error_count st /\
  consecutive_errors st' = consecutive_errors st /\
  avg_response_time st' = avg_response_time st /\
  _response_times st' = _response_times st.
Proof. unfold _adjust_delay. by repeat case_match. Qed.

(** What one [record] does to the domain's state, the delay apart. *)
Lemma record_state l domain rt ok code now :
  let st := domain_state l domain in
  let st' := domain_state (record l domain rt ok code now) domain in
  last_request_time st' = now /\
  request_count st' = (request_count st + 1)%Z /\
  error_count st' = (error_count st + if ok then 0 else 1)%Z /\
  consecutive_errors st' = (if ok then 0 else consecutive_errors st + 1)%Z /\
  _response_times st' =
    (if ok then last50 (_response_times st ++ [rt]) else _response_times st) /\
  avg_response_time st' =
    (if ok then sum (_response_times st') /
                inject_Z (Z.of_nat (length (_response_times st')))
     else avg_response_time st).
Proof.
  intros st st'. subst st'. unfold record. rewrite domain_state_set.
  fold st. 
  assert (H : forall s,
    s = record_request st rt ok now \/
    s = _adjust_delay l (record_request st rt ok now) code ->
    last_request_time s = last_request_time (record_request st rt ok now) /\
    request_count s = request_count (record_request st rt ok now) /\
    error_count s = error_count (record_request st rt ok now) /\
    consecutive_errors s = consecutive_errors (record_request st rt ok now) /\
    avg_response_time s = avg_response_time (record_request st rt ok now) /\
    _response_times s = _response_times (record_request st rt ok now)).
  { intros s [->| ->]; [done|]. apply _adjust_delay_counters. }
  destruct (H (if _adaptive l
               then _adjust_delay l (record_request st rt ok now) code
               else record_request st rt ok now))
    as (-> & -> & -> & -> & Ha & Hr); [destruct (_adaptive l); auto|].
  rewrite Ha, Hr. unfold record_request, last50.
  destruct ok; cbn; repeat split; lia.
Qed.

(** X8: the request accounting of a domain over any run of [record]
    calls: [request_count] grows by the number of calls, [error_count] by
    the number of failed ones, [consecutive_errors] is the length of the
    run of failures that ends the calls (on top of the earlier run when
    every call failed); so [0 <= consecutive_errors <= error_count <=
    request_count] is kept. *)
Theorem record_accounting l domain os :
  let st0 := domain_state l domain in
  let st := domain_state (records l domain os) domain in
  request_count st = (request_count st0 + Z.of_nat (length os))%Z /\
  error_count st = (error_count st0 + failures os)%Z /\
  consecutive_errors st =
    (failure_run (reverse os)
     + if forallb failed os then consecutive_errors st0 else 0)%Z /\
  ((0 <= consecutive_errors st0 <= error_count st0)%Z ->
   (error_count st0 <= request_count st0)%Z ->
   (0 <= consecutive_errors st <= error_count st)%Z /\
   (error_count st <= request_count st)%Z).
Proof.
  intros st0 st. subst st st0.
  assert (Hmain :
    let st := domain_state (records l domain os) domain in
    request_count st =
      (request_count (domain_state l domain) + Z.of_nat (length os))%Z /\
    error_count st = (error_count (domain_state l domain) + failures os)%Z /\
    consecutive_errors st =
      (failure_run (reverse os)
       + if forallb failed os
         then consecutive_errors (domain_state l domain) else 0)%Z /\
    (0 <= failure_run (reverse os) <= failures os)%Z /\
    (forallb failed os = true -> failure_run (reverse os) = failures os) /\
    (failures os <= Z.of_nat (length os))%Z).
  { unfold failed, failures. induction os as [|o os IH] using rev_ind.
    { cbn. repeat split; lia. }
    rewrite records_snoc. cbn zeta in *.
    destruct (record_state (records l domain os) domain (response_time o)
                (success o) (status_code o) (at_time o))
      as (_ & -> & -> & -> & _).
    destruct IH as (-> & -> & -> & Hrun & Hall & Hle).
    rewrite reverse_snoc, forallb_app, length_app.
    rewrite filter_app, length_app, filter_cons, filter_nil.
    cbn [forallb failure_run length].
    destruct (success o); cbn [negb andb].
    - rewrite andb_false_r. rewrite decide_False by done. cbn.
      repeat split; lia.
    - rewrite andb_true_r. rewrite decide_True by done. cbn [length].
      destruct (forallb _ os) eqn:Hf.
      + specialize (Hall eq_refl). repeat split; lia.
      + repeat split; (lia || done). }
  destruct Hmain as (Hr & He & Hc & Hrun & Hall & Hle).
  split; [done|]. split; [done|]. split; [done|].
  intros H1 H2. rewrite Hr, He, Hc.
  unfold failed in *. destruct (forallb _ os) eqn:Hf;
    [specialize (Hall eq_refl)|]; lia.
Qed.

Lemma record_accounting_witness :
  let os := [ {| response_time := 1 # 5; success := true;
                 status_code := 200; at_time := 1 |};
              {| response_time := 0; success := false;
                 status_code := 503; at_time := 2 |};
              {| response_time := 0; success := false;
                 status_code := 429; at_time := 3 |} ] in
  let st := domain_state (records default_limiter "a.test" os) "a.test" in
  request_count st = 3%Z /\ error_count st = 2%Z /\
  consecutive_errors st = 2%Z /\
  (0 <= consecutive_errors st <= error_count st)%Z /\
  (error_count st <= request_count st)%Z.
Proof.
  intros os st.
  destruct (record_accounting default_limiter "a.test" os)
    as (Hr & He & Hc & Hinv).
  split; [exact Hr|]. split; [exact He|]. split; [exact Hc|].
  apply Hinv; vm_compute; [split|]; discriminate.
Defined.

Lemma last50_snoc xs x : last50 (last50 xs ++ [x]) = last50 (xs ++ [x]).
Proof.
  unfold last50. rewrite !length_app, length_drop. cbn [length].
  destruct (decide (length xs <= 50)%nat) as [Hle|Hgt].
  - replace (length xs - 50)%nat with 0%nat by lia.
    rewrite drop_0. by replace (length xs - 0 + 1 - 50)%nat
      with (length xs + 1 - 50)%nat by lia.
  - replace (length xs - (length xs - 50) + 1 - 50)%nat with 1%nat by lia.
    rewrite !drop_app_le by (rewrite ?length_drop; lia).
    rewrite drop_drop. f_equal. f_equal. lia.
Qed.

Lemma last50_length xs : (length (last50 xs) <= 50)%nat.
Proof. unfold last50. rewrite length_drop. lia. Qed.

Lemma last50_short xs : (length xs <= 50)%nat -> last50 xs = xs.
Proof.
  intros H. unfold last50. by replace (length xs - 50)%nat with 0%nat by lia.
Qed.

(** X9: the response-time window of a domain holds the last 50 response
    times of its successful requests, oldest first (failed requests leave
    no trace in it), and once a request has succeeded [avg_response_time]
    is the mean of the window. *)
Theorem response_window l domain os :
  let st0 := domain_state l domain in
  let st := domain_state (records l domain os) domain in
  (length (_response_times st0) <= 50)%nat ->
  _response_times st = last50 (_response_times st0 ++ successes os) /\
  (length (_response_times st) <= 50)%nat /\
  (successes os <> [] ->
   _response_times st <> [] /\
   avg_response_time st =
     sum (_response_times st) /
     inject_Z (Z.of_nat (length (_response_times st)))).
Proof.
  intros st0 st H0. subst st st0. unfold successes.
  induction os as [|o os IH] using rev_ind.
  { cbn. rewrite app_nil_r, last50_short by done. done. }
  rewrite records_snoc.
  destruct (record_state (records l domain os) domain (response_time o)
              (success o) (status_code o) (at_time o))
    as (_ & _ & _ & _ & Hw & Ha).
  rewrite Ha, Hw. clear Ha Hw. destruct IH as (IHw & IHlen & IHavg).
  rewrite filter_app, fmap_app, filter_cons, filter_nil.
  destruct (success o).
  - rewrite decide_True by done. cbn [fmap list_fmap].
    rewrite IHw, last50_snoc, app_assoc.
    split; [done|]. split; [apply last50_length|]. intros _.
    split; [|done]. unfold last50.
    rewrite <- length_zero_iff_nil, length_drop, !length_app. cbn. lia.
  - rewrite decide_False by done. cbn [fmap list_fmap].
    rewrite !app_nil_r. done.
Qed.

Lemma response_window_witness :
  let o t := {| response_time := t; success := true; status_code := 200;
                at_time := 7 |} in
  let os := [o (1 # 10); o (3 # 10)] in
  let st := domain_state (records default_limiter "a.test" os) "a.test" in
  (length (_response_times (domain_state default_limiter "a.test")) <= 50)%nat
  /\ _response_times st = [1 # 10; 3 # 10] /\
  avg_response_time st == 1 # 5.
Proof.
  intros o os st.
  assert (H0 : (length (_response_times
                  (domain_state default_limiter "a.test")) <= 50)%nat)
    by (vm_compute; lia).
  destruct (response_window default_limiter "a.test" os H0) as (Hw & _ & Ha).
  assert (Hne : successes os <> []) by (vm_compute; discriminate).
  split; [exact H0|]. split; [exact Hw|]. subst st.
  rewrite (proj2 (Ha Hne)). vm_compute. reflexivity.
Defined.



Lemma records_fixed l domain os :
  _adaptive l = false ->
  current_delay (domain_state (records l domain os) domain)
  = current_delay (domain_state l domain).
Proof.
  intros Had. induction os as [|o os IH] using rev_ind; [done|].
  rewrite records_snoc. unfold record. rewrite domain_state_set.
  destruct (records_config l domain os) as (_ & _ & _ & -> & _).
  rewrite Had. by rewrite record_request_delay.
Qed.

(** X11: with the adaptive flag off the limiter paces every domain at
    the fixed [1 / requests_per_second]: [record] never changes a
    domain's [current_delay] (it stays at the default [1.0], unused), and
    the delay [acquire] waits for is the base delay whatever was
    recorded. *)
Theorem fixed_rate rps mn mx jitter l0 domain os :
  __init__ rps mn mx false jitter = Some l0 ->
  let l := records l0 domain os in
  let st := domain_state l domain in
  current_delay st = 1 /\
  _calculate_delay l st = 1 / rps /\
  forall now u,
    (acquire l domain now u).1 =
    if Qlt_le_dec 0 (1 / rps - (now - last_request_time st))
    then Qmax 0 (1 / rps - (now - last_request_time st) + u)
    else 0.
Proof.
  intros Hinit l st. unfold __init__ in Hinit.
  destruct (Qeq_bool rps 0); [done|]. injection Hinit as <-.
  destruct (records_config
    {| _base_delay := 1 / rps; _min_delay := mn; _max_delay := mx;
       _adaptive := false; _jitter := jitter; _domains := ∅ |} domain os)
    as (Hbase & _ & _ & Had & _). fold l in Hbase, Had. cbn in Hbase, Had.
  assert (Hcalc : _calculate_delay l st = 1 / rps).
  { unfold _calculate_delay. by rewrite Had. }
  split; [|split; [done|]].
  - subst st l. by rewrite records_fixed.
  - intros now u. unfold acquire. cbn [fst]. fold st. by rewrite Hcalc.
Qed.

Lemma fixed_rate_witness :
  let l0 := {| _base_delay := 1 / 4; _min_delay := 1 # 2; _max_delay := 10;
               _adaptive := false; _jitter := 3 # 10; _domains := ∅ |} in
  let os := [ {| response_time := 0; success := false; status_code := 429;
                 at_time := 5 |} ] in
  __init__ 4 (1 # 2) 10 false (3 # 10) = Some l0 /\
  current_delay (domain_state (records l0 "a.test" os) "a.test") = 1 /\
  _calculate_delay (records l0 "a.test" os)
    (domain_state (records l0 "a.test" os) "a.test") = 1 / 4.
Proof.
  intros l0 os.
  destruct (fixed_rate 4 (1 # 2) 10 (3 # 10) l0 "a.test" os eq_refl)
    as (Hd & Hc & _).
  split; [reflexivity|]. split; [exact Hd|exact Hc].
Defined.

Lemma record_commute l d1 d2 rt1 ok1 code1 now1 rt2 ok2 code2 now2 :
  d1 <> d2 ->
  record (record l d1 rt1 ok1 code1 now1) d2 rt2 ok2 code2 now2 =
  record (record l d2 rt2 ok2 code2 now2) d1 rt1 ok1 code1 now1.
Proof.
  intros Hne. unfold record. cbn zeta.
  rewrite !domain_state_other by done.
  unfold set_domain. cbn. f_equal. apply insert_insert_ne. congruence.
Qed.

Lemma records_record_commute l d1 d2 rt ok code now os :
  d1 <> d2 ->
  records (record l d1 rt ok code now) d2 os =
  record (records l d2 os) d1 rt ok code now.
Proof.
  intros Hne. revert l. induction os as [|o os IH]; intros l; [done|].
  rewrite !records_cons, <- IH. f_equal. by apply record_commute.
Qed.

(** X12: domains do not interfere: the [record] calls of two different
    domains can be interleaved in any order with the same result, and a
    run of [record] calls for one domain leaves the state of every other
    domain and the limiter's settings as they were. *)
Theorem domains_independent l d1 d2 os1 os2 :
  d1 <> d2 ->
  records (records l d1 os1) d2 os2 = records (records l d2 os2) d1 os1 /\
  domain_state (records l d1 os1) d2 = domain_state l d2 /\
  _min_delay (records l d1 os1) = _min_delay l /\
  _max_delay (records l d1 os1) = _max_delay l.
Proof.
  intros Hne. split; [|split].
  - revert l. induction os1 as [|o os1 IH]; intros l; [done|].
    rewrite !records_cons, IH. by rewrite records_record_commute.
  - induction os1 as [|o os1 IH] using rev_ind; [done|].
    rewrite records_snoc. unfold record. by rewrite domain_state_other.
  - by destruct (records_config l d1 os1) as (_ & -> & -> & _).
Qed.

Lemma domains_independent_witness :
  let o1 := {| response_time := 1 # 5; success := true; status_code := 200;
               at_time := 1 |} in
  let o2 := {| response_time := 0; success := false; status_code := 429;
               at_time := 2 |} in
  "a.test" <> "b.test" /\
  records (records default_limiter "a.test" [o1; o2]) "b.test" [o2] =
  records (records default_limiter "b.test" [o2]) "a.test" [o1; o2].
Proof.
  intros o1 o2. assert (Hne : "a.test" <> "b.test") by discriminate.
  split; [exact Hne|].
  exact (proj1 (domains_independent default_limiter "a.test" "b.test"
                  [o1; o2] [o2] Hne)).
Defined.

Lemma record_delay l domain o :
  _adaptive l = true ->
  current_delay (domain_state
    (record l domain (response_time o) (success o) (status_code o)
       (at_time o)) domain) =
  current_delay (_adjust_delay l
    (record_request (domain_state l domain) (response_time o) (success o)
       (at_time o)) (status_code o)).
Proof. intros Had. unfold record. by rewrite domain_state_set, Had. Qed.

(** What one [record] does to the delay of a domain that is within the
    bounds. *)
Lemma record_delay_moves l domain o :
  _adaptive l = true -> 0 <= _min_delay l ->
  (0 <= consecutive_errors (domain_state l domain))%Z ->
  let d0 := current_delay (domain_state l domain) in
  let l' := record l domain (response_time o) (success o) (status_code o)
              (at_time o) in
  let d := current_delay (domain_state l' domain) in
  within l d0 ->
  within l d /\
  (0 <= consecutive_errors (domain_state l' domain))%Z /\
  (success o = false \/ (400 <= status_code o)%Z -> d0 <= d) /\
  (status_code o = 429%Z -> 0 < d0 -> d0 < _max_delay l -> d0 < d) /\
  (success o = true /\ (status_code o < 400)%Z -> d <= d0).
Proof.
  intros Had Hm Hc d0 l' d [Hlo Hhi].
  assert (Hc' : (0 <= consecutive_errors (domain_state l' domain))%Z).
  { subst l'.
    destruct (record_state l domain (response_time o) (success o)
                (status_code o) (at_time o)) as (_ & _ & _ & -> & _).
    destruct (success o); lia. }
  subst d l'. rewrite record_delay by done. unfold _adjust_delay, within.
  rewrite !record_request_delay. fold d0.
  assert (Hce : consecutive_errors
                  (record_request (domain_state l domain) (response_time o)
                     (success o) (at_time o))
                = if success o then 0%Z
                  else (consecutive_errors (domain_state l domain) + 1)%Z).
  { unfold record_request. by destruct (success o). }
  rewrite Hce. clear Hce.
  rewrite !Z.geb_leb.
  destruct (Z.eqb_spec (status_code o) 429) as [H429|H429];
    cbn [current_delay set_current_delay].
  { split; [split; qminmax|]. split; [done|].
    split; [intros _; qminmax|]. split; [intros _ H0 Hlt; qminmax|].
    intros [_ Hs]. exfalso. lia. }
  destruct (Z.leb_spec 500 (status_code o)) as [H500|H500];
    cbn [current_delay set_current_delay].
  { split; [split; qminmax|]. split; [done|].
    split; [intros _; qminmax|]. split; [done|].
    intros [_ Hs]. exfalso. lia. }
  destruct (success o) eqn:Hok.
  - cbn [Z.leb Z.compare Z.eqb andb].
    destruct (Z.ltb_spec (status_code o) 400) as [H400|H400];
      cbn [current_delay set_current_delay]; rewrite ?record_request_delay;
      fold d0.
    + split; [split; qminmax|]. split; [done|].
      split; [intros [?|?]; [done|exfalso; lia]|]. split; [done|].
      intros _. qminmax.
    + split; [split; lra|]. split; [done|].
      split; [intros _; lra|]. split; [done|]. intros [_ ?]. exfalso. lia.
  - destruct (Z.leb_spec 3 (consecutive_errors (domain_state l domain) + 1))
      as [H3|H3]; cbn [current_delay set_current_delay].
    + split; [split; qminmax|]. split; [done|].
      split; [intros _; qminmax|]. split; [done|]. intros [? _]. done.
    + destruct (Z.eqb_spec (consecutive_errors (domain_state l domain) + 1) 0)
        as [H0|H0]; [exfalso; lia|].
      cbn [andb]. rewrite ?record_request_delay. fold d0.
      split; [split; lra|]. split; [done|].
      split; [intros _; lra|]. split; [done|]. intros [? _]. done.
Qed.

(** X13: how the delay of a domain moves under [record] (adaptive mode,
    [min_delay >= 0], a delay within [[min_delay, max_delay]] to begin
    with).  Any run of calls keeps it within the bounds.  A run of
    outcomes that each failed or carry a status of 400 or more never
    lowers it, and a run of 429 responses raises it strictly when it was
    positive and below [max_delay].  A run of successes with a status
    below 400 never raises it. *)
Theorem backoff_and_recovery l domain os :
  _adaptive l = true -> 0 <= _min_delay l ->
  (0 <= consecutive_errors (domain_state l domain))%Z ->
  let d0 := current_delay (domain_state l domain) in
  let d := current_delay (domain_state (records l domain os) domain) in
  within l d0 ->
  within l d /\
  (Forall (fun o => success o = false \/ (400 <= status_code o)%Z) os ->
   d0 <= d) /\
  (Forall (fun o => status_code o = 429%Z) os -> os <> [] ->
   0 < d0 -> d0 < _max_delay l -> d0 < d) /\
  (Forall (fun o => success o = true /\ (status_code o < 400)%Z) os ->
   d <= d0).
Proof.
  intros Had Hm Hc d0 d Hin. subst d.
  assert (Hmain :
    within l (current_delay (domain_state (records l domain os) domain)) /\
    (0 <= consecutive_errors (domain_state (records l domain os) domain))%Z /\
    (Forall (fun o => success o = false \/ (400 <= status_code o)%Z) os ->
     d0 <= current_delay (domain_state (records l domain os) domain)) /\
    (Forall (fun o => status_code o = 429%Z) os -> os <> [] ->
     0 < d0 -> d0 < _max_delay l ->
     d0 < current_delay (domain_state (records l domain os) domain)) /\
    (Forall (fun o => success o = true /\ (status_code o < 400)%Z) os ->
     current_delay (domain_state (records l domain os) domain) <= d0)).
  { induction os as [|o os IH] using rev_ind.
    { change (records l domain []) with l. fold d0.
      split; [done|]. split; [done|]. split; [intros _; lra|].
      split; [done|]. intros _. lra. }
    destruct IH as (Hin' & Hc' & Hup & Hstrict & Hdown).
    rewrite records_snoc.
    destruct (records_config l domain os) as (_ & Hmin & Hmax & Had' & _).
    destruct (record_delay_moves (records l domain os) domain o)
      as (Hw & Hcc & Hu & Hs & Hd);
      [congruence|by rewrite Hmin|done|
       by unfold within; rewrite Hmin, Hmax|].
    unfold within in Hw. rewrite Hmin, Hmax in Hw. rewrite Hmax in Hs.
    set (d1 := current_delay (domain_state (records l domain os) domain)) in *.
    set (d2 := current_delay (domain_state (record _ _ _ _ _ _) domain)) in *.
    split; [exact Hw|]. split; [exact Hcc|].
    split; [|split].
    - intros [Hos Ho%Forall_inv]%Forall_app.
      specialize (Hup Hos). specialize (Hu Ho). lra.
    - intros [Hos Ho%Forall_inv]%Forall_app _ H0 Hlt.
      assert (Hge : d0 <= d1).
      { apply Hup. eapply Forall_impl; [exact Hos|].
        intros o' Ho'. cbn in Ho'. right. lia. }
      assert (Hge2 : d1 <= d2).
      { apply Hu. right. lia. }
      destruct os as [|o' os'].
      + change (records l domain []) with l in d1. subst d1. fold d0 in Hs.
        by apply Hs.
      + assert (d0 < d1) by (by apply Hstrict). lra.
    - intros [Hos Ho%Forall_inv]%Forall_app.
      specialize (Hdown Hos). specialize (Hd Ho). lra. }
  destruct Hmain as (H1 & _ & H2 & H3 & H4). done.
Qed.

Lemma backoff_and_recovery_witness :
  let o429 := {| response_time := 0; success := false; status_code := 429;
                 at_time := 1 |} in
  let ok := {| response_time := 1 # 5; success := true; status_code := 200;
               at_time := 2 |} in
  let d0 := current_delay (domain_state default_limiter "a.test") in
  let d429 := current_delay
                (domain_state (records default_limiter "a.test" [o429; o429])
                              "a.test") in
  let dok := current_delay
               (domain_state (records default_limiter "a.test" [ok; ok])
                             "a.test") in
  _adaptive default_limiter = true /\ 0 <= _min_delay default_limiter /\
  within default_limiter d0 /\
  within default_limiter d429 /\ d0 < d429 /\ dok <= d0.
Proof.
  intros o429 ok d0 d429 dok.
  assert (Hm : 0 <= _min_delay default_limiter) by (vm_compute; discriminate).
  assert (Hin : within default_limiter d0)
    by (split; vm_compute; discriminate).
  destruct (backoff_and_recovery default_limiter "a.test" [o429; o429]
              eq_refl Hm ltac:(reflexivity) Hin) as (Hw & _ & Hs & _).
  destruct (backoff_and_recovery default_limiter "a.test" [ok; ok]
              eq_refl Hm ltac:(reflexivity) Hin) as (_ & _ & _ & Hd).
  split; [reflexivity|]. split; [exact Hm|]. split; [exact Hin|].
  split; [exact Hw|]. split.
  - apply Hs; [repeat constructor|discriminate|reflexivity|reflexivity].
  - apply Hd. repeat constructor.
Defined.
End RateLimiterProps.

(* ===================================================================== *)
(** ** utils/hash_utils.py: the distance as a metric, [SimHash.compute]    *)
(* ===================================================================== *)

Module SimHashProps.
Import PyStr Hashlib HashUtils SimHash.

Lemma bit_sum_lxor_triangle a b c n :
  bit_sum (Z.lxor a c) n <= bit_sum (Z.lxor a b) n + bit_sum (Z.lxor b c) n.
Proof.
  induction n as [|n IH]; cbn [bit_sum]; [lia|].
  rewrite !Z.lxor_spec.
  destruct (Z.testbit a (Z.of_nat n)), (Z.testbit b (Z.of_nat n)),
    (Z.testbit c (Z.of_nat n)); cbn [xorb Z.b2z]; lia.
Qed.

Lemma ones_zero x : 0 <= x -> ones x = 0%nat -> x = 0.
Proof.
  intros Hx H. destruct x as [|p|p]; [done| |lia].
  pose proof (pos_popcount_pos p). cbn in H. lia.
Qed.

(** X14: on 64-bit values [hamming_distance] is a metric: it returns a
    number between 0 and 64, which is 0 exactly for equal values, does not
    depend on the order of its arguments, and obeys the triangle
    inequality. *)
Theorem hamming_distance_metric fuel h1 h2 h3 :
  (64 <= fuel)%nat ->
  0 <= h1 < 2 ^ 64 -> 0 <= h2 < 2 ^ 64 -> 0 <= h3 < 2 ^ 64 ->
  exists d12 d23 d13,
    hamming_distance fuel h1 h2 = Some d12 /\
    hamming_distance fuel h2 h3 = Some d23 /\
    hamming_distance fuel h1 h3 = Some d13 /\
    hamming_distance fuel h2 h1 = Some d12 /\
    0 <= d12 <= 64 /\ (d12 = 0 <-> h1 = h2) /\ d13 <= d12 + d23.
Proof.
  intros Hfuel H1 H2 H3.
  exists (popcount (Z.lxor h1 h2)), (popcount (Z.lxor h2 h3)),
    (popcount (Z.lxor h1 h3)).
  rewrite !hamming_distance_popcount by done.
  split; [done|]. split; [done|]. split; [done|].
  split; [by rewrite Z.lxor_comm|]. split; [apply popcount_bounds|]. split.
  - pose proof (lxor_range h1 h2 H1 H2) as Hx. rewrite popcount_ones by done.
    split.
    + intros H0. apply Z.lxor_eq, ones_zero; lia.
    + intros ->. by rewrite Z.lxor_nilpotent.
  - apply bit_sum_lxor_triangle.
Qed.

Lemma hamming_distance_metric_witness :
  (64 <= 64)%nat /\ 0 <= 12 < 2 ^ 64 /\ 0 <= 10 < 2 ^ 64 /\ 0 <= 3 < 2 ^ 64 /\
  exists d12 d23 d13,
    hamming_distance 64 12 10 = Some d12 /\
    hamming_distance 64 10 3 = Some d23 /\
    hamming_distance 64 12 3 = Some d13 /\
    hamming_distance 64 10 12 = Some d12 /\
    0 <= d12 <= 64 /\ (d12 = 0 <-> 12 = 10) /\ d13 <= d12 + d23.
Proof.
  assert (H12 : 0 <= 12 < 2 ^ 64) by lia.
  assert (H10 : 0 <= 10 < 2 ^ 64) by lia.
  assert (H3 : 0 <= 3 < 2 ^ 64) by lia.
  split; [apply le_n|]. split; [exact H12|]. split; [exact H10|].
  split; [exact H3|].
  exact (hamming_distance_metric 64 12 10 3 (le_n 64) H12 H10 H3).
Defined.

Lemma hamming_loop_negative fuel : forall x d,
  x < 0 -> hamming_loop fuel x d = None.
Proof.
  induction fuel as [|fuel IH]; intros x d Hx; cbn [hamming_loop];
    destruct (Z.eqb_spec x 0); try lia; [done|].
  apply IH. apply Z.land_neg. lia.
Qed.

(** X15: the distance loop does not end on values of opposite sign: the
    XOR is negative, clearing its lowest one leaves it negative, and no
    number of rounds suffices, neither for [hamming_distance] nor for
    [similarity]. *)
Theorem hamming_distance_diverges fuel hash_bits h1 h2 :
  h1 < 0 <= h2 ->
  hamming_distance fuel h1 h2 = None /\
  hamming_distance fuel h2 h1 = None /\
  similarity hash_bits fuel h1 h2 = None.
Proof.
  intros [Hneg Hpos].
  assert (Hx : Z.lxor h1 h2 < 0).
  { destruct (Z.lt_ge_cases (Z.lxor h1 h2) 0) as [|Hge]; [done|].
    apply Z.lxor_nonneg in Hge. lia. }
  assert (H12 : hamming_distance fuel h1 h2 = None)
    by by apply hamming_loop_negative.
  split; [done|]. split.
  - unfold hamming_distance. rewrite Z.lxor_comm.
    by apply hamming_loop_negative.
  - unfold similarity. by rewrite H12.
Qed.

Lemma hamming_distance_diverges_witness :
  -1 < 0 <= 0 /\ hamming_distance 1000 (-1) 0 = None.
Proof.
  assert (H : -1 < 0 <= 0) by lia.
  split; [exact H|].
  exact (proj1 (hamming_distance_diverges 1000 64 (-1) 0 H)).
Defined.

(** [\w] on ASCII text: a letter, a digit or the underscore. *)
Definition isword (c : ascii) : bool :=
  isalpha c || isdigit c || Ascii.eqb c "_".

(** The run of word characters read so far ([cur], last character first)
    as a match, if there is one. *)
Definition flush (cur : string) : list string :=
  match cur with
  | EmptyString => []
  | _ => [rev cur]
  end.

(** [re.findall(r"\w+", s)]: the maximal runs of word characters, left to
    right. *)
Fixpoint findall_words (cur s : string) : list string :=
  match s with
  | EmptyString => flush cur
  | String c s' =>
      if isword c then findall_words (String c cur) s'
      else flush cur ++ findall_words EmptyString s'
  end.

(** [_tokenize]: the 3-word shingles; [max(1, len(words) - 2)] of them,
    [words[i : i + 3]] joined by a blank. *)
Definition _tokenize (text : string) : list string :=
  let words := findall_words EmptyString (lower text) in
  (fun i => join " " (take 3 (drop i words)))
    <$> seq 0 (Nat.max 1 (length words - 2)).

(** [int(raw, 16)] for a string of hexadecimal digits; [None] is the
    [ValueError] for the empty string and for any other character. *)
Fixpoint int16_loop (s : string) (acc : Z) : option Z :=
  match s with
  | EmptyString => Some acc
  | String c s' =>
      match Urllib.hexval c with
      | Some d => int16_loop s' (16 * acc + Z.of_nat d)
      | None => None
      end
  end.

Definition int16 (s : string) : option Z :=
  match s with
  | EmptyString => None
  | _ => int16_loop s 0
  end.

(** [_string_hash], for [hash_bits >= 0]. *)
Definition _string_hash (hash_bits : Z) (token : string) : option Z :=
  match int16 (md5_hexdigest token) with
  | Some n => Some (n mod 2 ^ hash_bits)
  | None => None
  end.

(** The inner loop of [compute]: one token's vote on every bit.  A
    lookup outside [v] is Python's [IndexError]; it cannot happen, [v] has
    [hash_bits] items. *)
Definition vote (hash_bits : nat) (v : list Z) (token_hash : Z) : list Z :=
  foldl (fun v i =>
           let bit := Z.land (Z.shiftr token_hash (Z.of_nat i)) 1 in
           match v !! i with
           | Some x => <[i := if bit =? 0 then x - 1 else x + 1]> v
           | None => v
           end) v (seq 0 hash_bits).

(** The outer loop. *)
Fixpoint votes (hash_bits : Z) (v : list Z) (tokens : list string)
  : option (list Z) :=
  match tokens with
  | [] => Some v
  | token :: tokens' =>
      match _string_hash hash_bits token with
      | Some token_hash =>
          votes hash_bits (vote (Z.to_nat hash_bits) v token_hash) tokens'
      | None => None
      end
  end.

(** The loop that builds the fingerprint. *)
Definition build (hash_bits : nat) (v : list Z) : Z :=
  foldl (fun fingerprint i =>
           match v !! i with
           | Some x =>
               if x >? 0 then Z.lor fingerprint (Z.shiftl 1 (Z.of_nat i))
               else fingerprint
           | None => fingerprint
           end) 0 (seq 0 hash_bits).

(** [compute], for [hash_bits >= 0]. *)
Definition compute (hash_bits : Z) (text : string) : option Z :=
  match _tokenize text with
  | [] => Some 0
  | tokens =>
      match votes hash_bits (replicate (Z.to_nat hash_bits) 0) tokens with
      | Some v => Some (build (Z.to_nat hash_bits) v)
      | None => None
      end
  end.

Example tokenize_examples :
  _tokenize EmptyString = [EmptyString] /\
  _tokenize "Hello,  World!" = ["hello world"] /\
  _tokenize "a b c d e" = ["a b c"; "b c d"; "c d e"].
Proof. vm_compute. done. Qed.

Example compute_examples :
  compute 64 "Hello,  World!" = Some 10649643932806991299 /\
  compute 64 "a b c d e" = Some 7341877697670813475 /\
  compute 8 "the quick brown fox jumps" = Some 195.
Proof. vm_compute. done. Qed.

(** The vote of hash [h] on bit [i], and the tally of a list of hashes. *)
Definition delta (h : Z) (i : nat) : Z :=
  if Z.testbit h (Z.of_nat i) then 1 else -1.

Definition tally (hs : list Z) (i : nat) : Z :=
  foldr (fun h acc => delta h i + acc) 0 hs.

(** How many of the hashes have bit [i] set. *)
Definition ones_at (i : nat) (hs : list Z) : nat :=
  length (filter (fun h => Z.testbit h (Z.of_nat i) = true) hs).

Lemma le_bytes_range n : forall x,
  Forall (fun b => 0 <= b < 256) (le_bytes n x).
Proof.
  induction n as [|n IH]; intros x; cbn [le_bytes]; constructor; [|done].
  apply Z.mod_pos_bound. lia.
Qed.

Lemma md5_digest_range msg :
  Forall (fun b => 0 <= b < 256) (md5_digest msg) /\ md5_digest msg <> [].
Proof.
  unfold md5_digest.
  destruct (foldl md5_block _ _) as [[[a b] c] d]. split; [|done].
  repeat (apply Forall_app; split); apply le_bytes_range.
Qed.

Lemma hexval_hex_digit n :
  0 <= n < 16 -> Urllib.hexval (hex_digit n) = Some (Z.to_nat n).
Proof.
  intros Hn. assert (Hm : (Z.to_nat n < 16)%nat) by lia.
  rewrite <- (Z2Nat.id n) at 1 by lia. revert Hm.
  generalize (Z.to_nat n). intros m Hm.
  do 16 (destruct m as [|m]; [reflexivity|]). lia.
Qed.

Lemma int16_loop_hex bs : forall acc,
  Forall (fun b => 0 <= b < 256) bs -> 0 <= acc ->
  exists n, int16_loop (hex_of_bytes bs) acc = Some n /\ 0 <= n.
Proof.
  induction bs as [|b bs IH]; intros acc Hbs Hacc; [by exists acc|].
  apply Forall_cons in Hbs as [Hb Hbs]. cbn [hex_of_bytes int16_loop].
  rewrite !hexval_hex_digit by lia.
  apply IH; [done|]. lia.
Qed.

Lemma _string_hash_total hash_bits token :
  0 <= hash_bits ->
  exists h, _string_hash hash_bits token = Some h /\ 0 <= h < 2 ^ hash_bits.
Proof.
  intros Hbits. unfold _string_hash, int16, md5_hexdigest.
  destruct (md5_digest_range (bytes_of_string token)) as [Hr Hne].
  destruct (md5_digest (bytes_of_string token)) as [|b bs] eqn:E; [done|].
  destruct (int16_loop_hex (b :: bs) 0 Hr) as (n & Hn & Hpos); [lia|].
  cbn [hex_of_bytes] in *. rewrite Hn. eexists. split; [done|].
  apply Z.mod_pos_bound. by apply Z.pow_pos_nonneg.
Qed.

Lemma votes_hashes hash_bits tokens : forall v,
  0 <= hash_bits ->
  exists hs,
    mapM (_string_hash hash_bits) tokens = Some hs /\
    length hs = length tokens /\
    Forall (fun h => 0 <= h < 2 ^ hash_bits) hs /\
    votes hash_bits v tokens
    = Some (foldl (vote (Z.to_nat hash_bits)) v hs).
Proof.
  intros v Hbits. revert v. induction tokens as [|t ts IH]; intros v.
  { by exists []. }
  destruct (_string_hash_total hash_bits t Hbits) as (h & Hh & Hr).
  destruct (IH (vote (Z.to_nat hash_bits) v h)) as (hs & Hm & Hl & Hall & Hv).
  exists (h :: hs). cbn [votes mapM]. rewrite Hh, Hv. cbn.
  rewrite Hm. cbn. repeat split; try done; [by rewrite Hl|by constructor].
Qed.

Lemma bit_test h i :
  (Z.land (Z.shiftr h (Z.of_nat i)) 1 =? 0) = negb (Z.testbit h (Z.of_nat i)).
Proof.
  change 1 with (Z.ones 1). rewrite Z.land_ones by lia.
  change (2 ^ 1) with 2. rewrite <- Z.bit0_mod, Z.shiftr_spec by lia.
  rewrite Z.add_0_l. by destruct (Z.testbit h (Z.of_nat i)).
Qed.

Lemma vote_S n v h :
  vote (S n) v h =
  match vote n v h !! n with
  | Some x => <[n := x + delta h n]> (vote n v h)
  | None => vote n v h
  end.
Proof.
  unfold vote. rewrite seq_S, foldl_app. cbn [foldl Nat.add].
  destruct (_ !! n) as [x|]; [|done]. f_equal. unfold delta.
  rewrite bit_test. destruct (Z.testbit h (Z.of_nat n)); cbn; lia.
Qed.

Lemma vote_length n v h : length (vote n v h) = length v.
Proof.
  induction n as [|n IH]; [done|]. rewrite vote_S.
  destruct (_ !! n); [by rewrite length_insert|done].
Qed.

Lemma vote_lookup n v h i :
  (n <= length v)%nat ->
  vote n v h !! i =
  if (i <? n)%nat then (fun x => x + delta h i) <$> v !! i else v !! i.
Proof.
  induction n as [|n IH]; intros Hn; [done|]. rewrite vote_S.
  specialize (IH ltac:(lia)).
  destruct (lookup_lt_is_Some_2 (vote n v h) n) as [x Hx];
    [rewrite vote_length; lia|].
  rewrite Hx. destruct (decide (i = n)) as [->|Hne].
  - rewrite list_lookup_insert_eq by (rewrite vote_length; lia).
    rewrite Nat.ltb_irrefl, Hx in IH. rewrite <- IH.
    by rewrite (proj2 (Nat.ltb_lt n (S n))) by lia.
  - rewrite list_lookup_insert_ne by done. rewrite IH.
    destruct (Nat.ltb_spec i n), (Nat.ltb_spec i (S n)); (done || lia).
Qed.

Lemma foldl_vote_length n hs : forall v,
  length (foldl (vote n) v hs) = length v.
Proof.
  induction hs as [|h hs IH]; intros v; [done|]. cbn.
  by rewrite IH, vote_length.
Qed.

Lemma foldl_vote_lookup n hs i : forall v x,
  (n <= length v)%nat -> (i < n)%nat -> v !! i = Some x ->
  foldl (vote n) v hs !! i = Some (x + tally hs i).
Proof.
  induction hs as [|h hs IH]; intros v x Hn Hi Hx; cbn [foldl].
  { rewrite Hx. unfold tally. cbn. f_equal. lia. }
  change (tally (h :: hs) i) with (delta h i + tally hs i).
  rewrite (IH _ (x + delta h i)); [f_equal; lia|by rewrite vote_length|done|].
  rewrite vote_lookup by done.
  rewrite (proj2 (Nat.ltb_lt i n)) by done. by rewrite Hx.
Qed.

Lemma tally_ones_at hs i :
  tally hs i = 2 * Z.of_nat (ones_at i hs) - Z.of_nat (length hs).
Proof.
  unfold ones_at. induction hs as [|h hs IH]; [done|].
  change (tally (h :: hs) i) with (delta h i + tally hs i).
  cbn [length]. rewrite IH, filter_cons.
  unfold delta. destruct (Z.testbit h (Z.of_nat i)).
  - rewrite decide_True by done. cbn [length]. lia.
  - rewrite decide_False by done. lia.
Qed.

Lemma build_S n v :
  build (S n) v =
  match v !! n with
  | Some x =>
      if x >? 0 then Z.lor (build n v) (Z.shiftl 1 (Z.of_nat n))
      else build n v
  | None => build n v
  end.
Proof. unfold build. by rewrite seq_S, foldl_app. Qed.

Lemma build_range n v : 0 <= build n v < 2 ^ Z.of_nat n.
Proof.
  induction n as [|n IH]; [done|]. rewrite build_S, Nat2Z.inj_succ.
  rewrite Z.pow_succ_r by lia.
  destruct (v !! n) as [x|]; [|lia]. destruct (x >? 0); [|lia].
  rewrite Z.shiftl_1_l.
  assert (Hz : Z.land (build n v) (2 ^ Z.of_nat n) = 0).
  { apply Z.bits_inj'. intros k Hk. rewrite Z.land_spec, Z.bits_0.
    rewrite Z.pow2_bits_eqb by lia.
    destruct (Z.eqb_spec (Z.of_nat n) k) as [<-|]; [|apply andb_false_r].
    rewrite andb_true_r.
    destruct (Z.eq_dec (build n v) 0) as [->|Hne]; [apply Z.bits_0|].
    apply Z.bits_above_log2; [lia|]. apply Z.log2_lt_pow2; lia. }
  rewrite <- Z.lxor_lor, <- Z.add_nocarry_lxor by done.
  pose proof (Z.pow_pos_nonneg 2 (Z.of_nat n)). lia.
Qed.

Lemma build_testbit n v i :
  Z.testbit (build n v) (Z.of_nat i) =
  (i <? n)%nat && match v !! i with Some x => x >? 0 | None => false end.
Proof.
  induction n as [|n IH]; [apply Z.bits_0|]. rewrite build_S.
  assert (Hbit : Z.testbit (Z.shiftl 1 (Z.of_nat n)) (Z.of_nat i)
                 = bool_decide (i = n)).
  { rewrite Z.shiftl_1_l, Z.pow2_bits_eqb by lia.
    case_bool_decide; [apply Z.eqb_eq|apply Z.eqb_neq]; lia. }
  destruct (decide (i = n)) as [->|Hne].
  - rewrite (proj2 (Nat.ltb_lt n (S n))) by lia.
    rewrite Nat.ltb_irrefl in IH. cbn [andb] in *.
    destruct (v !! n) as [x|]; [|done]. destruct (x >? 0); [|done].
    rewrite Z.lor_spec, Hbit, IH. by rewrite bool_decide_eq_true_2.
  - replace (i <? S n)%nat with (i <? n)%nat
      by (destruct (Nat.ltb_spec i n), (Nat.ltb_spec i (S n)); (done || lia)).
    destruct (v !! n) as [x|]; [|done]. destruct (x >? 0); [|done].
    rewrite Z.lor_spec, Hbit, IH. rewrite bool_decide_eq_false_2 by done.
    apply orb_false_r.
Qed.

Lemma _tokenize_length text :
  length (_tokenize text) =
  Nat.max 1 (length (findall_words EmptyString (lower text)) - 2).
Proof. unfold _tokenize. by rewrite length_fmap, length_seq. Qed.

(** What [compute] returns, in terms of the hashes of the shingles. *)
Lemma compute_spec hash_bits text :
  0 <= hash_bits ->
  exists hs fp,
    mapM (_string_hash hash_bits) (_tokenize text) = Some hs /\
    length hs = length (_tokenize text) /\
    Forall (fun h => 0 <= h < 2 ^ hash_bits) hs /\
    compute hash_bits text = Some fp /\
    0 <= fp < 2 ^ hash_bits /\
    forall i, (i < Z.to_nat hash_bits)%nat ->
      Z.testbit fp (Z.of_nat i) = (0 <? tally hs i).
Proof.
  intros Hbits.
  destruct (votes_hashes hash_bits (_tokenize text)
              (replicate (Z.to_nat hash_bits) 0) Hbits)
    as (hs & Hm & Hl & Hall & Hv).
  exists hs, (build (Z.to_nat hash_bits)
                (foldl (vote (Z.to_nat hash_bits))
                   (replicate (Z.to_nat hash_bits) 0) hs)).
  split; [done|]. split; [done|]. split; [done|]. split; [|split].
  - pose proof (_tokenize_length text) as Hlen. revert Hv Hlen.
    unfold compute. destruct (_tokenize text) as [|t ts]; [cbn; lia|].
    by intros -> _.
  - pose proof (build_range (Z.to_nat hash_bits)
      (foldl (vote (Z.to_nat hash_bits))
         (replicate (Z.to_nat hash_bits) 0) hs)) as Hr.
    by rewrite Z2Nat.id in Hr.
  - intros i Hi. rewrite build_testbit.
    rewrite (proj2 (Nat.ltb_lt _ _)) by done.
    rewrite (foldl_vote_lookup _ _ _ _ 0);
      [|by rewrite length_replicate|done|by apply lookup_replicate_2].
    cbn [andb]. rewrite Z.add_0_l. rewrite Z.gtb_ltb. done.
Qed.

(** X16: [compute] always returns a fingerprint (the guard for an empty
    token list never fires: [_tokenize] returns at least one shingle),
    the fingerprint is within [0, 2^hash_bits), and its bit [i] is set
    exactly when more than half of the shingles' hashes have bit [i]
    set. *)
Theorem compute_majority hash_bits text :
  0 <= hash_bits ->
  exists hs fp,
    mapM (_string_hash hash_bits) (_tokenize text) = Some hs /\
    hs <> [] /\
    compute hash_bits text = Some fp /\
    0 <= fp < 2 ^ hash_bits /\
    forall i, (i < Z.to_nat hash_bits)%nat ->
      Z.testbit fp (Z.of_nat i)
      = bool_decide (length hs < 2 * ones_at i hs)%nat.
Proof.
  intros Hbits.
  destruct (compute_spec hash_bits text Hbits)
    as (hs & fp & Hm & Hl & _ & Hc & Hr & Hbit).
  exists hs, fp. split; [done|]. split.
  { intros ->. rewrite _tokenize_length in Hl. cbn in Hl. lia. }
  split; [done|]. split; [done|]. intros i Hi.
  rewrite (Hbit i Hi), tally_ones_at.
  case_bool_decide; [apply Z.ltb_lt|apply Z.ltb_ge]; lia.
Qed.

Lemma compute_majority_witness :
  0 <= 8 /\
  exists hs fp,
    mapM (_string_hash 8) (_tokenize "the quick brown fox jumps") = Some hs /\
    hs <> [] /\
    compute 8 "the quick brown fox jumps" = Some fp /\
    0 <= fp < 2 ^ 8 /\
    forall i, (i < Z.to_nat 8)%nat ->
      Z.testbit fp (Z.of_nat i)
      = bool_decide (length hs < 2 * ones_at i hs)%nat.
Proof.
  assert (H : 0 <= 8) by lia. split; [exact H|].
  exact (compute_majority 8 "the quick brown fox jumps" H).
Defined.

(** X17: a text of at most three words has one shingle, and its
    fingerprint is that shingle's hash; a text without any word is hashed
    as the empty shingle, so its fingerprint is not 0 (for 64 bits it is
    the low half of the MD5 of the empty string). *)
Theorem compute_single_shingle hash_bits text :
  0 <= hash_bits ->
  (length (findall_words EmptyString (lower text)) <= 3)%nat ->
  _tokenize text
    = [join " " (findall_words EmptyString (lower text))] /\
  compute hash_bits text
    = _string_hash hash_bits
        (join " " (findall_words EmptyString (lower text))) /\
  (findall_words EmptyString (lower text) = [] ->
   _tokenize text = [EmptyString] /\
   compute 64 text = Some 16825458760271544958).
Proof.
  intros Hbits Hlen.
  assert (Htok : _tokenize text
                 = [join " " (findall_words EmptyString (lower text))]).
  { unfold _tokenize.
    replace (Nat.max 1 (length (findall_words EmptyString (lower text)) - 2))
      with 1%nat by lia.
    cbn [seq fmap list_fmap]. rewrite drop_0. by rewrite take_ge by lia. }
  assert (Hcomp : forall bits, 0 <= bits -> compute bits text
    = _string_hash bits (join " " (findall_words EmptyString (lower text)))).
  { intros bits Hb.
    destruct (compute_spec bits text Hb)
      as (hs & fp & Hm & Hl & Hall & Hc & Hr & Hbit).
    rewrite Htok in Hm, Hl. cbn in Hm.
    destruct (_string_hash bits _) as [h|] eqn:Hh; [|done].
    cbn in Hm. injection Hm as <-. rewrite Hc. f_equal.
    apply Forall_inv in Hall.
    apply Z.bits_inj'. intros k Hk.
    destruct (Z.lt_ge_cases k bits) as [Hlt|Hge].
    - rewrite <- (Z2Nat.id k) by done. rewrite Hbit by lia.
      unfold tally, delta. cbn [foldr].
      by destruct (Z.testbit h (Z.of_nat (Z.to_nat k))).
    - assert (Hhi : forall x, 0 <= x < 2 ^ bits -> Z.testbit x k = false).
      { intros x Hx. destruct (Z.eq_dec x 0) as [->|]; [apply Z.bits_0|].
        apply Z.bits_above_log2; [lia|].
        assert (Z.log2 x < bits) by (apply Z.log2_lt_pow2; lia). lia. }
      by rewrite !Hhi. }
  split; [done|]. split; [by apply Hcomp|]. intros Hnil.
  split; [by rewrite Htok, Hnil|].
  rewrite Hcomp, Hnil by done. vm_compute. reflexivity.
Qed.

Lemma compute_single_shingle_witness :
  0 <= 64 /\
  (length (findall_words EmptyString (lower "Hello,  World!")) <= 3)%nat /\
  _tokenize "Hello,  World!" = ["hello world"] /\
  compute 64 "Hello,  World!" = _string_hash 64 "hello world".
Proof.
  assert (H : 0 <= 64) by lia.
  assert (Hlen : (length (findall_words EmptyString
                            (lower "Hello,  World!")) <= 3)%nat)
    by (vm_compute; lia).
  destruct (compute_single_shingle 64 "Hello,  World!" H Hlen)
    as (Ht & Hc & _).
  split; [exact H|]. split; [exact Hlen|]. split; [exact Ht|exact Hc].
Defined.

End SimHashProps.

(* ===================================================================== *)
(** ** core/crawler_engine.py: link admission and the worker's counters    *)
(* ===================================================================== *)

Module EngineProps.
Import HashUtils Frontier Engine FrontierProps.

(** Rounds of the worker loop, one after the other: [worker_steps follow
    st st'] when [st'] comes from [st] by rounds that did not break out
    of the loop. *)
Inductive worker_steps (follow : bool) (st0 : EngineState)
  : EngineState -> Prop :=
| worker_steps_refl : worker_steps follow st0 st0
| worker_steps_round st result now st' :
    worker_steps follow st0 st ->
    worker_round follow st result now = Some st' ->
    worker_steps follow st0 st'.

(** What one [add] does to the queue and to the counters. *)
Lemma add_growth f u d prio par meta now :
  let r := add f u d prio par meta now in
  let grown := Z.of_nat (length (_queue r.2)) - Z.of_nat (length (_queue f)) in
  0 <= grown <= 1 /\
  _total_added r.2 - _total_added f = grown /\
  _max_depth r.2 = _max_depth f /\
  _crawled_urls r.2 = _crawled_urls f /\
  _failed_urls r.2 = _failed_urls f /\
  (_max_depth f < d -> _queue r.2 = _queue f) /\
  forall e, e ∈ _queue r.2 ->
    e ∈ _queue f \/
    (e = new_entry u d prio par meta now /\ d <= _max_depth f /\
     url_hash u ∉ _seen_urls f).
Proof.
  assert (Hsame : forall f' : URLFrontier,
    _queue f' = _queue f -> _total_added f' = _total_added f ->
    _max_depth f' = _max_depth f -> _crawled_urls f' = _crawled_urls f ->
    _failed_urls f' = _failed_urls f ->
    0 <= Z.of_nat (length (_queue f')) - Z.of_nat (length (_queue f)) <= 1 /\
    _total_added f' - _total_added f
    = Z.of_nat (length (_queue f')) - Z.of_nat (length (_queue f)) /\
    _max_depth f' = _max_depth f /\
    _crawled_urls f' = _crawled_urls f /\
    _failed_urls f' = _failed_urls f /\
    (_max_depth f < d -> _queue f' = _queue f) /\
    forall e, e ∈ _queue f' ->
      e ∈ _queue f \/
      (e = new_entry u d prio par meta now /\ d <= _max_depth f /\
       url_hash u ∉ _seen_urls f)).
  { intros f' Hq Ht Hmd Hc Hf. rewrite Hq, Ht.
    split; [lia|]. split; [lia|]. split; [done|]. split; [done|].
    split; [done|]. split; [done|]. intros e He. by left. }
  cbn zeta. unfold add. case_bool_decide as Hseen; [by apply Hsame|].
  destruct (Z.gtb_spec d (_max_depth f)) as [Hd|Hd]; [by apply Hsame|].
  destruct (_ >=? _); [by apply Hsame|].
  cbn [fst snd _queue _total_added _max_depth _crawled_urls _failed_urls].
  pose proof (Heapq.heappush_perm entry_lt (_queue f)
                (new_entry u d prio par meta now)) as Hperm.
  assert (Hlen : length (Heapq.heappush entry_lt (_queue f)
                           (new_entry u d prio par meta now))
                 = S (length (_queue f))) by by rewrite Hperm.
  rewrite Hlen.
  split; [lia|]. split; [lia|]. split; [done|]. split; [done|].
  split; [done|]. split; [intros; lia|].
  intros e He. rewrite Hperm in He.
  apply elem_of_cons in He as [->|He]; [right|by left]. done.
Qed.

Lemma add_links_steps links : forall f d prio par now,
  steps f (add_links f links d prio par now).
Proof.
  induction links as [|l links IH]; intros f d prio par now; cbn;
    [apply steps_refl|].
  eapply steps_trans; [apply steps_add, steps_refl|apply IH].
Qed.

Lemma add_links_growth links : forall f d prio par now,
  let f' := add_links f links d prio par now in
  let grown := Z.of_nat (length (_queue f')) - Z.of_nat (length (_queue f)) in
  0 <= grown <= Z.of_nat (length links) /\
  _total_added f' - _total_added f = grown /\
  _max_depth f' = _max_depth f /\
  (_max_depth f < d -> _queue f' = _queue f) /\
  forall e, e ∈ _queue f' ->
    e ∈ _queue f \/
    (url e ∈ links /\ depth e = d /\ priority e = value prio /\
     parent_url e = par /\ d <= _max_depth f).
Proof.
  induction links as [|l links IH]; intros f d prio par now.
  { cbn. repeat split; try lia. by left. }
  cbn [add_links length].
  destruct (add_growth f l d prio par None now)
    as (Hg & Ht & Hmd & _ & _ & Hdeep & Hnew). cbn zeta in *.
  destruct (IH (add f l d prio par None now).2 d prio par now)
    as (IHg & IHt & IHmd & IHdeep & IHnew). cbn zeta in *.
  split; [lia|]. split; [lia|]. split; [congruence|]. split.
  - intros Hd. rewrite IHdeep by lia. by apply Hdeep.
  - intros e [[He|(-> & Hd & _)]%Hnew|(Hu & He)]%IHnew.
    + by left.
    + right. cbn. split; [by left|done].
    + right. split; [by right|]. rewrite Hmd in He. done.
Qed.

Lemma process_links_grown follow f internal external par d now :
  let f' := _process_links follow f internal external par d now in
  0 <= Z.of_nat (length (_queue f')) - Z.of_nat (length (_queue f)) /\
  _total_added f' - _total_added f
  = Z.of_nat (length (_queue f')) - Z.of_nat (length (_queue f)).
Proof.
  cbn zeta. unfold _process_links.
  destruct (add_links_growth internal f d NORMAL par now) as (Hg & Ht & _).
  cbn zeta in *. destruct follow; [|lia].
  destruct (add_links_growth (take 10 external)
              (add_links f internal d NORMAL par now) d DEFERRED par now)
    as (Hg' & Ht' & _). cbn zeta in *. lia.
Qed.

(** X18: what [_process_links] admits: the queue grows by at most
    [len(internal)] entries, plus at most 10 of the external links when
    they are followed; [total_added] grows by as much; every new entry
    carries the given depth and parent, priority NORMAL for an internal
    and DEFERRED for an external link; and when the depth is beyond
    [max_depth] nothing is enqueued at all. *)
Theorem process_links_bounded follow f internal external par d now :
  let f' := _process_links follow f internal external par d now in
  let grown := Z.of_nat (length (_queue f')) - Z.of_nat (length (_queue f)) in
  0 <= grown <=
    Z.of_nat (length internal)
    + (if follow then Z.min 10 (Z.of_nat (length external)) else 0) /\
  _total_added f' - _total_added f = grown /\
  (forall e, e ∈ _queue f' ->
     e ∈ _queue f \/
     (depth e = d /\ parent_url e = par /\ d <= _max_depth f /\
      ((priority e = 2 /\ url e ∈ internal) \/
       (follow = true /\ priority e = 4 /\ url e ∈ take 10 external)))) /\
  (_max_depth f < d -> _queue f' = _queue f).
Proof.
  cbn zeta. unfold _process_links.
  destruct (add_links_growth internal f d NORMAL par now)
    as (Hg & Ht & Hmd & Hdeep & Hnew). cbn zeta in *.
  set (fi := add_links f internal d NORMAL par now) in *.
  destruct follow; [|repeat split; try lia; [|done]].
  - destruct (add_links_growth (take 10 external) fi d DEFERRED par now)
      as (Hg' & Ht' & Hmd' & Hdeep' & Hnew'). cbn zeta in *.
    rewrite length_take in Hg'. split; [lia|]. split; [lia|]. split.
    + intros e [[He|He]%Hnew|He]%Hnew'; [by left|right..].
      * destruct He as (? & ? & ? & ? & ?). repeat split; auto.
      * destruct He as (? & ? & ? & ? & ?). rewrite Hmd in *.
        repeat split; auto.
    + intros Hd. rewrite Hdeep' by lia. by apply Hdeep.
  - intros e [He|He]%Hnew; [by left|right].
    destruct He as (? & ? & ? & ? & ?). repeat split; auto.
Qed.

(** What the worker keeps between rounds. *)
Record accounted (st : EngineState) : Prop := {
  acc_counters : counters_ok (frontier st);
  acc_total :
    _total_added (frontier st)
    = Z.of_nat (length (_queue (frontier st)))
      + pages_crawled st + pages_failed st;
  acc_crawled : crawled_count (frontier st) = pages_crawled st;
  acc_failed :
    0 <= Z.of_nat (base.size (_failed_urls (frontier st))) <= pages_failed st;
  acc_retired :
    forall h, h ∈ _crawled_urls (frontier st) -> retired h (frontier st);
}.

Lemma _process_links_steps follow f internal external par d now :
  steps f (_process_links follow f internal external par d now).
Proof.
  unfold _process_links. destruct follow; [|apply add_links_steps].
  eapply steps_trans; apply add_links_steps.
Qed.

Lemma handle_entry_accounted follow st e f1 result now :
  accounted st -> get (frontier st) = (Some e, f1) ->
  accounted (handle_entry follow
    {| frontier := f1; pages_crawled := pages_crawled st;
       pages_failed := pages_failed st |} e result now).
Proof.
  intros [Hok Htot Hcr Hfl Hret] Hget.
  pose proof (get_counters_ok _ Hok) as Hok1. rewrite Hget in Hok1.
  cbn [snd] in Hok1.
  pose proof (get_total_added (frontier st)) as Hadded.
  rewrite Hget in Hadded. cbn [snd] in Hadded.
  pose proof Hget as (q & Hpop & Hq & Hseen & Hcrawled & Hfailed & _)%get_pops.
  pose proof (Heapq.heappop_perm _ _ _ _ Hpop) as Hperm.
  assert (Hlen : Z.of_nat (length (_queue (frontier st)))
                 = Z.of_nat (length (_queue f1)) + 1).
  { rewrite Hperm, Hq. cbn [length]. lia. }
  assert (Hin : url_hash (url e) ∈ hashes (_queue (frontier st))).
  { apply elem_of_hashes. exists e. split; [|done]. rewrite Hperm. by left. }
  assert (Hret1 : retired (url_hash (url e)) f1).
  { split.
    - rewrite Hseen. apply (ok_queue_seen _ Hok). rewrite Hperm. by left.
    - pose proof (ok_nodup _ Hok) as Hnd.
      rewrite (hashes_perm _ _ Hperm) in Hnd. cbn in Hnd.
      apply NoDup_cons in Hnd as [Hnot _]. by rewrite Hq. }
  assert (Hold : forall h, h ∈ _crawled_urls f1 -> retired h f1).
  { intros h Hh. rewrite Hcrawled in Hh.
    apply (steps_retired h (frontier st)); [by apply Hret|].
    replace f1 with (get (frontier st)).2 by by rewrite Hget.
    apply steps_get, steps_refl. }
  assert (Hfresh : url_hash (url e) ∉ _crawled_urls (frontier st)).
  { intros Hc. by destruct (Hret _ Hc) as [_ Hnot]. }
  destruct result as [internal external| |];
    cbn [handle_entry frontier pages_crawled pages_failed]; cbv zeta.
  - set (fm := mark_crawled f1 (url e)).
    pose proof (_process_links_steps follow fm internal external (url e)
                  (depth e + 1) now) as Hsteps.
    destruct (process_links_grown follow fm internal external (url e)
                (depth e + 1) now) as (Hg & Ht).
    destruct (_process_links_fields follow fm internal external (url e)
                (depth e + 1) now) as (Hc & Hf & _).
    set (fp := _process_links follow fm internal external (url e)
                 (depth e + 1) now) in *. clearbody fp.
    assert (Hokm : counters_ok fm) by by destruct Hok1.
    assert (Hfm : _total_added fm = _total_added f1 /\
                  _queue fm = _queue f1) by done.
    destruct Hfm as [Hfm1 Hfm2]. rewrite Hfm1, Hfm2 in Ht.
    rewrite Hfm2 in Hg.
    split; cbn [frontier pages_crawled pages_failed].
    + by apply (steps_counters_ok fm).
    + lia.
    + unfold crawled_count in *. rewrite Hc. subst fm. cbn.
      rewrite Hcrawled, size_union by (apply disjoint_singleton_r; exact Hfresh).
      rewrite size_singleton. lia.
    + rewrite Hf. subst fm. cbn. by rewrite Hfailed.
    + intros h Hh. rewrite Hc in Hh. apply (steps_retired h fm); [|done].
      subst fm. cbn in Hh. apply elem_of_union in Hh as [Hh|Hh%elem_of_singleton].
      * destruct (Hold h Hh). by split.
      * subst h. destruct Hret1. by split.
  - split; cbn [frontier pages_crawled pages_failed].
    + done.
    + lia.
    + unfold crawled_count in *. by rewrite Hcrawled.
    + rewrite Hfailed. lia.
    + done.
  - cbn [mark_failed].
    set (fm := {| _max_depth := _max_depth f1; _max_urls := _max_urls f1;
                  _queue := _queue f1; _seen_urls := _seen_urls f1;
                  _crawled_urls := _crawled_urls f1;
                  _failed_urls := <[url_hash (url e) :=
                    default 0 (_failed_urls f1 !! url_hash (url e)) + 1]>
                      (_failed_urls f1);
                  _not_empty := _not_empty f1;
                  _total_added := _total_added f1;
                  _total_duplicates_skipped :=
                    _total_duplicates_skipped f1 |}).
    assert (Hokm : counters_ok fm) by by destruct Hok1.
    assert (Hsize : 0 <= Z.of_nat (base.size (_failed_urls fm))
                    <= pages_failed st + 1).
    { subst fm. cbn. rewrite Hfailed.
      destruct (_failed_urls (frontier st) !! url_hash (url e)) eqn:E.
      - rewrite map_size_insert_Some by done. lia.
      - rewrite map_size_insert_None by done. lia. }
    assert (Hadd : forall fa,
      fa = fm \/ fa = (add fm (url e) (depth e) LOW EmptyString None now).2 ->
      accounted {| frontier := fa; pages_crawled := pages_crawled st;
                   pages_failed := pages_failed st + 1 |}).
    { assert (Hrej : let fa := (add fm (url e) (depth e) LOW EmptyString
                                  None now).2 in
        _queue fa = _queue fm /\ _total_added fa = _total_added fm /\
        _seen_urls fa = _seen_urls fm /\
        _crawled_urls fa = _crawled_urls fm /\
        _failed_urls fa = _failed_urls fm).
      { unfold add. rewrite bool_decide_eq_true_2; [done|].
        subst fm. cbn. by destruct Hret1. }
      intros fa [->| ->].
      - split; cbn [frontier pages_crawled pages_failed].
        + done.
        + subst fm. cbn. lia.
        + unfold crawled_count in *. subst fm. cbn. by rewrite Hcrawled.
        + done.
        + intros h Hh. destruct (Hold h Hh). by split.
      - destruct Hrej as (Hq' & Ht' & Hs' & Hc' & Hf').
        split; cbn [frontier pages_crawled pages_failed].
        + by apply add_counters_ok.
        + rewrite Hq', Ht'. subst fm. cbn. lia.
        + unfold crawled_count in *. rewrite Hc'. subst fm. cbn.
          by rewrite Hcrawled.
        + by rewrite Hf'.
        + intros h Hh. rewrite Hc' in Hh. destruct (Hold h Hh) as [H1 H2].
          split; [by rewrite Hs'|by rewrite Hq']. }
    destruct (_ <? 3); apply Hadd; auto.
Qed.

Lemma worker_steps_accounted follow st0 st :
  accounted st0 -> worker_steps follow st0 st -> accounted st.
Proof.
  intros H0. induction 1 as [|st result now st' _ IH Hround]; [done|].
  revert Hround. unfold worker_round.
  destruct (get (frontier st)) as [[e|] f1] eqn:Hget.
  - intros [= <-]. by apply handle_entry_accounted.
  - destruct (is_empty f1); [done|]. intros [= <-].
    destruct IH as [Hok Htot Hcr Hfl Hret].
    assert (Hf1 : f1 = frontier st \/ f1 = set_not_empty (frontier st) false).
    { revert Hget. unfold get. destruct (negb _); [intros [= <-]; by left|].
      destruct (Heapq.heappop _ _) as [[? ?]|]; [done|].
      intros [= <-]. by right. }
    destruct Hf1 as [->| ->]; split; cbn; try done; by destruct Hok.
Qed.

(** X19: the books of a worker balance.  After any number of rounds of
    the worker loop, started on the seeded frontier, every URL that was
    ever admitted is either still in the queue or has been counted once,
    as crawled or as failed; [pages_crawled] is the number of distinct
    crawled URLs; and at most [pages_failed] URLs have a failure
    count. *)
Theorem worker_accounting follow max_depth max_urls seed_url now st :
  worker_steps follow (start max_depth max_urls seed_url now) st ->
  let s := get_stats (frontier st) in
  total_added s = queue_size s + pages_crawled st + pages_failed st /\
  total_crawled s = pages_crawled st /\
  0 <= total_failed s <= pages_failed st /\
  total_seen s = total_added s.
Proof.
  intros Hsteps.
  assert (H0 : accounted (start max_depth max_urls seed_url now)).
  { unfold start. split; cbn [frontier pages_crawled pages_failed].
    - apply (reachable_counters_ok max_depth max_urls).
      apply steps_add, steps_refl.
    - destruct (add_growth (init max_depth max_urls) seed_url 0 CRITICAL
                  EmptyString None now) as (_ & Ht & _). cbn in Ht |- *. lia.
    - destruct (add_growth (init max_depth max_urls) seed_url 0 CRITICAL
                  EmptyString None now) as (_ & _ & _ & Hc & _).
      unfold crawled_count. by rewrite Hc.
    - destruct (add_growth (init max_depth max_urls) seed_url 0 CRITICAL
                  EmptyString None now) as (_ & _ & _ & _ & Hf & _).
      by rewrite Hf.
    - destruct (add_growth (init max_depth max_urls) seed_url 0 CRITICAL
                  EmptyString None now) as (_ & _ & _ & Hc & _).
      rewrite Hc. cbn. by intros h ?%elem_of_empty. }
  destruct (worker_steps_accounted _ _ _ H0 Hsteps)
    as [Hok Htot Hcr Hfl _].
  cbn zeta. unfold get_stats, Frontier.size. cbn.
  repeat split; try done; try lia. apply (ok_seen_size _ Hok).
Qed.

Lemma worker_accounting_witness :
  let page := PageData ["http://a.test/a"; "http://a.test/b"] [] in
  exists st,
    worker_round false seed_state page 1 = Some st /\
    worker_steps false (start 3 100 "http://a.test/" 0) st /\
    total_added (get_stats (frontier st))
    = queue_size (get_stats (frontier st)) + pages_crawled st
      + pages_failed st /\
    total_added (get_stats (frontier st)) = 3 /\ pages_crawled st = 1.
Proof.
  intros page.
  destruct (worker_round false seed_state page 1) as [st|] eqn:Hround;
    [|vm_compute in Hround; discriminate].
  exists st.
  assert (Hsteps : worker_steps false (start 3 100 "http://a.test/" 0) st)
    by (eapply worker_steps_round; [apply worker_steps_refl|exact Hround]).
  split; [reflexivity|]. split; [exact Hsteps|].
  split; [exact (proj1 (worker_accounting false 3 100 "http://a.test/" 0 st
                          Hsteps))|].
  vm_compute in Hround. injection Hround as <-. vm_compute. done.
Defined.
End EngineProps.

(* ===================================================================== *)
(** ** core/url_normalizer.py: the shape of normalized URLs               *)
(* ===================================================================== *)

Module NormalizerProps.
Import PyStr Urllib Normalizer UrlHashProps.

Lemma append_assoc a b c : (a +:+ b) +:+ c = a +:+ (b +:+ c).
Proof.
  induction a as [|x a IH]; [done|].
  change ((String x a +:+ b) +:+ c) with (String x ((a +:+ b) +:+ c)).
  by rewrite IH.
Qed.

Lemma startswith_nil s : startswith s EmptyString = true.
Proof. by destruct s. Qed.

Lemma startswith_app_l a b p :
  startswith a p = true -> startswith (a +:+ b) p = true.
Proof.
  revert a. induction p as [|x p IH]; intros a;
    [intros _; apply startswith_nil|].
  destruct a as [|y a]; [cbn; done|].
  change (String y a +:+ b) with (String y (a +:+ b)). cbn [startswith].
  destruct (decide (x = y)); [apply IH|done].
Qed.

Lemma startswith_app_same s a p :
  startswith a p = true -> startswith (s +:+ a) (s +:+ p) = true.
Proof.
  intros H. induction s as [|x s IH]; [done|].
  change (String x s +:+ a) with (String x (s +:+ a)).
  change (String x s +:+ p) with (String x (s +:+ p)). cbn [startswith].
  by rewrite decide_True.
Qed.

Lemma urlunparse_scheme sch nl pa pr q fr :
  sch <> EmptyString -> str_in sch uses_netloc = true ->
  startswith (urlunparse sch nl pa pr q fr) (sch +:+ "://") = true.
Proof.
  intros Hne Hin. unfold urlunparse, urlunsplit.
  set (url0 := if String.eqb pr EmptyString then pa else pa +:+ ";" +:+ pr).
  rewrite Hin. destruct (String.eqb_spec sch EmptyString) as [|_]; [done|].
  cbn [negb andb].
  assert (Hmain : forall url, startswith url "//" = true ->
    startswith
      (if String.eqb fr EmptyString
       then if String.eqb q EmptyString then sch +:+ ":" +:+ url
            else (sch +:+ ":" +:+ url) +:+ "?" +:+ q
       else (if String.eqb q EmptyString then sch +:+ ":" +:+ url
             else (sch +:+ ":" +:+ url) +:+ "?" +:+ q) +:+ "#" +:+ fr)
      (sch +:+ "://") = true).
  { intros url Hurl.
    assert (H0 : startswith (sch +:+ ":" +:+ url) (sch +:+ "://") = true).
    { apply startswith_app_same.
      change (":" +:+ url) with (String ":" url).
      change ("://") with (String ":" "//"). cbn [startswith].
      by rewrite decide_True. }
    destruct (String.eqb fr EmptyString), (String.eqb q EmptyString);
      [exact H0|by apply startswith_app_l|by apply startswith_app_l|
       by do 2 apply startswith_app_l]. }
  destruct (negb (String.eqb nl EmptyString) || negb (startswith url0 "//"))
    eqn:Hc.
  - apply Hmain. by apply startswith_app_l.
  - apply Hmain. apply orb_false_iff in Hc as [_ Hc].
    by apply negb_false_iff in Hc.
Qed.

(** X20: whatever [normalize] returns starts with [http://] or
    [https://]: the scheme is lowercased, limited to the two allowed
    ones, and always followed by [//], also when the host is empty. *)
Theorem normalize_scheme urljoin check self url base n :
  normalize urljoin check self url base = Some n ->
  startswith n "http://" = true \/ startswith n "https://" = true.
Proof.
  unfold normalize.
  destruct (parsed_url urljoin check url base) as [parsed|]; [|done].
  destruct (negb (str_in _ _)) eqn:Hsch; [done|].
  destruct (existsb _ _); [done|].
  destruct (hostname parsed) as [h|]; [|done].
  destruct (port parsed) as [po|]; [|done]. intros [= <-].
  apply negb_false_iff, str_in_spec in Hsch.
  apply elem_of_cons in Hsch as [->|Hsch]; [left|right].
  - by apply (urlunparse_scheme "http").
  - apply elem_of_cons in Hsch as [->|Hsch]; [|by apply elem_of_nil in Hsch].
    by apply (urlunparse_scheme "https").
Qed.

Lemma normalize_scheme_witness :
  normalize_url "HTTPS://Example.COM:443/a/../b/?utm_source=x#top"
    = Some "https://example.com/b" /\
  (startswith "https://example.com/b" "http://" = true \/
   startswith "https://example.com/b" "https://" = true).
Proof.
  assert (H : normalize_url
                "HTTPS://Example.COM:443/a/../b/?utm_source=x#top"
              = Some "https://example.com/b") by (vm_compute; reflexivity).
  split; [exact H|].
  exact (normalize_scheme _ _ _ _ _ _ H).
Defined.

(** [s] holds two slashes in a row. *)
Fixpoint dslash (s : string) : bool :=
  match s with
  | EmptyString => false
  | String a r => (Ascii.eqb a "/" && startswith r "/") || dslash r
  end.

(** The number of empty strings in a list. *)
Definition count_empty (l : list string) : nat :=
  length (filter (fun s => s = EmptyString) l).

Lemma startswith_slash s :
  startswith s "/" = match s with
                     | String a _ => Ascii.eqb a "/"
                     | EmptyString => false
                     end.
Proof.
  destruct s as [|a r]; [done|]. cbn [startswith].
  destruct (Ascii.eqb_spec a "/") as [->|Hne].
  - rewrite decide_True by done. by destruct r.
  - by rewrite decide_False by congruence.
Qed.

Lemma collapse_slashes_head s :
  startswith (collapse_slashes s) "/" = startswith s "/".
Proof.
  induction s as [|c r IH]; [done|]. cbn [collapse_slashes].
  destruct (Ascii.eqb_spec c "/") as [->|Hne]; cbn [andb].
  - destruct (startswith r "/") eqn:Hr;
      [by rewrite IH, startswith_slash|by rewrite !startswith_slash].
  - rewrite !startswith_slash. by apply Ascii.eqb_neq in Hne as ->.
Qed.

Lemma collapse_slashes_dslash s : dslash (collapse_slashes s) = false.
Proof.
  induction s as [|c r IH]; [done|]. cbn [collapse_slashes].
  destruct (Ascii.eqb c "/" && startswith r "/") eqn:Hc; [done|].
  cbn [dslash]. by rewrite collapse_slashes_head, Hc, IH.
Qed.

Lemma count_empty_cons x l :
  count_empty (x :: l)
  = ((if decide (x = EmptyString) then 1 else 0) + count_empty l)%nat.
Proof. unfold count_empty. rewrite filter_cons. by destruct (decide _). Qed.

Lemma split_cons c a s :
  split c (String a s) =
  if Ascii.eqb a c then EmptyString :: split c s
  else match split c s with
       | h :: t => String a h :: t
       | [] => [String a EmptyString]
       end.
Proof. done. Qed.

Lemma split_head_slash s :
  startswith s "/" = true -> exists t, split "/" s = EmptyString :: t.
Proof.
  rewrite startswith_slash. destruct s as [|a r]; [done|].
  intros Ha. rewrite split_cons, Ha. eauto.
Qed.

Lemma split_count s :
  dslash s = false ->
  (count_empty (split "/" s) <= 2)%nat /\
  (startswith s "/" = false -> (count_empty (split "/" s) <= 1)%nat).
Proof.
  induction s as [|a r IH].
  { intros _. change (split "/" EmptyString) with [EmptyString].
    rewrite count_empty_cons, decide_True by done.
    change (count_empty []) with 0%nat. split; [lia|intros _; lia]. }
  cbn [dslash]. intros [Ha Hr]%orb_false_iff. destruct (IH Hr) as [IH2 IH1].
  rewrite split_cons, (startswith_slash (String a r)).
  destruct (Ascii.eqb a "/") eqn:Ea; cbn [andb] in Ha.
  - rewrite count_empty_cons, decide_True by done. specialize (IH1 Ha).
    split; [lia|done].
  - assert (Hle : (match split "/" r with
                   | h :: t => count_empty (String a h :: t)
                   | [] => count_empty [String a EmptyString]
                   end <= 1)%nat).
    { destruct (startswith r "/") eqn:Hs.
      - destruct (split_head_slash r Hs) as [t Ht]. rewrite Ht in IH2 |- *.
        rewrite count_empty_cons in IH2 |- *.
        rewrite decide_True in IH2 by done. rewrite decide_False by done. lia.
      - specialize (IH1 eq_refl). destruct (split "/" r) as [|h t].
        + rewrite count_empty_cons. change (count_empty []) with 0%nat.
          rewrite decide_False by done. lia.
        + rewrite count_empty_cons in IH1 |- *.
          rewrite decide_False by done. lia. }
    destruct (split "/" r); split; (done || lia).
Qed.

Lemma split_no_slash c s : Forall (fun x => contains c x = false) (split c s).
Proof.
  induction s as [|a r IH]; [by repeat constructor|]. rewrite split_cons.
  destruct (Ascii.eqb a c) eqn:Ea; [by constructor|].
  destruct (split c r) as [|h t].
  - repeat constructor. cbn. by rewrite Ea.
  - apply Forall_cons in IH as [Hh Ht]. constructor; [|done].
    cbn. by rewrite Ea, Hh.
Qed.

Lemma resolve_segment_count acc seg :
  (count_empty (resolve_segment acc seg)
   <= count_empty acc + count_empty [seg])%nat.
Proof.
  unfold resolve_segment. destruct (String.eqb seg "."); [lia|].
  destruct (String.eqb seg "..").
  - destruct acc as [|last rest]; [rewrite !count_empty_cons; lia|].
    destruct (String.eqb last EmptyString);
      rewrite !count_empty_cons; repeat case_match; lia.
  - rewrite !count_empty_cons. lia.
Qed.

Lemma resolve_segments_count segs : forall acc,
  (count_empty (foldl resolve_segment acc segs)
   <= count_empty acc + count_empty segs)%nat.
Proof.
  induction segs as [|seg segs IH]; intros acc; cbn [foldl]; [lia|].
  etrans; [apply IH|]. pose proof (resolve_segment_count acc seg) as H.
  rewrite !count_empty_cons in *. change (count_empty []) with 0%nat in H.
  lia.
Qed.

Lemma resolve_segments_no_slash segs : forall acc,
  Forall (fun x => contains "/" x = false) acc ->
  Forall (fun x => contains "/" x = false) segs ->
  Forall (fun x => contains "/" x = false) (foldl resolve_segment acc segs).
Proof.
  induction segs as [|seg segs IH]; intros acc Hacc Hsegs; [done|].
  apply Forall_cons in Hsegs as [Hseg Hsegs]. cbn [foldl].
  apply IH; [|done]. unfold resolve_segment.
  repeat case_match; subst; try done; try (by constructor).
  by apply Forall_cons in Hacc as [_ ?].
Qed.

Lemma all_chars_app p a b :
  all_chars p (a +:+ b) = all_chars p a && all_chars p b.
Proof.
  induction a as [|x a IH]; [done|].
  change (String x a +:+ b) with (String x (a +:+ b)). cbn [all_chars].
  by rewrite IH, andb_assoc.
Qed.

Lemma all_slash_no_slash s :
  all_chars (Ascii.eqb "/") s = true -> contains "/" s = false ->
  s = EmptyString.
Proof.
  destruct s as [|a r]; [done|]. cbn [all_chars contains].
  rewrite (Ascii.eqb_sym "/" a). by destruct (Ascii.eqb a "/").
Qed.

Lemma join_cons sep x y l :
  join sep (x :: y :: l) = x +:+ sep +:+ join sep (y :: l).
Proof. done. Qed.

(** A join of slash-free segments that consists of slashes only is a join
    of empty segments. *)
Lemma join_all_slash l :
  Forall (fun x => contains "/" x = false) l ->
  all_chars (Ascii.eqb "/") (join "/" l) = true ->
  count_empty l = length l.
Proof.
  induction l as [|x l IH]; [done|]. intros [Hx Hl]%Forall_cons.
  destruct l as [|y l].
  - cbn [join]. intros ->%all_slash_no_slash; done.
  - rewrite join_cons, !all_chars_app.
    intros [Hax [_ Hal]%andb_true_iff]%andb_true_iff.
    apply all_slash_no_slash in Hax as ->; [|done].
    rewrite count_empty_cons, decide_True by done.
    rewrite (IH Hl Hal). done.
Qed.

Lemma count_empty_all l : count_empty l = length l -> Forall (eq EmptyString) l.
Proof.
  induction l as [|x l IH]; [done|]. rewrite count_empty_cons. cbn [length].
  pose proof (length_filter (fun s : string => s = EmptyString) l) as Hle.
  fold (count_empty l) in Hle.
  destruct (decide (x = EmptyString)) as [->|]; [|lia].
  intros H. constructor; [done|]. apply IH. lia.
Qed.

Lemma lstrip_by_all p s : all_chars p s = true -> lstrip_by p s = EmptyString.
Proof.
  induction s as [|a r IH]; [done|]. cbn.
  intros [-> Hr]%andb_true_iff. by apply IH.
Qed.

Lemma lstrip_by_snoc_all p a c :
  lstrip_by p (a +:+ String c EmptyString) =
  if all_chars p a
  then (if p c then EmptyString else String c EmptyString)
  else lstrip_by p a +:+ String c EmptyString.
Proof.
  induction a as [|x a IH].
  { change (EmptyString +:+ String c EmptyString) with (String c EmptyString).
    cbn. by destruct (p c). }
  change (String x a +:+ String c EmptyString)
    with (String x (a +:+ String c EmptyString)).
  cbn [lstrip_by all_chars]. destruct (p x); [by rewrite IH|done].
Qed.

Lemma all_chars_rev_app p s : forall acc,
  all_chars p (rev_app s acc) = all_chars p s && all_chars p acc.
Proof.
  induction s as [|x s IH]; intros acc; [done|]. cbn [rev_app all_chars].
  rewrite IH. cbn [all_chars]. by destruct (p x), (all_chars p s).
Qed.

Lemma all_chars_rev p s : all_chars p (rev s) = all_chars p s.
Proof. unfold rev. rewrite all_chars_rev_app. cbn. apply andb_true_r. Qed.

(** [rstrip_by], read from the left. *)
Lemma rstrip_by_String p c t :
  rstrip_by p (String c t) =
  if all_chars p t
  then (if p c then EmptyString else String c EmptyString)
  else String c (rstrip_by p t).
Proof.
  unfold rstrip_by. rewrite rev_cons, lstrip_by_snoc_all, all_chars_rev.
  destruct (all_chars p t); [by destruct (p c)|]. by rewrite rev_snoc.
Qed.

Lemma endswith_char_String c a s :
  endswith_char c (String a s) =
  match s with
  | EmptyString => Ascii.eqb a c
  | _ => endswith_char c s
  end.
Proof.
  unfold endswith_char. rewrite rev_cons.
  destruct s as [|b s]; [done|]. rewrite (rev_cons b s).
  destruct (rev s) as [|x r]; [done|]. done.
Qed.

Lemma rstrip_by_empty p s :
  rstrip_by p s = EmptyString -> all_chars p s = true.
Proof.
  destruct s as [|a s]; [done|]. rewrite rstrip_by_String. cbn [all_chars].
  destruct (all_chars p s); [|done]. by destruct (p a).
Qed.

Lemma rstrip_by_end p c s :
  (forall a, Ascii.eqb a c = true -> p a = true) ->
  endswith_char c (rstrip_by p s) = false.
Proof.
  intros Hp. induction s as [|a s IH]; [done|]. rewrite rstrip_by_String.
  destruct (all_chars p s) eqn:Hall.
  - destruct (p a) eqn:Ha; [done|]. cbn.
    destruct (Ascii.eqb a c) eqn:E; [|done]. by rewrite (Hp a E) in Ha.
  - rewrite endswith_char_String.
    destruct (rstrip_by p s) eqn:Hr; [|done].
    apply rstrip_by_empty in Hr. congruence.
Qed.

Lemma quote_head safe s :
  contains "/" safe = true ->
  startswith (quote safe s) "/" = startswith s "/".
Proof.
  intros Hsafe. rewrite !startswith_slash. destruct s as [|a r]; [done|].
  cbn [quote]. destruct (_ || _) eqn:E; [done|].
  destruct (Ascii.eqb_spec a "/") as [->|]; [|done].
  by rewrite Hsafe in E.
Qed.

Lemma hex_digit_slash n :
  (n < 16)%nat -> Ascii.eqb (Urllib.hex_digit n) "/" = false.
Proof.
  intros Hn. do 16 (destruct n as [|n]; [done|]). lia.
Qed.

Lemma quote_nonempty safe a s : quote safe (String a s) <> EmptyString.
Proof. cbn [quote]. by destruct (_ || _). Qed.

Lemma quote_end safe s :
  contains "/" safe = true ->
  endswith_char "/" (quote safe s) = endswith_char "/" s.
Proof.
  intros Hsafe. induction s as [|a s IH]; [done|].
  rewrite (endswith_char_String "/" a s). cbn [quote].
  destruct (_ || _) eqn:E.
  - rewrite endswith_char_String. destruct s as [|b s]; [done|].
    pose proof (quote_nonempty safe b s).
    destruct (quote safe (String b s)); done.
  - rewrite !endswith_char_String. destruct s as [|b s].
    + cbn [quote]. rewrite hex_digit_slash
        by (apply Nat.mod_upper_bound; lia).
      destruct (Ascii.eqb_spec a "/") as [->|]; [|done].
      by rewrite Hsafe in E.
    + pose proof (quote_nonempty safe b s).
      destruct (quote safe (String b s)); done.
Qed.

(** X21: the path [_normalize_path] returns always starts with a slash
    and never ends with one, unless it is the root path [/] itself. *)
Theorem normalize_path_shape path :
  startswith (_normalize_path path) "/" = true /\
  (endswith_char "/" (_normalize_path path) = true ->
   _normalize_path path = "/").
Proof.
  unfold _normalize_path.
  set (resolved := reverse (foldl resolve_segment []
                              (split "/" (collapse_slashes path)))).
  set (joined := join "/" resolved).
  set (p2 := if startswith joined "/" then joined else "/" +:+ joined).
  set (p3 := if negb (String.eqb p2 "/") && endswith_char "/" p2
             then rstrip_by (Ascii.eqb "/") p2 else p2).
  assert (Hp2 : startswith p2 "/" = true).
  { subst p2. destruct (startswith joined "/") eqn:E; [done|].
    change ("/" +:+ joined) with (String "/" joined). by destruct joined. }
  assert (Hall : all_chars (Ascii.eqb "/") p2 = true -> p2 = "/").
  { intros Hall.
    assert (Hj : all_chars (Ascii.eqb "/") joined = true).
    { subst p2. destruct (startswith joined "/"); [done|].
      change ("/" +:+ joined) with (String "/" joined) in Hall.
      by apply andb_true_iff in Hall as [_ ?]. }
    assert (Hns : Forall (fun x => contains "/" x = false) resolved).
    { subst resolved. apply Forall_reverse.
      apply resolve_segments_no_slash; [constructor|apply split_no_slash]. }
    pose proof (join_all_slash resolved Hns Hj) as Hcount.
    assert (Hle : (count_empty resolved <= 2)%nat).
    { subst resolved. unfold count_empty.
      rewrite (filter_reverse (fun s : string => s = EmptyString)).
      rewrite length_reverse. fold (count_empty (foldl resolve_segment []
        (split "/" (collapse_slashes path)))).
      etrans; [apply resolve_segments_count|].
      destruct (split_count (collapse_slashes path)
                  (collapse_slashes_dslash path)) as [H2 _].
      change (count_empty []) with 0%nat. lia. }
    apply count_empty_all in Hcount as Hempty.
    subst p2 joined. clearbody resolved.
    destruct resolved as [|x [|y [|z r]]]; cbn [length] in *; [done| | |lia].
    - apply Forall_cons in Hempty as [<- _]. done.
    - apply Forall_cons in Hempty as [<- [<- _]%Forall_cons]. done. }
  assert (Hp3 : startswith p3 "/" = true /\
                (endswith_char "/" p3 = true -> p3 = "/")).
  { subst p3. destruct (String.eqb_spec p2 "/") as [->|Hne]; [done|].
    cbn [negb andb].
    destruct (endswith_char "/" p2) eqn:Hend; [|split; [done|by rewrite Hend]].
    split.
    - rewrite startswith_slash in Hp2. destruct p2 as [|a t]; [done|].
      rewrite rstrip_by_String. destruct (all_chars _ t) eqn:Ht.
      + exfalso. apply Hne, Hall. cbn [all_chars]. rewrite Ht.
        by rewrite (Ascii.eqb_sym "/" a), Hp2.
      + by rewrite startswith_slash.
    - rewrite rstrip_by_end; [done|].
      intros a Ha. by rewrite Ascii.eqb_sym. }
  clearbody p3. destruct Hp3 as [Hs He]. split.
  - by rewrite quote_head.
  - rewrite quote_end by done. intros ->%He. done.
Qed.

(** *** The query: encoding and parsing are inverse *)

Lemma hexval_of_hex_digit n :
  (n < 16)%nat -> hexval (Urllib.hex_digit n) = Some n.
Proof. intros Hn. do 16 (destruct n as [|n]; [done|]). lia. Qed.

Lemma code_lt_256 c : (code c < 256)%nat.
Proof. unfold code. apply nat_ascii_bounded. Qed.

Lemma always_safe_percent : always_safe "%" = false.
Proof. done. Qed.

Lemma unquote_quote safe s :
  contains "%" safe = false -> unquote (quote safe s) = s.
Proof.
  intros Hsafe. induction s as [|c s IH]; [done|]. cbn [quote].
  destruct (_ || _) eqn:E.
  - cbn [unquote]. destruct (Ascii.eqb_spec c "%") as [->|_];
      [by rewrite always_safe_percent, Hsafe in E|]. by rewrite IH.
  - cbn [unquote]. rewrite Ascii.eqb_refl.
    pose proof (code_lt_256 c) as Hc.
    rewrite !hexval_of_hex_digit
      by (try apply Nat.mod_upper_bound; try apply Nat.Div0.div_lt_upper_bound;
          lia).
    rewrite IH. f_equal.
    rewrite <- (Nat.div_mod_eq (code c) 16). apply ascii_nat_embedding.
Qed.

Lemma hex_digit_safe n : (n < 16)%nat -> always_safe (Urllib.hex_digit n) = true.
Proof. intros Hn. do 16 (destruct n as [|n]; [done|]). lia. Qed.

(** A character that [quote] has to encode does not occur in its
    output. *)
Lemma quote_avoids safe c s :
  always_safe c = false -> contains c safe = false ->
  Ascii.eqb c "%" = false ->
  contains c (quote safe s) = false.
Proof.
  intros Hc Hsafe Hpct. induction s as [|a s IH]; [done|]. cbn [quote].
  pose proof (code_lt_256 a) as Ha.
  destruct (_ || _) eqn:E; cbn [contains]; rewrite IH.
  - destruct (Ascii.eqb_spec a c) as [->|]; [|done].
    by rewrite Hc, Hsafe in E.
  - rewrite (Ascii.eqb_sym "%" c), Hpct.
    assert (Hd : forall n, (n < 16)%nat ->
      Ascii.eqb (Urllib.hex_digit n) c = false).
    { intros n Hn. destruct (Ascii.eqb_spec (Urllib.hex_digit n) c) as [<-|];
        [|done]. by rewrite hex_digit_safe in Hc. }
    rewrite !Hd
      by (try apply Nat.mod_upper_bound; try apply Nat.Div0.div_lt_upper_bound;
          lia).
    done.
Qed.

Lemma replace_char_none c r s :
  contains c s = false -> replace_char c r s = s.
Proof.
  induction s as [|a s IH]; [done|]. cbn [contains replace_char].
  intros [-> Hs]%orb_false_iff. by rewrite IH.
Qed.

Lemma replace_char_inv s :
  contains "+" s = false ->
  replace_char "+" " " (replace_char " " "+" s) = s.
Proof.
  induction s as [|a s IH]; [done|]. cbn [contains replace_char].
  intros [Ha Hs]%orb_false_iff.
  destruct (Ascii.eqb_spec a " ") as [->|Hne].
  - change ("+" +:+ replace_char " " "+" s)
      with (String "+" (replace_char " " "+" s)).
    cbn [replace_char Ascii.eqb Bool.eqb]. by rewrite IH.
  - cbn [replace_char]. rewrite Ha. by rewrite IH.
Qed.

Lemma replace_char_avoids c s :
  contains c s = false -> Ascii.eqb c "+" = false ->
  contains c (replace_char " " "+" s) = false.
Proof.
  intros Hs Hc. induction s as [|a s IH]; [done|].
  cbn [contains replace_char] in *.
  apply orb_false_iff in Hs as [Ha Hs].
  destruct (Ascii.eqb a " ").
  - change ("+" +:+ replace_char " " "+" s)
      with (String "+" (replace_char " " "+" s)).
    cbn [contains]. by rewrite (Ascii.eqb_sym "+" c), Hc, IH.
  - cbn [contains]. by rewrite Ha, IH.
Qed.

(** [unquote(s.replace('+', ' '))] undoes [quote_plus]. *)
Lemma unquote_quote_plus s :
  unquote (replace_char "+" " " (quote_plus s)) = s.
Proof.
  unfold quote_plus. destruct (contains " " s).
  - rewrite replace_char_inv by by apply quote_avoids.
    by apply unquote_quote.
  - rewrite replace_char_none by by apply quote_avoids.
    by apply unquote_quote.
Qed.

Lemma quote_plus_avoids c s :
  always_safe c = false -> Ascii.eqb c " " = false ->
  Ascii.eqb c "%" = false -> Ascii.eqb c "+" = false ->
  contains c (quote_plus s) = false.
Proof.
  intros Hc Hsp Hpct Hplus. unfold quote_plus. destruct (contains " " s).
  - apply replace_char_avoids; [|done]. apply quote_avoids; try done.
    cbn [contains]. by rewrite (Ascii.eqb_sym " " c), Hsp.
  - by apply quote_avoids.
Qed.

Lemma partition_app c a b :
  contains c a = false ->
  partition c (a +:+ String c b) = (a, Some b).
Proof.
  induction a as [|x a IH].
  { intros _. change (EmptyString +:+ String c b) with (String c b).
    cbn [partition]. by rewrite Ascii.eqb_refl. }
  cbn [contains]. intros [Hx Ha]%orb_false_iff.
  change (String x a +:+ String c b) with (String x (a +:+ String c b)).
  cbn [partition]. by rewrite Hx, IH.
Qed.

Lemma split_app c a b :
  contains c a = false ->
  split c (a +:+ String c b) = a :: split c b.
Proof.
  induction a as [|x a IH].
  { intros _. change (EmptyString +:+ String c b) with (String c b).
    cbn [split]. by rewrite Ascii.eqb_refl. }
  cbn [contains]. intros [Hx Ha]%orb_false_iff.
  change (String x a +:+ String c b) with (String x (a +:+ String c b)).
  cbn [split]. by rewrite Hx, IH.
Qed.

Lemma split_none c a : contains c a = false -> split c a = [a].
Proof.
  induction a as [|x a IH]; [done|]. cbn [contains split].
  intros [Hx Ha]%orb_false_iff. by rewrite Hx, IH.
Qed.

Lemma split_join c l :
  l <> [] -> Forall (fun x => contains c x = false) l ->
  split c (join (String c EmptyString) l) = l.
Proof.
  induction l as [|x l IH]; [done|]. intros _ [Hx Hl]%Forall_cons.
  destruct l as [|y l]; [by apply split_none|].
  rewrite join_cons.
  change (String c EmptyString +:+ join (String c EmptyString) (y :: l))
    with (String c (join (String c EmptyString) (y :: l))).
  rewrite split_app by done. by rewrite IH.
Qed.

Lemma append_nonempty a c b : a +:+ String c b <> EmptyString.
Proof. by destruct a. Qed.

Lemma join_nonempty sep x l :
  x <> EmptyString -> join sep (x :: l) <> EmptyString.
Proof.
  intros Hx. destruct l as [|y l]; [done|]. rewrite join_cons.
  destruct x; [done|]. done.
Qed.

(** The pair [urlencode] writes for one parameter. *)
Definition piece (kv : string * string) : string :=
  quote_plus kv.1 +:+ "=" +:+ quote_plus kv.2.

Lemma piece_no_amp kv : contains "&" (piece kv) = false.
Proof.
  unfold piece. rewrite !contains_app, !quote_plus_avoids by done. done.
Qed.

Lemma piece_parsed kv :
  (let '(name, value) := partition "=" (piece kv) in
   match value with
   | None => [(unquote (replace_char "+" " " name), EmptyString)]
   | Some value =>
       if negb (String.eqb value EmptyString) || true
       then [(unquote (replace_char "+" " " name),
              unquote (replace_char "+" " " value))]
       else []
   end) = [kv].
Proof.
  unfold piece. change ("=" +:+ quote_plus kv.2) with (String "=" (quote_plus kv.2)).
  rewrite partition_app by by apply quote_plus_avoids.
  rewrite orb_true_r, !unquote_quote_plus. by destruct kv.
Qed.

(** What [urlencode] writes, [parse_qsl] reads back. *)
Lemma parse_qsl_urlencode parts : parse_qsl (urlencode parts) true = parts.
Proof.
  unfold parse_qsl, urlencode. fold piece.
  change ((fun kv : string * string => quote_plus kv.1 +:+ "=" +:+ quote_plus kv.2))
    with piece.
  destruct parts as [|kv parts]; [done|].
  set (pieces := piece <$> kv :: parts).
  destruct (String.eqb_spec (join "&" pieces) EmptyString) as [Heq|_].
  { exfalso. revert Heq. apply join_nonempty. apply append_nonempty. }
  rewrite split_join; [|done|].
  2:{ subst pieces. apply Forall_fmap, Forall_forall. intros x _.
      apply piece_no_amp. }
  subst pieces. generalize (kv :: parts). clear. intros l.
  induction l as [|kv l IH]; [done|]. cbn [fmap list_fmap flat_map].
  fold (@fmap list _ _ _ piece l). rewrite IH.
  destruct (String.eqb_spec (piece kv) EmptyString) as [Heq|_].
  { exfalso. revert Heq. apply append_nonempty. }
  by rewrite piece_parsed.
Qed.

(** *** The query: sorting *)

(** [a <= b] on the keys, as [sorted] sees it. *)
Definition key_le {A} (key : A -> string) (a b : A) : Prop :=
  ltb (key b) (key a) = false.

Lemma ltb_irrefl a : ltb a a = false.
Proof.
  induction a as [|x a IH]; [done|]. cbn [ltb].
  by rewrite Nat.ltb_irrefl.
Qed.

Lemma ltb_asym a : forall b, ltb a b = true -> ltb b a = false.
Proof.
  induction a as [|x a IH]; intros [|y b]; try done. cbn [ltb].
  destruct (Nat.ltb_spec (code x) (code y)), (Nat.ltb_spec (code y) (code x));
    try done; try lia. apply IH.
Qed.

Lemma insert_sorted_perm {A} (key : A -> string) x l :
  insert_sorted key x l ≡ₚ x :: l.
Proof.
  induction l as [|y l IH]; [done|]. cbn [insert_sorted].
  destruct (ltb (key y) (key x)); [|done]. rewrite IH. apply Permutation_swap.
Qed.

Lemma sorted_perm {A} (key : A -> string) l : sorted key l ≡ₚ l.
Proof.
  induction l as [|x l IH]; [done|]. unfold sorted in *. cbn [foldr].
  by rewrite insert_sorted_perm, IH.
Qed.

Lemma insert_sorted_Sorted {A} (key : A -> string) x l :
  Sorted (key_le key) l -> Sorted (key_le key) (insert_sorted key x l).
Proof.
  induction 1 as [|y l Hl IH Hhd]; [by repeat constructor|].
  cbn [insert_sorted]. destruct (ltb (key y) (key x)) eqn:E.
  - constructor; [done|]. destruct l as [|z l]; cbn [insert_sorted].
    + constructor. by apply ltb_asym.
    + destruct (ltb (key z) (key x)); constructor;
        [by apply HdRel_inv in Hhd|by apply ltb_asym].
  - constructor; [by constructor|]. by constructor.
Qed.

Lemma sorted_Sorted {A} (key : A -> string) l :
  Sorted (key_le key) (sorted key l).
Proof.
  induction l as [|x l IH]; [constructor|]. by apply insert_sorted_Sorted.
Qed.

(** Sorting a sorted list changes nothing. *)
Lemma sorted_id {A} (key : A -> string) l :
  Sorted (key_le key) l -> sorted key l = l.
Proof.
  induction 1 as [|x l Hl IH Hhd]; [done|]. unfold sorted in *.
  cbn [foldr]. rewrite IH. destruct Hhd as [|y l Hxy]; [done|].
  cbn [insert_sorted]. by rewrite Hxy.
Qed.

Lemma sorted_idem {A} (key : A -> string) l :
  sorted key (sorted key l) = sorted key l.
Proof. apply sorted_id, sorted_Sorted. Qed.

(** *** The query: the dict of [parse_qs] *)

(** Keys are distinct and every key has a value. *)
Definition dict_ok (d : list (string * list string)) : Prop :=
  NoDup d.*1 /\ Forall (fun kv => kv.2 <> []) d.

Lemma dict_append_new d k v :
  k ∉ d.*1 -> dict_append d k v = d ++ [(k, [v])].
Proof.
  induction d as [|[k' vs] d IH]; [done|]. cbn [fmap list_fmap fst].
  intros Hk. apply not_elem_of_cons in Hk as [Hne Hk]. cbn [dict_append].
  destruct (String.eqb_spec k' k) as [->|_]; [done|]. by rewrite IH.
Qed.

Lemma dict_append_last d k vs v :
  k ∉ d.*1 -> dict_append (d ++ [(k, vs)]) k v = d ++ [(k, vs ++ [v])].
Proof.
  induction d as [|[k' ws] d IH].
  { intros _. cbn. by rewrite String.eqb_refl. }
  cbn [fmap list_fmap fst]. intros Hk.
  apply not_elem_of_cons in Hk as [Hne Hk]. cbn [app dict_append].
  destruct (String.eqb_spec k' k) as [->|_]; [done|]. by rewrite IH.
Qed.

Lemma dict_append_keys d k v :
  (dict_append d k v).*1 = if bool_decide (k ∈ d.*1) then d.*1 else d.*1 ++ [k].
Proof.
  induction d as [|[k' vs] d IH]; [done|]. cbn [dict_append fmap list_fmap fst].
  destruct (String.eqb_spec k' k) as [->|Hne].
  - rewrite bool_decide_eq_true_2 by by left. done.
  - cbn [fmap list_fmap fst]. fold (@fmap list _ _ _ (@fst string (list string)) d).
    fold (@fmap list _ _ _ (@fst string (list string)) (dict_append d k v)).
    rewrite IH. case_bool_decide as Hin.
    + rewrite bool_decide_eq_true_2 by by right. done.
    + rewrite bool_decide_eq_false_2; [done|].
      intros [?|?]%elem_of_cons; congruence.
Qed.

Lemma dict_append_ok d k v : dict_ok d -> dict_ok (dict_append d k v).
Proof.
  intros [Hnd Hne]. split.
  - rewrite dict_append_keys. case_bool_decide as Hin; [done|].
    apply NoDup_app. split; [done|]. split; [|apply NoDup_singleton].
    intros x Hx ->%list_elem_of_singleton. done.
  - clear Hnd. induction d as [|[k' vs] d IH]; [by repeat constructor|].
    apply Forall_cons in Hne as [Hvs Hne]. cbn [dict_append].
    destruct (String.eqb k' k); constructor; try done; [|by apply IH].
    cbn. by destruct vs.
Qed.

Lemma parse_qs_ok qs keep : dict_ok (parse_qs qs keep).
Proof.
  unfold parse_qs. generalize (parse_qsl qs keep). intros l.
  assert (H : dict_ok []) by (split; constructor).
  revert H. generalize (@nil (string * list string)).
  induction l as [|nv l IH]; intros d Hd; [done|]. cbn [foldl].
  by apply IH, dict_append_ok.
Qed.

(** The pairs [_normalize_query] hands to [urlencode] for a list of
    groups. *)
Definition pairs_of (groups : list (string * list string))
  : list (string * string) :=
  flat_map (fun kv => (fun v => (kv.1, v)) <$> kv.2) groups.

Lemma foldl_dict_values d k vs : forall ws,
  k ∉ d.*1 ->
  foldl (fun d nv => dict_append d nv.1 nv.2) (d ++ [(k, ws)])
        ((fun v => (k, v)) <$> vs)
  = d ++ [(k, ws ++ vs)].
Proof.
  induction vs as [|v vs IH]; intros ws Hk; [by rewrite app_nil_r|].
  cbn [fmap list_fmap foldl fst snd].
  rewrite dict_append_last by done.
  fold (@fmap list _ _ _ (fun v : string => (k, v)) vs).
  rewrite IH by done. by rewrite <- app_assoc.
Qed.

(** Parsing the pairs of a dict gives the dict back. *)
Lemma foldl_dict_pairs groups : forall d,
  NoDup (d.*1 ++ groups.*1) -> Forall (fun kv => kv.2 <> []) groups ->
  foldl (fun d nv => dict_append d nv.1 nv.2) d (pairs_of groups)
  = d ++ groups.
Proof.
  induction groups as [|[k vs] groups IH]; intros d Hnd Hne;
    [by rewrite app_nil_r|].
  apply Forall_cons in Hne as [Hvs Hne]. cbn in Hvs.
  unfold pairs_of. cbn [flat_map fst snd]. fold (pairs_of groups).
  rewrite foldl_app.
  cbn [fmap list_fmap fst] in Hnd.
  assert (Hk : k ∉ d.*1).
  { apply NoDup_app in Hnd as (_ & Hdis & _). intros Hin.
    apply (Hdis k Hin). by left. }
  destruct vs as [|v vs]; [done|]. cbn [fmap list_fmap foldl fst snd].
  rewrite dict_append_new by done.
  fold (@fmap list _ _ _ (fun v : string => (k, v)) vs).
  rewrite foldl_dict_values by done. cbn [app].
  rewrite IH; [by rewrite <- app_assoc|..|done].
  rewrite fmap_app. cbn [fmap list_fmap fst]. rewrite <- app_assoc. done.
Qed.

(** *** The query: [_normalize_query] *)

Definition is_content_key (kv : string * list string) : bool :=
  negb (str_in (lower kv.1) TRACKING_PARAMS).

(** The parameters [_normalize_query] keeps, in the order in which it
    writes them. *)
Definition kept_params (self : URLNormalizer) (query : string)
  : list (string * list string) :=
  let params := parse_qs query true in
  let params :=
    if remove_tracking self then filter is_content_key params else params in
  if sort_params self then sorted fst params else params.

Definition sort_values (kv : string * list string) : string * list string :=
  (kv.1, sorted id kv.2).

Lemma filter_all {A} (P : A -> Prop) `{!forall x, Decision (P x)} l :
  Forall P l -> filter P l = l.
Proof.
  induction 1 as [|x l Hx Hl IH]; [done|].
  by rewrite filter_cons, decide_True, IH.
Qed.

Lemma Forall_filter_self {A} (P : A -> Prop) `{!forall x, Decision (P x)} l :
  Forall P (filter P l).
Proof.
  apply Forall_forall. intros x Hx. by apply list_elem_of_filter in Hx as [? _].
Qed.

Lemma pairs_of_sort_values groups :
  flat_map (fun kv => (fun v => (kv.1, v)) <$> sorted id kv.2) groups
  = pairs_of (sort_values <$> groups).
Proof.
  unfold pairs_of. induction groups as [|kv groups IH]; [done|].
  cbn [flat_map fmap list_fmap]. by rewrite IH.
Qed.

(** [_normalize_query] encodes the kept parameters, values sorted. *)
Lemma _normalize_query_kept self query :
  _normalize_query self query
  = urlencode (pairs_of (sort_values <$> kept_params self query)).
Proof.
  unfold _normalize_query, kept_params.
  destruct (String.eqb_spec query EmptyString) as [->|Hne].
  { destruct (remove_tracking self), (sort_params self); reflexivity. }
  unfold is_content_key.
  destruct (if remove_tracking self then filter _ (parse_qs query true)
            else parse_qs query true) as [|kv ps].
  { destruct (sort_params self); reflexivity. }
  by rewrite pairs_of_sort_values.
Qed.

Lemma kept_params_ok self query :
  let kept := kept_params self query in
  dict_ok kept /\
  (remove_tracking self = true -> Forall is_content_key kept) /\
  (sort_params self = true -> Sorted (key_le fst) kept) /\
  (forall kv, kv ∈ kept <->
     kv ∈ parse_qs query true /\
     (remove_tracking self = true -> is_content_key kv)).
Proof.
  cbn zeta. unfold kept_params.
  set (params := if remove_tracking self
                 then filter is_content_key (parse_qs query true)
                 else parse_qs query true).
  assert (Hok : dict_ok params).
  { destruct (parse_qs_ok query true) as [Hnd Hne]. subst params.
    destruct (remove_tracking self); [|done]. split.
    - eapply sublist_NoDup; [exact Hnd|]. apply fmap_sublist, sublist_filter.
    - apply Forall_forall. intros kv [_ Hkv]%list_elem_of_filter.
      by apply (proj1 (Forall_forall _ _) Hne). }
  assert (Hfil : remove_tracking self = true -> Forall is_content_key params).
  { intros Hrt. subst params. rewrite Hrt. apply Forall_filter_self. }
  assert (Hin : forall kv, kv ∈ params <->
     kv ∈ parse_qs query true /\
     (remove_tracking self = true -> is_content_key kv)).
  { intros kv. subst params. destruct (remove_tracking self).
    - rewrite list_elem_of_filter. split; [intros [? ?]|intros [? Hc]]; auto.
    - split; [intros ?; split; [done|discriminate]|by intros [? _]]. }
  destruct (sort_params self); [|done].
  pose proof (sorted_perm fst params) as Hperm.
  split; [|split; [|split]].
  - destruct Hok as [Hnd Hne]. split; by rewrite Hperm.
  - intros Hrt. rewrite Hperm. by apply Hfil.
  - intros _. apply sorted_Sorted.
  - intros kv. by rewrite Hperm.
Qed.

Lemma sort_values_idem kv : sort_values (sort_values kv) = sort_values kv.
Proof. unfold sort_values. cbn [fst snd]. by rewrite sorted_idem. Qed.

Lemma Sorted_sort_values groups :
  Sorted (key_le fst) groups -> Sorted (key_le fst) (sort_values <$> groups).
Proof.
  induction 1 as [|kv groups Hs IH Hhd]; [constructor|].
  cbn [fmap list_fmap]. constructor; [done|].
  destruct Hhd; by constructor.
Qed.

Lemma sort_values_ok groups : dict_ok groups -> dict_ok (sort_values <$> groups).
Proof.
  intros [Hnd Hne]. split.
  - by rewrite <- list_fmap_compose.
  - apply Forall_fmap. eapply Forall_impl; [exact Hne|]. intros [k vs] Hvs.
    unfold sort_values. cbn [fst snd compose] in *. intros Hnil. apply Hvs.
    pose proof (sorted_perm id vs) as Hperm. rewrite Hnil in Hperm.
    by apply Permutation_nil_l in Hperm.
Qed.

(** Parsing a normalized query gives the kept parameters back. *)
Lemma parse_qs_normalized self query :
  parse_qs (_normalize_query self query) true
  = sort_values <$> kept_params self query.
Proof.
  rewrite _normalize_query_kept. unfold parse_qs.
  rewrite parse_qsl_urlencode.
  destruct (kept_params_ok self query) as (Hok & _).
  apply sort_values_ok in Hok as [Hnd Hne].
  by rewrite foldl_dict_pairs.
Qed.

(** X22: [_normalize_query] is idempotent: a normalized query is its own
    normal form, whatever the flags (unlike [normalize] as a whole, which
    decodes the URL once more on every pass). *)
Theorem normalize_query_idempotent self query :
  _normalize_query self (_normalize_query self query)
  = _normalize_query self query.
Proof.
  rewrite (_normalize_query_kept self (_normalize_query self query)).
  rewrite (_normalize_query_kept self query) at 2. do 2 f_equal.
  destruct (kept_params_ok self query) as (Hok & Hfil & Hsort & _).
  unfold kept_params at 1. rewrite parse_qs_normalized.
  set (kept := kept_params self query) in *.
  assert (H1 : (if remove_tracking self
                then filter is_content_key (sort_values <$> kept)
                else sort_values <$> kept) = sort_values <$> kept).
  { destruct (remove_tracking self); [|done]. apply filter_all.
    apply Forall_fmap. eapply Forall_impl; [by apply Hfil|]. by intros []. }
  rewrite H1.
  assert (H2 : (if sort_params self
                then sorted fst (sort_values <$> kept)
                else sort_values <$> kept) = sort_values <$> kept).
  { destruct (sort_params self); [|done].
    by apply sorted_id, Sorted_sort_values, Hsort. }
  rewrite H2, <- list_fmap_compose. apply list_fmap_ext.
  intros _ kv _. apply sort_values_idem.
Qed.

(** X23: the query [_normalize_query] returns, parsed again, holds
    exactly the parameters of the given query (all of them, or the ones
    that are no tracking parameters when those are removed), each once,
    with the same values in sorted order; with sorting on, the keys are
    in ascending order. *)
Theorem normalize_query_content self query :
  let d := parse_qs (_normalize_query self query) true in
  (forall k vs, (k, vs) ∈ d <->
     exists vs0, (k, vs0) ∈ parse_qs query true /\ vs = sorted id vs0 /\
       (remove_tracking self = true -> lower k ∉ TRACKING_PARAMS)) /\
  (forall vs0 : list string,
     sorted id vs0 ≡ₚ vs0 /\
     Sorted (fun a b => ltb b a = false) (sorted id vs0)) /\
  NoDup d.*1 /\
  (sort_params self = true -> Sorted (fun a b => ltb b.1 a.1 = false) d).
Proof.
  cbn zeta. rewrite parse_qs_normalized.
  destruct (kept_params_ok self query) as (Hok & Hfil & Hsort & Hin).
  assert (Hkey : forall kv, is_content_key kv <-> lower kv.1 ∉ TRACKING_PARAMS).
  { intros kv. unfold is_content_key. rewrite <- str_in_spec.
    destruct (str_in _ _); cbn; split; try done. }
  split; [|split; [|split]].
  - intros k vs. rewrite list_elem_of_fmap. split.
    + intros ([k0 vs0] & [= -> ->] & [Hp Hc]%Hin). exists vs0.
      split; [done|]. split; [done|]. intros Hrt. by apply (Hkey (k0, vs0)), Hc.
    + intros (vs0 & Hp & -> & Hc). exists (k, vs0). split; [done|].
      apply Hin. split; [done|]. intros Hrt. by apply (Hkey (k, vs0)), Hc.
  - intros vs0. split; [apply sorted_perm|apply (sorted_Sorted id)].
  - by destruct (sort_values_ok _ Hok).
  - intros Hs. by apply Sorted_sort_values, Hsort.
Qed.

Lemma normalize_query_content_witness :
  _normalize_query default_normalizer "b=2&utm_source=x&a=1&a=0"
    = "a=0&a=1&b=2" /\
  parse_qs (_normalize_query default_normalizer "b=2&utm_source=x&a=1&a=0")
           true = [("a", ["0"; "1"]); ("b", ["2"])] /\
  (remove_tracking default_normalizer = true ->
   lower "a" ∉ TRACKING_PARAMS).
Proof.
  split; [vm_compute; reflexivity|]. split; [vm_compute; reflexivity|].
  destruct (proj1 (proj1 (normalize_query_content default_normalizer
                            "b=2&utm_source=x&a=1&a=0") "a" ["0"; "1"]))
    as (vs0 & _ & _ & H); [|exact H].
  vm_compute. by left.
Defined.

End NormalizerProps.

(* ===================================================================== *)
(** ** hashlib.sha256                                                      *)
(* ===================================================================== *)

Module Sha256.
Import Hashlib.

Definition rotr (x n : Z) : Z :=
  w32 (Z.lor (Z.shiftr x n) (Z.shiftl x (32 - n))).

Definition k_table : list Z :=
  [1116352408; 1899447441; 3049323471; 3921009573; 961987163; 1508970993;
   2453635748; 2870763221; 3624381080; 310598401; 607225278; 1426881987;
   1925078388; 2162078206; 2614888103; 3248222580; 3835390401; 4022224774;
   264347078; 604807628; 770255983; 1249150122; 1555081692; 1996064986;
   2554220882; 2821834349; 2952996808; 3210313671; 3336571891; 3584528711;
   113926993; 338241895; 666307205; 773529912; 1294757372; 1396182291;
   1695183700; 1986661051; 2177026350; 2456956037; 2730485921; 2820302411;
   3259730800; 3345764771; 3516065817; 3600352804; 4094571909; 275423344;
   430227734; 506948616; 659060556; 883997877; 958139571; 1322822218;
   1537002063; 1747873779; 1955562222; 2024104815; 2227730452; 2361852424;
   2428436474; 2756734187; 3204031479; 3329325298].

(** The value of a list of bytes, most significant first. *)
Definition be_word (bs : list Z) : Z := foldl (fun acc b => 256 * acc + b) 0 bs.

(** [n] bytes of [x], most significant first. *)
Definition be_bytes (n : nat) (x : Z) : list Z := reverse (le_bytes n x).

Definition pad (msg : list Z) : list Z :=
  let len := Z.of_nat (length msg) in
  msg ++ [128] ++ replicate (Z.to_nat ((55 - len) mod 64)) 0
      ++ be_bytes 8 (8 * len).

(** One more word of the message schedule. *)
Definition extend (w : list Z) (i : nat) : list Z :=
  let x15 := nth (i - 15) w 0 in
  let x2 := nth (i - 2) w 0 in
  let s0 := Z.lxor (Z.lxor (rotr x15 7) (rotr x15 18)) (Z.shiftr x15 3) in
  let s1 := Z.lxor (Z.lxor (rotr x2 17) (rotr x2 19)) (Z.shiftr x2 10) in
  w ++ [w32 (nth (i - 16) w 0 + s0 + nth (i - 7) w 0 + s1)].

Definition schedule (block : list Z) : list Z :=
  foldl extend (be_word <$> chunks 16 4 block) (seq 16 48).

Definition sha_state : Type := Z * Z * Z * Z * Z * Z * Z * Z.

Definition sha_round (w : list Z) (st : sha_state) (i : nat) : sha_state :=
  let '(a, b, c, d, e, f, g, h) := st in
  let S1 := Z.lxor (Z.lxor (rotr e 6) (rotr e 11)) (rotr e 25) in
  let ch := Z.lxor (Z.land e f) (Z.land (lnot32 e) g) in
  let t1 := w32 (h + S1 + ch + nth i k_table 0 + nth i w 0) in
  let S0 := Z.lxor (Z.lxor (rotr a 2) (rotr a 13)) (rotr a 22) in
  let maj := Z.lxor (Z.lxor (Z.land a b) (Z.land a c)) (Z.land b c) in
  let t2 := w32 (S0 + maj) in
  (w32 (t1 + t2), a, b, c, w32 (d + t1), e, f, g).

Definition sha_block (st : sha_state) (block : list Z) : sha_state :=
  let w := schedule block in
  let '(a, b, c, d, e, f, g, h) := st in
  let '(a', b', c', d', e', f', g', h') := foldl (sha_round w) st (seq 0 64) in
  (w32 (a + a'), w32 (b + b'), w32 (c + c'), w32 (d + d'),
   w32 (e + e'), w32 (f + f'), w32 (g + g'), w32 (h + h')).

Definition sha256_digest (msg : list Z) : list Z :=
  let p := pad msg in
  let '(a, b, c, d, e, f, g, h) :=
    foldl sha_block
          (1779033703, 3144134277, 1013904242, 2773480762, 1359893119,
           2600822924, 528734635, 1541459225)
          (chunks (length p) 64 p) in
  be_bytes 4 a ++ be_bytes 4 b ++ be_bytes 4 c ++ be_bytes 4 d ++
  be_bytes 4 e ++ be_bytes 4 f ++ be_bytes 4 g ++ be_bytes 4 h.

(** [hashlib.sha256(s.encode("utf-8")).hexdigest()] *)
Definition sha256_hexdigest (s : string) : string :=
  hex_of_bytes (sha256_digest (bytes_of_string s)).

Example sha256_empty :
  sha256_hexdigest EmptyString
  = "e3b0c44298fc1c149afbf4c8996fb92427ae41e4649b934ca495991b7852b855".
Proof. vm_compute. reflexivity. Qed.

Example sha256_abc :
  sha256_hexdigest "abc"
  = "ba7816bf8f01cfea414140de5dae2223b00361a396177a9cb410ff61f20015ad".
Proof. vm_compute. reflexivity. Qed.

Example sha256_two_blocks :
  sha256_hexdigest
    "aaaaaaaaaaaaaaaaaaaaaaaaaaaaaaaaaaaaaaaaaaaaaaaaaaaaaaaaaaaaaaaaaaaaaaaaaaaaaaaaaaaaaaaaaaaaaaaaaaaaaaaaaaaaaaaaaaaaaaaa"
  = "2f3d335432c70b580af0e8e1b3674a7c020d683aa5f73aaaedfdc55af904c21c".
Proof. vm_compute. reflexivity. Qed.
End Sha256.

(* ===================================================================== *)
(** ** core/deduplication.py                                              *)
(* ===================================================================== *)

Module Deduplication.
Import PyStr HashUtils SimHashProps.
Local Open Scope Q_scope.

Definition sha256_hash (content : string) : string :=
  Sha256.sha256_hexdigest content.

Definition starts_space (s : string) : bool :=
  match s with
  | String c _ => isspace c
  | EmptyString => false
  end.

(** [re.sub(r"\s+", " ", s)]: every run of whitespace becomes one blank. *)
Fixpoint sub_spaces (s : string) : string :=
  match s with
  | EmptyString => EmptyString
  | String c r =>
      if isspace c then
        if starts_space r then sub_spaces r else String " " (sub_spaces r)
      else String c (sub_spaces r)
  end.

(** [content_hash] *)
Definition content_hash (text : string) : string :=
  sha256_hash (sub_spaces (lower (strip text))).

(** The dataclass [DeduplicationResult]. *)
Record DeduplicationResult := {
  is_duplicate : bool;
  similarity : Q;
  matching_url : option string;
  method : string;
}.

(** [ContentDeduplicator]; [_simhashes] is the dict as the list of its
    items in insertion order, the order in which [_check_simhash] walks
    it.  The hasher is [SimHash(hash_bits=64)]. *)
Record ContentDeduplicator := {
  _threshold : Q;
  _exact_hashes : gmap string string;
  _simhashes : list (string * Z);
  _duplicate_count : Z;
}.

Definition __init__ (similarity_threshold : Q) : ContentDeduplicator :=
  {| _threshold := similarity_threshold; _exact_hashes := ∅;
     _simhashes := []; _duplicate_count := 0 |}.

Definition count_duplicate (d : ContentDeduplicator) : ContentDeduplicator :=
  {| _threshold := _threshold d; _exact_hashes := _exact_hashes d;
     _simhashes := _simhashes d;
     _duplicate_count := (_duplicate_count d + 1)%Z |}.

(** [_check_exact] *)
Definition _check_exact (d : ContentDeduplicator) (url text : string)
  : DeduplicationResult * ContentDeduplicator :=
  let h := content_hash text in
  match _exact_hashes d !! h with
  | Some matching =>
      ({| is_duplicate := true; similarity := 1;
          matching_url := Some matching; method := "exact_hash" |},
       count_duplicate d)
  | None =>
      ({| is_duplicate := false; similarity := 0; matching_url := None;
          method := "exact_hash" |}, d)
  end.

(** The loop of [_check_simhash] over the stored fingerprints: the best
    similarity so far and its URL.  [None] when a similarity does not
    come back. *)
Fixpoint best_match (fuel : nat) (current_hash : Z)
    (items : list (string * Z)) (best_similarity : Q)
    (best_url : option string) : option (Q * option string) :=
  match items with
  | [] => Some (best_similarity, best_url)
  | (stored_url, stored_hash) :: items' =>
      match SimHash.similarity 64 fuel current_hash stored_hash with
      | Some sim =>
          if Qlt_le_dec best_similarity sim
          then best_match fuel current_hash items' sim (Some stored_url)
          else best_match fuel current_hash items' best_similarity best_url
      | None => None
      end
  end.

(** [_check_simhash] *)
Definition _check_simhash (fuel : nat) (d : ContentDeduplicator)
    (url text : string)
  : option (DeduplicationResult * ContentDeduplicator) :=
  match compute 64 text with
  | Some current_hash =>
      match best_match fuel current_hash (_simhashes d) 0 None with
      | Some (best_similarity, best_url) =>
          if Qle_bool (_threshold d) best_similarity
          then Some ({| is_duplicate := true; similarity := best_similarity;
                        matching_url := best_url; method := "simhash" |},
                     count_duplicate d)
          else Some ({| is_duplicate := false; similarity := best_similarity;
                        matching_url := best_url; method := "simhash" |}, d)
      | None => None
      end
  | None => None
  end.

(** [d[key] = value] on the insertion-ordered dict. *)
Fixpoint dict_set (d : list (string * Z)) (key : string) (value : Z)
  : list (string * Z) :=
  match d with
  | [] => [(key, value)]
  | (k, v) :: d' =>
      if String.eqb k key then (k, value) :: d'
      else (k, v) :: dict_set d' key value
  end.

(** [_store] *)
Definition _store (d : ContentDeduplicator) (url text : string)
  : option ContentDeduplicator :=
  match compute 64 text with
  | Some fingerprint =>
      Some {| _threshold := _threshold d;
              _exact_hashes := <[content_hash text := url]> (_exact_hashes d);
              _simhashes := dict_set (_simhashes d) url fingerprint;
              _duplicate_count := _duplicate_count d |}
  | None => None
  end.

(** [check] *)
Definition check (fuel : nat) (d : ContentDeduplicator) (url text : string)
  : option (DeduplicationResult * ContentDeduplicator) :=
  if String.eqb text EmptyString
     || (String.length (strip text) <? 50)%nat
  then Some ({| is_duplicate := false; similarity := 0; matching_url := None;
                method := "skipped_short_content" |}, d)
  else
    let '(exact, d) := _check_exact d url text in
    if is_duplicate exact then Some (exact, d)
    else
      match _check_simhash fuel d url text with
      | Some (near, d) =>
          if is_duplicate near then Some (near, d)
          else
            match _store d url text with
            | Some d =>
                Some ({| is_duplicate := false; similarity := 0;
                         matching_url := None; method := "unique" |}, d)
            | None => None
            end
      | None => None
      end.

(** [get_stats]: [total_unique] and [total_duplicates]. *)
Definition total_unique (d : ContentDeduplicator) : Z :=
  Z.of_nat (base.size (_exact_hashes d)).

Definition text1 : string :=
  "The quick brown fox jumps over the lazy dog and keeps running through the forest".
Definition text3 : string :=
  "The quick brown fox jumps over the lazy dog and keeps running through the woods".
Definition text4 : string :=
  "Completely different content about formal verification of web crawlers in Rocq".

Example content_hash_values :
  content_hash "  The  Quick brown   FOX "
  = "9ecb36561341d18eb65484e833efea61edc74b84cf5e6ae1b81c63533e25fc8f".
Proof. vm_compute. reflexivity. Qed.

(** The state after a [check] that returned. *)
Definition after (c : option (DeduplicationResult * ContentDeduplicator))
    (d : ContentDeduplicator) : ContentDeduplicator :=
  match c with
  | Some (_, d') => d'
  | None => d
  end.

(** A run of [check] calls, as CPython gives it. *)
Example check_run :
  let d0 := __init__ (85 # 100) in
  let c1 := check 64 d0 "u1" text1 in
  let d1 := after c1 d0 in
  let c2 := check 64 d1 "u2" "  THE quick   brown fox jumps over the lazy dog and keeps running through the forest " in
  let d2 := after c2 d1 in
  let c3 := check 64 d2 "u3" text3 in
  let d3 := after c3 d2 in
  let c4 := check 64 d3 "u4" text4 in
  let d4 := after c4 d3 in
  let c5 := check 64 d4 "u5" "short" in
  fst <$> c1 = Some {| is_duplicate := false; similarity := 0;
                  matching_url := None; method := "unique" |} /\
  fst <$> c2 = Some {| is_duplicate := true; similarity := 1;
                  matching_url := Some "u1"; method := "exact_hash" |} /\
  fst <$> c3 = Some {| is_duplicate := true; similarity := 1 - 8 / 64;
                  matching_url := Some "u1"; method := "simhash" |} /\
  fst <$> c4 = Some {| is_duplicate := false; similarity := 0;
                  matching_url := None; method := "unique" |} /\
  fst <$> c5 = Some {| is_duplicate := false; similarity := 0;
                  matching_url := None;
                  method := "skipped_short_content" |} /\
  _duplicate_count d4 = 2%Z /\ total_unique d4 = 2%Z /\
  _simhashes d4 = [("u1", 18007230868113952711%Z);
                   ("u4", 3363064863620625547%Z)].
Proof. vm_compute. repeat split; reflexivity. Qed.

(** Does [check] skip the text as too short? *)
Definition too_short (text : string) : bool :=
  String.eqb text EmptyString || (String.length (strip text) <? 50)%nat.

Definition skipped_result : DeduplicationResult :=
  {| is_duplicate := false; similarity := 0; matching_url := None;
     method := "skipped_short_content" |}.

Definition unique_result : DeduplicationResult :=
  {| is_duplicate := false; similarity := 0; matching_url := None;
     method := "unique" |}.

Definition exact_result (u : string) : DeduplicationResult :=
  {| is_duplicate := true; similarity := 1; matching_url := Some u;
     method := "exact_hash" |}.

(** Runs of [check] calls that returned, with the verdicts they gave. *)
Inductive runs (fuel : nat) (d0 : ContentDeduplicator)
  : list DeduplicationResult -> ContentDeduplicator -> Prop :=
| runs_nil : runs fuel d0 [] d0
| runs_check rs d url text r d' :
    runs fuel d0 rs d -> check fuel d url text = Some (r, d') ->
    runs fuel d0 (rs ++ [r]) d'.

(** What one returning [check] did, case by case. *)
Inductive effect (fuel : nat) (d : ContentDeduplicator) (url text : string)
  : DeduplicationResult -> ContentDeduplicator -> Prop :=
| effect_skipped :
    too_short text = true -> effect fuel d url text skipped_result d
| effect_exact u :
    too_short text = false ->
    _exact_hashes d !! content_hash text = Some u ->
    effect fuel d url text (exact_result u) (count_duplicate d)
| effect_near current_hash best best_url :
    too_short text = false ->
    _exact_hashes d !! content_hash text = None ->
    compute 64 text = Some current_hash ->
    best_match fuel current_hash (_simhashes d) 0 None
      = Some (best, best_url) ->
    Qle_bool (_threshold d) best = true ->
    effect fuel d url text
      {| is_duplicate := true; similarity := best; matching_url := best_url;
         method := "simhash" |} (count_duplicate d)
| effect_unique current_hash best best_url :
    too_short text = false ->
    _exact_hashes d !! content_hash text = None ->
    compute 64 text = Some current_hash ->
    best_match fuel current_hash (_simhashes d) 0 None
      = Some (best, best_url) ->
    Qle_bool (_threshold d) best = false ->
    effect fuel d url text unique_result
      {| _threshold := _threshold d;
         _exact_hashes := <[content_hash text := url]> (_exact_hashes d);
         _simhashes := dict_set (_simhashes d) url current_hash;
         _duplicate_count := _duplicate_count d |}.

Lemma check_effect fuel d url text r d' :
  check fuel d url text = Some (r, d') -> effect fuel d url text r d'.
Proof.
  unfold check. fold (too_short text).
  destruct (too_short text) eqn:Hshort.
  { intros [= <- <-]. by constructor. }
  unfold _check_exact.
  destruct (_exact_hashes d !! content_hash text) as [u|] eqn:Hex.
  { cbn [is_duplicate]. intros [= <- <-]. by constructor. }
  cbn [is_duplicate]. unfold _check_simhash, _store.
  destruct (compute 64 text) as [cur|] eqn:Hcur; [|done].
  destruct (best_match fuel cur (_simhashes d) 0 None) as [[best bu]|] eqn:Hb;
    [|done].
  destruct (Qle_bool (_threshold d) best) eqn:Hth; cbn [is_duplicate].
  - intros [= <- <-]. by econstructor.
  - intros [= <- <-]. by econstructor.
Qed.

(** What holds of the tables after any run. *)
Record dedup_ok (d : ContentDeduplicator) : Prop := {
  ok_range : Forall (fun uh => (0 <= uh.2 < 2 ^ 64)%Z) (_simhashes d);
  ok_length : (length (_simhashes d) <= base.size (_exact_hashes d))%nat;
}.

Lemma dict_set_length d k v : (length (dict_set d k v) <= S (length d))%nat.
Proof.
  induction d as [|[k' v'] d IH]; cbn [dict_set length]; [lia|].
  destruct (String.eqb k' k); cbn [length]; lia.
Qed.

Lemma dict_set_Forall (P : string * Z -> Prop) d k v :
  Forall P d -> P (k, v) -> Forall P (dict_set d k v).
Proof.
  intros Hd Hkv. induction Hd as [|[k' v'] d Hx Hd IH]; cbn [dict_set];
    [by repeat constructor|].
  destruct (String.eqb_spec k' k) as [->|_]; by constructor.
Qed.

Lemma compute_range text :
  exists fp, compute 64 text = Some fp /\ (0 <= fp < 2 ^ 64)%Z.
Proof.
  destruct (compute_spec 64 text) as (hs & fp & _ & _ & _ & Hc & Hr & _);
    [done|]. eauto.
Qed.

Lemma best_match_total fuel cur items : forall best best_url,
  (64 <= fuel)%nat -> (0 <= cur < 2 ^ 64)%Z ->
  Forall (fun uh => (0 <= uh.2 < 2 ^ 64)%Z) items ->
  exists b u, best_match fuel cur items best best_url = Some (b, u).
Proof.
  intros best best_url Hfuel Hcur Hitems. revert best best_url.
  induction Hitems as [|[u h] items Hh _ IH]; intros best best_url;
    cbn [best_match]; [eauto|].
  rewrite SimHash.similarity_value by done.
  destruct (Qlt_le_dec _ _); apply IH.
Qed.

Lemma effect_ok fuel d url text r d' :
  dedup_ok d -> effect fuel d url text r d' -> dedup_ok d'.
Proof.
  intros [Hr Hl]. destruct 1 as [|u|cur best bu|cur best bu Hs Hex Hcur];
    try done.
  destruct (compute_range text) as (fp & Hfp & Hrange).
  rewrite Hcur in Hfp. injection Hfp as ->.
  split; cbn [_simhashes _exact_hashes].
  - by apply dict_set_Forall.
  - rewrite map_size_insert_None by done.
    pose proof (dict_set_length (_simhashes d) url fp). lia.
Qed.

Lemma runs_ok fuel d0 rs d : dedup_ok d0 -> runs fuel d0 rs d -> dedup_ok d.
Proof.
  intros H0. induction 1 as [|rs d url text r d' _ IH Hc]; [done|].
  eapply effect_ok; [exact IH|]. by apply check_effect.
Qed.

Lemma init_ok threshold : dedup_ok (__init__ threshold).
Proof. split; cbn; [constructor|lia]. Qed.

Lemma check_total fuel d url text :
  (64 <= fuel)%nat -> dedup_ok d ->
  exists r d', check fuel d url text = Some (r, d').
Proof.
  intros Hfuel [Hr _]. unfold check.
  destruct (_ || _); [eauto|]. unfold _check_exact.
  destruct (_exact_hashes d !! content_hash text); cbn [is_duplicate];
    [eauto|].
  unfold _check_simhash, _store.
  destruct (compute_range text) as (fp & -> & Hrange).
  destruct (best_match_total fuel fp (_simhashes d) 0 None Hfuel Hrange Hr)
    as (b & u & ->).
  destruct (Qle_bool _ _); cbn [is_duplicate]; eauto.
Qed.

(** X24: the books of the deduplicator.  After any run of [check] calls
    on a fresh deduplicator, [duplicate_count] is the number of verdicts
    that said duplicate, [total_unique] the number of verdicts [unique],
    no more fingerprints than exact hashes are stored, and the next
    [check] returns: every stored fingerprint is a 64-bit value, so the
    distance loop ends. *)
Theorem dedup_accounting fuel threshold rs d :
  (64 <= fuel)%nat -> runs fuel (__init__ threshold) rs d ->
  _duplicate_count d
    = Z.of_nat (length (filter (fun r => is_duplicate r = true) rs)) /\
  total_unique d
    = Z.of_nat (length (filter (fun r => method r = "unique") rs)) /\
  (length (_simhashes d) <= base.size (_exact_hashes d))%nat /\
  _threshold d = threshold /\
  forall url text, exists r d', check fuel d url text = Some (r, d').
Proof.
  intros Hfuel Hruns.
  pose proof (runs_ok _ _ _ _ (init_ok threshold) Hruns) as Hok.
  assert (Hmain :
    _duplicate_count d
      = Z.of_nat (length (filter (fun r => is_duplicate r = true) rs)) /\
    total_unique d
      = Z.of_nat (length (filter (fun r => method r = "unique") rs)) /\
    _threshold d = threshold).
  { clear Hok. induction Hruns as [|rs d url text r d' _ IH Hc]; [done|].
    destruct IH as (IHd & IHu & IHt). rewrite !filter_app, !length_app.
    rewrite !filter_cons, !filter_nil. unfold total_unique in *.
    destruct (check_effect _ _ _ _ _ _ Hc)
      as [|u|cur best bu|cur best bu Hs Hex]; cbn [is_duplicate method
        _duplicate_count _exact_hashes _threshold count_duplicate
        skipped_result unique_result exact_result].
    - rewrite !decide_False by done. cbn [length]. split; [lia|].
      split; [lia|done].
    - rewrite decide_True, decide_False by done. cbn [length].
      split; [lia|]. split; [lia|done].
    - rewrite decide_True, decide_False by done. cbn [length].
      split; [lia|]. split; [lia|done].
    - rewrite decide_False, decide_True by done. cbn [length].
      rewrite map_size_insert_None by done. split; [lia|]. split; [lia|done]. }
  destruct Hmain as (Hd & Hu & Ht). split; [done|]. split; [done|].
  split; [apply (ok_length _ Hok)|]. split; [done|].
  intros url text. by apply check_total.
Qed.

Lemma dedup_accounting_witness :
  let d0 := __init__ (85 # 100) in
  let d1 := after (check 64 d0 "u1" text1) d0 in
  let d2 := after (check 64 d1 "u2" text1) d1 in
  (64 <= 64)%nat /\
  runs 64 d0 [unique_result; exact_result "u1"] d2 /\
  _duplicate_count d2 = 1%Z /\ total_unique d2 = 1%Z.
Proof.
  intros d0 d1 d2.
  assert (H1 : check 64 d0 "u1" text1 = Some (unique_result, d1))
    by (vm_compute; reflexivity).
  assert (H2 : check 64 d1 "u2" text1 = Some (exact_result "u1", d2))
    by (vm_compute; reflexivity).
  clearbody d2. clearbody d1.
  assert (Hruns : runs 64 d0 [unique_result; exact_result "u1"] d2).
  { apply (runs_check 64 d0 [unique_result] d1 "u2" text1 _ d2); [|exact H2].
    apply (runs_check 64 d0 [] d0 "u1" text1 _ d1); [constructor|exact H1]. }
  clear H1 H2.
  split; [apply le_n|]. split; [exact Hruns|].
  destruct (dedup_accounting 64 (85 # 100) _ d2 (le_n 64) Hruns)
    as (Hd & Hu & _).
  rewrite Hd, Hu. vm_compute. split; reflexivity.
Defined.

Lemma runs_exact_keep fuel d1 rs d2 h u :
  _exact_hashes d1 !! h = Some u -> runs fuel d1 rs d2 ->
  _exact_hashes d2 !! h = Some u.
Proof.
  intros H1. induction 1 as [|rs d url text r d' _ IH Hc]; [done|].
  destruct (check_effect _ _ _ _ _ _ Hc)
    as [|u'|cur best bu|cur best bu Hs Hex]; try done.
  cbn [_exact_hashes]. rewrite lookup_insert_ne; [done|].
  intros <-. congruence.
Qed.

(** X25: what was stored is found again.  Once [check] has answered
    [unique] for a text, every later [check] of a text with the same
    [content_hash] (long enough not to be skipped) is reported as an exact
    duplicate of the URL stored first, with similarity 1.0, whatever was
    checked in between: an entry of the exact-hash table is never
    overwritten. *)
Theorem exact_duplicate_found fuel d url text r d1 rs d2 url' text' :
  check fuel d url text = Some (r, d1) -> method r = "unique" ->
  runs fuel d1 rs d2 ->
  content_hash text' = content_hash text -> too_short text' = false ->
  check fuel d2 url' text'
  = Some ({| is_duplicate := true; similarity := 1;
             matching_url := Some url; method := "exact_hash" |},
          count_duplicate d2).
Proof.
  intros Hc Hm Hruns Hh Hshort.
  assert (H1 : _exact_hashes d1 !! content_hash text = Some url).
  { destruct (check_effect _ _ _ _ _ _ Hc)
      as [|u'|cur best bu|cur best bu Hs Hex]; try done.
    cbn [_exact_hashes]. by rewrite lookup_insert_eq. }
  pose proof (runs_exact_keep _ _ _ _ _ _ H1 Hruns) as H2.
  unfold check. fold (too_short text'). rewrite Hshort.
  unfold _check_exact. by rewrite Hh, H2.
Qed.

Lemma exact_duplicate_found_witness :
  let d0 := __init__ (85 # 100) in
  let d1 := after (check 64 d0 "u1" text1) d0 in
  let d2 := after (check 64 d1 "u4" text4) d1 in
  check 64 d0 "u1" text1 = Some (unique_result, d1) /\
  runs 64 d1 [unique_result] d2 /\
  content_hash (lower text1) = content_hash text1 /\
  too_short (lower text1) = false /\
  check 64 d2 "u9" (lower text1)
  = Some (exact_result "u1", count_duplicate d2).
Proof.
  intros d0 d1 d2.
  assert (H1 : check 64 d0 "u1" text1 = Some (unique_result, d1))
    by (vm_compute; reflexivity).
  assert (H2 : check 64 d1 "u4" text4 = Some (unique_result, d2))
    by (vm_compute; reflexivity).
  assert (Hh : content_hash (lower text1) = content_hash text1)
    by (vm_compute; reflexivity).
  assert (Hs : too_short (lower text1) = false) by (vm_compute; reflexivity).
  clearbody d2. clearbody d1.
  assert (Hruns : runs 64 d1 [unique_result] d2).
  { apply (runs_check 64 d1 [] d1 "u4" text4 _ d2); [constructor|exact H2]. }
  split; [exact H1|]. split; [exact Hruns|]. split; [exact Hh|].
  split; [exact Hs|].
  exact (exact_duplicate_found 64 d0 "u1" text1 unique_result d1
           [unique_result] d2 "u9" (lower text1) H1 eq_refl Hruns Hh Hs).
Defined.

(** What the loop over the stored fingerprints returns. *)
Lemma best_match_spec fuel cur items : forall b0 u0 b u,
  best_match fuel cur items b0 u0 = Some (b, u) ->
  b0 <= b /\
  (forall su sh, (su, sh) ∈ items ->
     exists s, SimHash.similarity 64 fuel cur sh = Some s /\ s <= b) /\
  ((b = b0 /\ u = u0) \/
   (exists su sh, (su, sh) ∈ items /\ u = Some su /\
      SimHash.similarity 64 fuel cur sh = Some b /\ b0 < b)).
Proof.
  induction items as [|[su sh] items IH]; intros b0 u0 b u; cbn [best_match].
  { intros [= <- <-]. split; [apply Qle_refl|]. split; [|by left].
    by intros ?? ?%elem_of_nil. }
  destruct (SimHash.similarity 64 fuel cur sh) as [s|] eqn:Hs; [|done].
  destruct (Qlt_le_dec b0 s) as [Hlt|Hle]; intros (Hb & Hall & Hwho)%IH.
  - split; [apply Qlt_le_weak; by eapply Qlt_le_trans|]. split.
    + intros su' sh' [[= -> ->]|Hin]%elem_of_cons;
        [eauto|by apply (Hall su' sh')].
    + right. destruct Hwho as [[-> ->]|(su' & sh' & Hin & -> & Hsim & Hgt)].
      * exists su, sh. split; [by left|]. by repeat split.
      * exists su', sh'. split; [by right|]. split; [done|]. split; [done|].
        by eapply Qlt_trans.
  - split; [done|]. split.
    + intros su' sh' [[= -> ->]|Hin]%elem_of_cons;
        [|by apply (Hall su' sh')].
      exists s. split; [done|]. by eapply Qle_trans.
    + destruct Hwho as [[-> ->]|(su' & sh' & Hin & -> & Hsim & Hgt)];
        [by left|right].
      exists su', sh'. split; [by right|]. by repeat split.
Qed.

(** X26: a near-duplicate verdict is sound: when [check] answers with
    method [simhash], the similarity it reports is at least the threshold
    and is the greatest similarity between the text's fingerprint and any
    stored one; for a positive threshold the matching URL is a stored URL
    whose fingerprint has exactly that similarity; nothing is stored and
    [duplicate_count] grows by one. *)
Theorem near_duplicate_sound fuel d url text r d' :
  check fuel d url text = Some (r, d') -> method r = "simhash" ->
  exists current_hash,
    compute 64 text = Some current_hash /\
    is_duplicate r = true /\ _threshold d <= similarity r /\
    (forall su sh, (su, sh) ∈ _simhashes d ->
       exists s, SimHash.similarity 64 fuel current_hash sh = Some s /\
                 s <= similarity r) /\
    (0 < _threshold d ->
     exists su sh, (su, sh) ∈ _simhashes d /\ matching_url r = Some su /\
       SimHash.similarity 64 fuel current_hash sh = Some (similarity r)) /\
    d' = count_duplicate d.
Proof.
  intros Hc Hm.
  destruct (check_effect _ _ _ _ _ _ Hc)
    as [|u'|cur best bu Hs Hex Hcur Hbest Hth|cur best bu Hs Hex]; try done.
  exists cur. cbn [is_duplicate similarity matching_url].
  apply Qle_bool_iff in Hth.
  destruct (best_match_spec _ _ _ _ _ _ _ Hbest) as (_ & Hall & Hwho).
  split; [done|]. split; [done|]. split; [done|]. split; [done|].
  split; [|done]. intros Hpos.
  destruct Hwho as [[-> ->]|(su & sh & Hin & -> & Hsim & _)].
  - exfalso. apply (Qlt_not_le _ _ Hpos). done.
  - eauto.
Qed.

Lemma near_duplicate_sound_witness :
  let d0 := __init__ (85 # 100) in
  let d1 := after (check 64 d0 "u1" text1) d0 in
  let r := {| is_duplicate := true; similarity := 1 - 8 / 64;
              matching_url := Some "u1"; method := "simhash" |} in
  check 64 d1 "u3" text3 = Some (r, count_duplicate d1) /\
  method r = "simhash" /\
  _threshold d1 <= similarity r.
Proof.
  intros d0 d1 r.
  assert (Hc : check 64 d1 "u3" text3 = Some (r, count_duplicate d1))
    by (vm_compute; reflexivity).
  clearbody d1.
  destruct (near_duplicate_sound 64 d1 "u3" text3 r _ Hc eq_refl)
    as (cur & _ & _ & Hth & _).
  split; [exact Hc|]. split; [reflexivity|exact Hth].
Defined.

(** X27: a deduplicator built with a threshold of 0 or below never
    stores anything: every text that is long enough is reported as a
    near-duplicate (similarity 0.0, no matching URL), both tables stay
    empty, and [unique] is never answered. *)
Theorem nonpositive_threshold fuel threshold rs d :
  threshold <= 0 -> runs fuel (__init__ threshold) rs d ->
  _exact_hashes d = ∅ /\ _simhashes d = [] /\
  Forall (fun r => matching_url r = None /\
                   (r = skipped_result \/
                    (is_duplicate r = true /\ method r = "simhash" /\
                     similarity r = 0))) rs /\
  forall url text, too_short text = false ->
    exists current_hash, compute 64 text = Some current_hash /\
      check fuel d url text
      = Some ({| is_duplicate := true; similarity := 0;
                 matching_url := None; method := "simhash" |},
              count_duplicate d).
Proof.
  intros Hth Hruns.
  assert (Hmain : _exact_hashes d = ∅ /\ _simhashes d = [] /\
    _threshold d = threshold /\
    Forall (fun r => matching_url r = None /\
                     (r = skipped_result \/
                      (is_duplicate r = true /\ method r = "simhash" /\
                       similarity r = 0))) rs).
  { induction Hruns as [|rs d url text r d' _ IH Hc]; [by repeat split|].
    destruct IH as (He & Hs & Ht & Hall).
    destruct (check_effect _ _ _ _ _ _ Hc)
      as [|u' _ Hex|cur best bu _ _ _ Hbest _|cur best bu _ _ _ Hbest Hno].
    - repeat split; try done. apply Forall_app. split; [done|].
      apply Forall_singleton. split; [done|]. by left.
    - by rewrite He, lookup_empty in Hex.
    - rewrite Hs in Hbest. cbn in Hbest. injection Hbest as <- <-.
      repeat split; try done. apply Forall_app. split; [done|].
      apply Forall_singleton. split; [done|]. right. by repeat split.
    - rewrite Hs in Hbest. cbn in Hbest. injection Hbest as <- <-.
      exfalso. rewrite Ht in Hno.
      by rewrite (proj2 (Qle_bool_iff threshold 0) Hth) in Hno. }
  destruct Hmain as (He & Hs & Ht & Hall).
  split; [done|]. split; [done|]. split; [done|].
  intros url text Hshort.
  destruct (compute_range text) as (fp & Hfp & _). exists fp. split; [done|].
  unfold check. fold (too_short text). rewrite Hshort.
  unfold _check_exact. rewrite He, lookup_empty. cbn [is_duplicate].
  unfold _check_simhash. rewrite Hfp, Hs. cbn [best_match].
  by rewrite Ht, (proj2 (Qle_bool_iff threshold 0) Hth).
Qed.

Lemma nonpositive_threshold_witness :
  let d0 := __init__ 0 in
  let d1 := after (check 64 d0 "u1" text1) d0 in
  0 <= 0 /\ runs 64 d0 [ {| is_duplicate := true; similarity := 0;
                           matching_url := None; method := "simhash" |} ] d1 /\
  _exact_hashes d1 = ∅ /\ _simhashes d1 = [].
Proof.
  intros d0 d1.
  assert (H1 : check 64 d0 "u1" text1
               = Some ({| is_duplicate := true; similarity := 0;
                          matching_url := None; method := "simhash" |}, d1))
    by (vm_compute; reflexivity).
  clearbody d1.
  assert (Hruns : runs 64 d0 [ {| is_duplicate := true; similarity := 0;
                                 matching_url := None;
                                 method := "simhash" |} ] d1).
  { apply (runs_check 64 d0 [] d0 "u1" text1 _ d1); [constructor|exact H1]. }
  clear H1.
  destruct (nonpositive_threshold 64 0 _ d1 (Qle_refl 0) Hruns)
    as (He & Hs & _).
  split; [apply Qle_refl|]. split; [exact Hruns|]. split; [exact He|exact Hs].
Defined.
End Deduplication.

(* ===================================================================== *)
(** ** utils/hash_utils.py: [content_hash]                                 *)
(* ===================================================================== *)

Module ContentHashProps.
Import PyStr HashUtils Deduplication.

Lemma starts_space_sub_spaces s : starts_space (sub_spaces s) = starts_space s.
Proof.
  induction s as [|c r IH]; [done|]. cbn [sub_spaces starts_space].
  destruct (isspace c) eqn:Hc; [|cbn; by rewrite Hc].
  destruct (starts_space r) eqn:Hr; [by rewrite IH|done].
Qed.

Lemma sub_spaces_idem s : sub_spaces (sub_spaces s) = sub_spaces s.
Proof.
  induction s as [|c r IH]; [done|]. cbn [sub_spaces].
  destruct (isspace c) eqn:Hc.
  - destruct (starts_space r) eqn:Hr; [done|]. cbn [sub_spaces].
    change (isspace " ") with true. cbn iota.
    by rewrite starts_space_sub_spaces, Hr, IH.
  - cbn [sub_spaces]. by rewrite Hc, IH.
Qed.

Lemma starts_space_lower s : starts_space (lower s) = starts_space s.
Proof. destruct s as [|c r]; [done|]. apply UrlHashProps.isspace_lower_char. Qed.

Lemma lower_char_space c : isspace c = true -> lower_char c = c.
Proof.
  unfold lower_char, isupper, isspace, between. intros H.
  destruct ((65 <=? code c)%nat && (code c <=? 90)%nat) eqn:E; [|done].
  apply andb_true_iff in E as [?%Nat.leb_le ?%Nat.leb_le].
  apply orb_true_iff in H
    as [[?%Nat.leb_le ?%Nat.leb_le]%andb_true_iff
       |[?%Nat.leb_le ?%Nat.leb_le]%andb_true_iff]; lia.
Qed.

Lemma sub_spaces_lower s : sub_spaces (lower s) = lower (sub_spaces s).
Proof.
  induction s as [|c r IH]; [done|]. cbn [lower sub_spaces].
  rewrite UrlHashProps.isspace_lower_char, starts_space_lower.
  destruct (isspace c); [|cbn [lower]; by rewrite IH].
  destruct (starts_space r); [done|]. cbn [lower]. by rewrite IH.
Qed.

Lemma lstrip_sub_spaces s :
  lstrip_by isspace (sub_spaces s) = sub_spaces (lstrip_by isspace s).
Proof.
  induction s as [|c r IH]; [done|]. cbn [sub_spaces lstrip_by].
  destruct (isspace c) eqn:Hc.
  - destruct (starts_space r); [done|]. cbn [lstrip_by].
    by change (isspace " ") with true.
  - cbn [lstrip_by sub_spaces]. by rewrite Hc.
Qed.

Lemma all_space_sub_spaces s :
  all_chars isspace (sub_spaces s) = all_chars isspace s.
Proof.
  induction s as [|c r IH]; [done|]. cbn [sub_spaces all_chars].
  destruct (isspace c) eqn:Hc; [|cbn [all_chars]; by rewrite Hc].
  destruct (starts_space r); [done|]. cbn [all_chars].
  by change (isspace " ") with true.
Qed.

Lemma starts_space_rstrip s :
  all_chars isspace s = false ->
  starts_space (rstrip_by isspace s) = starts_space s.
Proof.
  destruct s as [|c r]; [done|]. rewrite NormalizerProps.rstrip_by_String.
  cbn [all_chars starts_space]. destruct (all_chars isspace r); [|done].
  rewrite andb_true_r. intros Hc. by rewrite Hc.
Qed.

Lemma all_space_no_start s :
  all_chars isspace s = true -> starts_space s = false -> s = EmptyString.
Proof. destruct s as [|c r]; [done|]. cbn. by intros [-> _]%andb_true_iff. Qed.

Lemma rstrip_sub_spaces s :
  rstrip_by isspace (sub_spaces s) = sub_spaces (rstrip_by isspace s).
Proof.
  induction s as [|c r IH]; [done|].
  rewrite (NormalizerProps.rstrip_by_String isspace c r). cbn [sub_spaces].
  destruct (isspace c) eqn:Hc.
  - destruct (starts_space r) eqn:Hr.
    + rewrite IH. destruct (all_chars isspace r) eqn:Ha.
      * destruct r as [|x r']; [done|].
        rewrite NormalizerProps.rstrip_by_String. cbn [all_chars] in Ha.
        apply andb_true_iff in Ha as [-> ->]. done.
      * cbn [sub_spaces]. by rewrite Hc, starts_space_rstrip, Hr.
    + rewrite NormalizerProps.rstrip_by_String, all_space_sub_spaces.
      change (isspace " ") with true.
      destruct (all_chars isspace r) eqn:Ha; [done|].
      cbn [sub_spaces]. by rewrite Hc, starts_space_rstrip, Hr, IH.
  - rewrite NormalizerProps.rstrip_by_String, all_space_sub_spaces, Hc.
    destruct (all_chars isspace r); cbn [sub_spaces]; rewrite Hc; [done|].
    by rewrite IH.
Qed.

Lemma strip_sub_spaces s : strip (sub_spaces s) = sub_spaces (strip s).
Proof.
  unfold strip, strip_by. by rewrite lstrip_sub_spaces, rstrip_sub_spaces.
Qed.

(** X28: [content_hash] does not see letter case, surrounding
    whitespace, or how much whitespace of which kind separates the words:
    a text, its lowercase form, its stripped form and the text with every
    whitespace run replaced by one blank have the same hash; so [check]
    reports any such variant of a stored text as an exact duplicate. *)
Theorem content_hash_insensitive text :
  content_hash (lower text) = content_hash text /\
  content_hash (strip text) = content_hash text /\
  content_hash (sub_spaces text) = content_hash text /\
  content_hash (sub_spaces (lower (strip text))) = content_hash text.
Proof.
  unfold content_hash.
  assert (H1 : forall x, sub_spaces (lower (strip (lower x)))
                         = sub_spaces (lower (strip x))).
  { intros x. by rewrite <- UrlHashProps.lower_strip, UrlHashProps.lower_idem. }
  assert (H2 : forall x, sub_spaces (lower (strip (strip x)))
                         = sub_spaces (lower (strip x))).
  { intros x. unfold strip. by rewrite UrlHashProps.strip_by_idem. }
  assert (H3 : forall x, sub_spaces (lower (strip (sub_spaces x)))
                         = sub_spaces (lower (strip x))).
  { intros x.
    by rewrite strip_sub_spaces, <- sub_spaces_lower, sub_spaces_idem. }
  split; [by rewrite H1|]. split; [by rewrite H2|]. split; [by rewrite H3|].
  by rewrite H3, H1, H2.
Qed.

End ContentHashProps.

(* ===================================================================== *)
(** ** core/rate_limiter.py: [set_crawl_delay] and [record]               *)
(* ===================================================================== *)

Module CrawlDelayProps.
Import RateLimiter RateLimiterProps.
Local Open Scope Q_scope.

Lemma records_last_request_time l l' domain os :
  last_request_time (domain_state l domain)
  = last_request_time (domain_state l' domain) ->
  last_request_time (domain_state (records l domain os) domain)
  = last_request_time (domain_state (records l' domain os) domain).
Proof.
  intros Hl. induction os as [|o os IH] using rev_ind; [done|].
  rewrite !records_snoc.
  destruct (record_state (records l domain os) domain (response_time o)
              (success o) (status_code o) (at_time o)) as (-> & _).
  by destruct (record_state (records l' domain os) domain (response_time o)
                 (success o) (status_code o) (at_time o)) as (-> & _).
Qed.

(** X29: the limiter does not keep a delay given to [set_crawl_delay].
    With the adaptive flag off the call changes nothing that [acquire]
    looks at: [acquire] sleeps as long as it would have without the call,
    whatever is recorded afterwards.  With the flag on, the pace becomes
    [max(delay, min_delay)], and the next successful response with a
    status below 400 replaces it by
    [max(max(delay, min_delay) * 0.95, min_delay)]. *)
Theorem crawl_delay_not_kept l domain delay :
  let l1 := set_crawl_delay l domain delay in
  (_adaptive l = false ->
   forall os now u,
     (acquire (records l1 domain os) domain now u).1
     = (acquire (records l domain os) domain now u).1) /\
  (_adaptive l = true ->
   _calculate_delay l1 (domain_state l1 domain) = Qmax delay (_min_delay l) /\
   forall rt status now, (status < 400)%Z ->
     let l2 := record l1 domain rt true status now in
     _calculate_delay l2 (domain_state l2 domain)
     = Qmax (Qmax delay (_min_delay l) * (95 # 100)) (_min_delay l)).
Proof.
  intros l1.
  assert (Hd1 : current_delay (domain_state l1 domain)
                = Qmax delay (_min_delay l)).
  { subst l1. unfold set_crawl_delay. by rewrite domain_state_set. }
  split.
  - intros Had os now u. unfold acquire. cbn [fst]. unfold _calculate_delay.
    destruct (records_config l1 domain os) as (-> & _ & _ & -> & _).
    destruct (records_config l domain os) as (-> & _ & _ & -> & _).
    change (_adaptive l1) with (_adaptive l).
    change (_base_delay l1) with (_base_delay l). rewrite Had.
    rewrite (records_last_request_time l1 l domain os); [done|].
    subst l1. unfold set_crawl_delay. by rewrite domain_state_set.
  - intros Had. split.
    { unfold _calculate_delay. change (_adaptive l1) with (_adaptive l).
      by rewrite Had. }
    intros rt status now Hst l2. subst l2. unfold _calculate_delay.
    change (_adaptive (record l1 domain rt true status now))
      with (_adaptive l). rewrite Had.
    unfold record. rewrite domain_state_set.
    change (_adaptive l1) with (_adaptive l). rewrite Had.
    unfold _adjust_delay.
    change (consecutive_errors (record_request _ _ true _)) with 0%Z.
    rewrite !record_request_delay, Hd1.
    destruct (Z.eqb_spec status 429); [lia|].
    rewrite Z.geb_leb.
    destruct (Z.leb_spec 500 status); [lia|].
    cbn [Z.geb Z.compare Z.eqb andb].
    destruct (Z.ltb_spec status 400); [|lia].
    done.
Qed.

Lemma crawl_delay_not_kept_witness :
  let fixed := {| _base_delay := 1 / 2; _min_delay := 1 # 2;
                  _max_delay := 10; _adaptive := false; _jitter := 3 # 10;
                  _domains := ∅ |} in
  let l1 := set_crawl_delay default_limiter "a.test" 5 in
  let l2 := record l1 "a.test" (1 # 5) true 200 1 in
  _adaptive fixed = false /\
  (acquire (set_crawl_delay fixed "a.test" 5) "a.test" 0 0).1
    = (acquire fixed "a.test" 0 0).1 /\
  _adaptive default_limiter = true /\
  _calculate_delay l1 (domain_state l1 "a.test") == 5 /\
  _calculate_delay l2 (domain_state l2 "a.test") == 19 # 4.
Proof.
  intros fixed l1 l2.
  split; [reflexivity|]. split.
  - exact (proj1 (crawl_delay_not_kept fixed "a.test" 5) eq_refl [] 0 0).
  - destruct (proj2 (crawl_delay_not_kept default_limiter "a.test" 5)
                eq_refl) as [H1 H2].
    split; [reflexivity|]. split.
    + fold l1 in H1. rewrite H1. reflexivity.
    + subst l2. fold l1 in H2. rewrite (H2 (1 # 5) 200%Z 1 eq_refl).
      reflexivity.
Defined.
End CrawlDelayProps.

(* ===================================================================== *)
(** ** core/url_normalizer.py: the fragment                               *)
(* ===================================================================== *)

Module FragmentProps.
Import PyStr Urllib Normalizer NormalizerProps.

(** [url + "#" + frag] *)
Definition with_fragment (url frag : string) : string :=
  url +:+ String "#" frag.

(** The test [if base_url and not url.startswith(("http://", "https://"))]
    of [normalize]. *)
Definition joined (url : string) (base_url : option string) : bool :=
  match base_url with
  | Some base =>
      negb (String.eqb base EmptyString) &&
      negb (startswith url "http://" || startswith url "https://")
  | None => false
  end.

Lemma with_fragment_cons a url frag :
  with_fragment (String a url) frag = String a (with_fragment url frag).
Proof. done. Qed.

Lemma with_fragment_nil frag : with_fragment EmptyString frag = String "#" frag.
Proof. done. Qed.

Lemma unquote_fragment_aux n : forall url frag,
  (String.length url <= n)%nat ->
  unquote (with_fragment url frag)
  = with_fragment (unquote url) (unquote frag).
Proof.
  induction n as [|n IH]; intros url frag Hlen.
  { destruct url; [done|cbn in Hlen; lia]. }
  destruct url as [|c r]; [done|].
  rewrite with_fragment_cons. cbn [unquote].
  cbn [String.length] in Hlen.
  destruct (Ascii.eqb c "%") eqn:Hc.
  - destruct r as [|a [|b r']].
    + rewrite with_fragment_nil. destruct frag as [|f frag'].
      * done.
      * change (hexval "#") with (@None nat).
        rewrite with_fragment_cons, <- with_fragment_nil.
        by rewrite IH by (cbn in *; lia).
    + rewrite with_fragment_cons, with_fragment_nil.
      change (hexval "#") with (@None nat).
      assert (Hr : unquote (String a (String "#" frag))
                   = with_fragment (unquote (String a EmptyString))
                                   (unquote frag)).
      { rewrite <- (IH (String a EmptyString) frag) by (cbn in *; lia). done. }
      rewrite Hr. by destruct (hexval a).
    + rewrite !with_fragment_cons.
      cbn [String.length] in Hlen.
      destruct (hexval a), (hexval b);
        rewrite ?with_fragment_cons, <- ?IH by (cbn in *; lia); done.
  - by rewrite with_fragment_cons, IH by lia.
Qed.

Lemma unquote_fragment url frag :
  unquote (with_fragment url frag)
  = with_fragment (unquote url) (unquote frag).
Proof. by apply (unquote_fragment_aux (String.length url)). Qed.

Lemma lstrip_by_fragment p url frag :
  p "#"%char = false ->
  lstrip_by p (with_fragment url frag)
  = with_fragment (lstrip_by p url) frag.
Proof.
  intros Hp. induction url as [|a url IH].
  - rewrite with_fragment_nil. cbn [lstrip_by]. by rewrite Hp.
  - rewrite with_fragment_cons. cbn [lstrip_by]. by destruct (p a).
Qed.

Lemma remove_chars_fragment p url frag :
  p "#"%char = false ->
  remove_chars p (with_fragment url frag)
  = with_fragment (remove_chars p url) (remove_chars p frag).
Proof.
  intros Hp. induction url as [|a url IH].
  - rewrite with_fragment_nil. cbn [remove_chars]. by rewrite Hp.
  - rewrite with_fragment_cons. cbn [remove_chars]. rewrite IH.
    by destruct (p a).
Qed.

Lemma partition_fragment c url frag :
  Ascii.eqb "#" c = false ->
  partition c (with_fragment url frag) =
  match partition c url with
  | (h, Some t) => (h, Some (with_fragment t frag))
  | (h, None) =>
      match partition c frag with
      | (fh, ft) => (with_fragment h fh, ft)
      end
  end.
Proof.
  intros Hc. induction url as [|a url IH].
  - rewrite with_fragment_nil. cbn [partition]. rewrite Hc.
    by destruct (partition c frag).
  - rewrite with_fragment_cons. cbn [partition]. destruct (Ascii.eqb a c); [done|].
    rewrite IH. destruct (partition c url) as [h [t|]]; [done|].
    by destruct (partition c frag).
Qed.

Lemma all_chars_fragment p url frag :
  p "#"%char = false -> all_chars p (with_fragment url frag) = false.
Proof.
  intros Hp. induction url as [|a url IH].
  - rewrite with_fragment_nil. cbn [all_chars]. by rewrite Hp.
  - rewrite with_fragment_cons. cbn [all_chars]. rewrite IH. apply andb_false_r.
Qed.

Lemma split_scheme_fragment url frag :
  split_scheme (with_fragment url frag)
  = ((split_scheme url).1, with_fragment (split_scheme url).2 frag).
Proof.
  unfold split_scheme. rewrite partition_fragment by done.
  destruct (partition ":" url) as [h [t|]] eqn:Hp.
  - destruct h as [|c0 head]; [done|]. by destruct (_ && _).
  - destruct (partition ":" frag) as [fh [ft|]]; [|by destruct h].
    destruct h as [|c0 head]; [done|]. rewrite with_fragment_cons.
    rewrite <- with_fragment_cons, all_chars_fragment by done.
    by rewrite andb_false_r.
Qed.

Lemma startswith_fragment url frag p :
  contains "#" p = false ->
  startswith (with_fragment url frag) p = startswith url p.
Proof.
  revert p. induction url as [|a url IH]; intros p Hp.
  - rewrite with_fragment_nil. destruct p as [|b p]; [done|].
    cbn [contains] in Hp. apply orb_false_elim in Hp as [Hb _].
    cbn [startswith]. apply Ascii.eqb_neq in Hb. by rewrite decide_False.
  - rewrite with_fragment_cons. destruct p as [|b p]; [done|].
    cbn [contains] in Hp. apply orb_false_elim in Hp as [_ Hp].
    cbn [startswith]. destruct (decide (b = a)); [by apply IH|done].
Qed.

Lemma span_until_fragment p s frag :
  p "#"%char = true ->
  span_until p (with_fragment s frag)
  = ((span_until p s).1, with_fragment (span_until p s).2 frag).
Proof.
  intros Hp. induction s as [|a s IH].
  - rewrite with_fragment_nil. cbn [span_until]. by rewrite Hp.
  - rewrite with_fragment_cons. cbn [span_until]. destruct (p a); [done|].
    rewrite IH. by destruct (span_until p s).
Qed.

Lemma split_netloc_fragment check url frag :
  split_netloc check (with_fragment url frag)
  = ((split_netloc check url).1.1,
     with_fragment (split_netloc check url).1.2 frag,
     (split_netloc check url).2).
Proof.
  unfold split_netloc, _splitnetloc.
  rewrite startswith_fragment by done.
  destruct (startswith url "//") eqn:Hs; [|done].
  destruct url as [|a [|b r]];
    [done|cbn [startswith] in Hs; by destruct (decide ("/"%char = a))|].
  rewrite !with_fragment_cons, span_until_fragment by done.
  destruct (span_until _ r) as [nl rest]. cbn [fst snd].
  by repeat case_match.
Qed.

Lemma split_once_fragment url frag :
  (split_once "#" (with_fragment url frag)).1 = (split_once "#" url).1.
Proof.
  unfold split_once. induction url as [|a url IH].
  - done.
  - rewrite with_fragment_cons. cbn [partition].
    destruct (Ascii.eqb a "#"); [done|].
    destruct (partition "#" (with_fragment url frag)) as [h [t|]],
             (partition "#" url) as [h' [t'|]]; cbn in *; congruence.
Qed.

(** A parse result without its fragment. *)
Definition sans_fragment (r : ParseResult) : ParseResult :=
  {| scheme := scheme r; netloc := netloc r; path := path r;
     params := params r; query := query r; fragment := EmptyString |}.

Lemma urlparse_fragment check url frag :
  sans_fragment <$> urlparse check (with_fragment url frag)
  = sans_fragment <$> urlparse check url.
Proof.
  unfold urlparse, urlsplit.
  rewrite lstrip_by_fragment, remove_chars_fragment by done.
  set (u0 := remove_chars _ (lstrip_by _ url)).
  set (f0 := remove_chars _ frag). clearbody u0 f0.
  rewrite split_scheme_fragment.
  destruct (split_scheme u0) as [sch u1]. cbn [fst snd].
  rewrite split_netloc_fragment.
  destruct (split_netloc check u1) as [[nl u2] ok]. cbn [fst snd].
  pose proof (split_once_fragment u2 f0) as Hfr.
  destruct (split_once "#" (with_fragment u2 f0)) as [u3' fr'].
  destruct (split_once "#" u2) as [u3 fr]. cbn [fst] in Hfr. subst u3'.
  destruct (split_once "?" u3) as [u4 q].
  destruct ok; [|done].
  by destruct (if _ && _ then _ else _) as [u5 par].
Qed.

Lemma lower_fragment url frag :
  lower (with_fragment url frag) = with_fragment (lower url) (lower frag).
Proof.
  induction url as [|a url IH]; [done|].
  rewrite with_fragment_cons. cbn [lower]. by rewrite IH.
Qed.

Lemma skip_patterns_fragment url frag :
  existsb (startswith (with_fragment url frag)) skip_patterns
  = existsb (startswith url) skip_patterns.
Proof.
  unfold skip_patterns. cbn [existsb].
  by rewrite !startswith_fragment by done.
Qed.

Lemma joined_fragment url frag base :
  joined (with_fragment url frag) base = joined url base.
Proof.
  unfold joined. destruct base as [b|]; [|done].
  by rewrite !startswith_fragment by done.
Qed.

Lemma unquoted_url_not_joined urljoin url base :
  joined url base = false -> unquoted_url urljoin url base = unquote url.
Proof.
  unfold joined, unquoted_url. destruct base as [b|]; [|done].
  by intros ->.
Qed.

Lemma normalize_fragment urljoin check self url frag base :
  remove_fragments self = true -> joined url base = false ->
  normalize urljoin check self (with_fragment url frag) base
  = normalize urljoin check self url base.
Proof.
  intros Hrem Hj. unfold normalize, parsed_url.
  rewrite !unquoted_url_not_joined by (by rewrite ?joined_fragment).
  rewrite unquote_fragment, lower_fragment, skip_patterns_fragment.
  pose proof (urlparse_fragment check (unquote url) (unquote frag)) as Hp.
  destruct (urlparse check (with_fragment _ _)) as [p'|],
           (urlparse check (unquote url)) as [p|]; try done.
  injection Hp as Hs Hn Hpa Hpr Hq.
  assert (Hh : hostname p' = hostname p).
  { unfold hostname, _hostinfo. by rewrite Hn. }
  assert (Hpo : port p' = port p).
  { unfold port, _hostinfo. by rewrite Hn. }
  assert (Hu : username p' = username p).
  { unfold username, _userinfo. by rewrite Hn. }
  assert (Hw : password p' = password p).
  { unfold password, _userinfo. by rewrite Hn. }
  by rewrite Hs, Hh, Hpo, Hu, Hw, Hpa, Hpr, Hq, Hrem.
Qed.

Lemma lower_char_hash x : Ascii.eqb (lower_char x) "#" = Ascii.eqb x "#".
Proof.
  unfold lower_char, isupper, between, code.
  destruct (_ && _) eqn:Hup; [|done].
  apply andb_true_iff in Hup as [H1%Nat.leb_le H2%Nat.leb_le].
  transitivity false; [|symmetry]; apply Ascii.eqb_neq; intros Heq.
  - apply (f_equal nat_of_ascii) in Heq.
    rewrite nat_ascii_embedding in Heq by lia.
    change (nat_of_ascii "#") with 35%nat in Heq. lia.
  - subst x. change (nat_of_ascii "#") with 35%nat in H1. lia.
Qed.

Lemma lower_no_hash s : contains "#" (lower s) = contains "#" s.
Proof. induction s as [|x s IH]; cbn; [done|]. by rewrite lower_char_hash, IH. Qed.

Lemma digits_of_no_hash fuel : forall n acc,
  0 <= n -> contains "#" acc = false ->
  contains "#" (digits_of fuel n acc) = false.
Proof.
  induction fuel as [|fuel IH]; intros n acc Hn Hacc; cbn [digits_of]; [done|].
  assert (Hd : contains "#"
                 (String (ascii_of_nat (48 + Z.to_nat (n mod 10))) acc) = false).
  { cbn [contains]. rewrite Hacc, orb_false_r.
    apply Ascii.eqb_neq. intros Heq.
    apply (f_equal nat_of_ascii) in Heq.
    rewrite nat_ascii_embedding in Heq by lia.
    change (nat_of_ascii "#") with 35%nat in Heq. lia. }
  destruct (n / 10 =? 0); [done|]. apply IH; [lia|done].
Qed.

Lemma join_avoids c sep l :
  contains c sep = false -> Forall (fun x => contains c x = false) l ->
  contains c (join sep l) = false.
Proof.
  intros Hsep. induction 1 as [|x l Hx Hl IH]; [done|].
  destruct l as [|y l]; [done|].
  by rewrite join_cons, !contains_app, Hx, Hsep, IH.
Qed.

Lemma urlencode_no_hash parts : contains "#" (urlencode parts) = false.
Proof.
  unfold urlencode. apply join_avoids; [done|].
  apply Forall_fmap, Forall_forall. intros kv _. cbn.
  by rewrite !contains_app, !quote_plus_avoids.
Qed.

Lemma urlparse_no_hash check url p :
  urlparse check url = Some p ->
  contains "#" (netloc p) = false /\ contains "#" (path p) = false /\
  contains "#" (params p) = false.
Proof.
  unfold urlparse, urlsplit.
  set (u0 := remove_chars _ _).
  destruct (split_scheme u0) as [sch u1].
  assert (Hnl : contains "#" (split_netloc check u1).1.1 = false).
  { unfold split_netloc, _splitnetloc. destruct (startswith u1 "//"); [|done].
    pose proof (span_until_head (fun c => contains c "/?#") "#"
      match u1 with String _ (String _ r) => r | _ => EmptyString end eq_refl)
      as Hnl.
    destruct (span_until _ _) as [nl rest]. cbn in Hnl.
    by repeat case_match. }
  destruct (split_netloc check u1) as [[nl u2] ok]. cbn in Hnl.
  pose proof (split_once_head "#" u2) as Hu3.
  destruct (split_once "#" u2) as [u3 frag]. cbn in Hu3.
  assert (Hpath : contains "#" (split_once "?" u3).1 = false).
  { unfold split_once.
    destruct (partition_contains "#" "?" u3 Hu3) as [Hh _].
    by destruct (partition "?" u3) as [h [t|]]. }
  destruct (split_once "?" u3) as [u4 q]. cbn in Hpath.
  destruct ok; [|done].
  assert (Hpar : contains "#" (_splitparams u4).1 = false /\
                 contains "#" (_splitparams u4).2 = false).
  { unfold _splitparams. destruct (contains "/" u4).
    - destruct (rpartition_contains "#" "/" u4 Hpath) as [Hlast Hdir].
      destruct (rpartition "/" u4) as [[dir|] last]; cbn in *; [|done].
      destruct (partition_contains "#" ";" last Hlast) as [Hseg Hpar].
      destruct (partition ";" last) as [seg [par|]]; cbn in *; [|done].
      rewrite !contains_app, (Hdir dir eq_refl), Hseg, (Hpar par eq_refl). done.
    - destruct (partition_contains "#" ";" u4 Hpath) as [Hseg Hpar].
      destruct (partition ";" u4) as [seg [par|]]; cbn in *; [|done].
      by rewrite Hseg, (Hpar par eq_refl). }
  destruct Hpar as [Hp1 Hp2].
  destruct (_ && _); [destruct (_splitparams u4) as [u5 par]|];
    intros [= <-]; cbn in *; done.
Qed.

Lemma hostname_no_hash p h :
  contains "#" (netloc p) = false -> hostname p = Some h ->
  contains "#" h = false.
Proof.
  intros Hnl. unfold hostname.
  assert (Hhost : contains "#" (_hostinfo p).1 = false).
  { unfold _hostinfo.
    destruct (rpartition_contains "#" "@" (netloc p) Hnl) as [Hhi _].
    set (hi := (rpartition "@" (netloc p)).2) in *. clearbody hi.
    destruct (partition_contains "#" "[" hi Hhi) as [_ Hbr].
    destruct (partition "[" hi) as [pre [br|]]; cbn in Hbr.
    - destruct (partition_contains "#" "]" br (Hbr br eq_refl)) as [Hh _].
      by destruct (partition "]" br) as [hn po].
    - destruct (partition_contains "#" ":" hi Hhi) as [Hh _].
      by destruct (partition ":" hi) as [hn po]. }
  set (hn := (_hostinfo p).1) in *. clearbody hn.
  destruct (String.eqb hn EmptyString); [done|].
  destruct (partition_contains "#" "%" hn Hhost) as [Hh Hz].
  destruct (partition "%" hn) as [h0 [z|]]; cbn in *; intros [= <-].
  - rewrite !contains_app, lower_no_hash, Hh, (Hz z eq_refl). done.
  - rewrite contains_app, lower_no_hash, Hh. done.
Qed.

Lemma userinfo_no_hash p :
  contains "#" (netloc p) = false ->
  (forall u, username p = Some u -> contains "#" u = false) /\
  (forall w, password p = Some w -> contains "#" w = false).
Proof.
  intros Hnl. unfold username, password, _userinfo.
  destruct (rpartition_contains "#" "@" (netloc p) Hnl) as [_ Hui].
  destruct (rpartition "@" (netloc p)) as [[ui|] hi]; cbn in *; [|done].
  destruct (partition_contains "#" ":" ui (Hui ui eq_refl)) as [Hu Hw].
  destruct (partition ":" ui) as [u w]; cbn in *.
  split; [by intros ? [= <-]|]. intros ? ->. by apply Hw.
Qed.

Lemma urlunparse_no_hash sch nl pa pr q :
  contains "#" sch = false -> contains "#" nl = false ->
  contains "#" pa = false -> contains "#" pr = false ->
  contains "#" q = false ->
  contains "#" (urlunparse sch nl pa pr q EmptyString) = false.
Proof.
  intros Hs Hn Hp Hr Hq. unfold urlunparse, urlunsplit. cbn [String.eqb].
  repeat case_match; rewrite ?contains_app, ?Hs, ?Hn, ?Hp, ?Hr, ?Hq; done.
Qed.

Lemma normalize_no_hash urljoin check self url base n :
  remove_fragments self = true ->
  normalize urljoin check self url base = Some n ->
  contains "#" n = false.
Proof.
  intros Hfrag. unfold normalize.
  destruct (parsed_url urljoin check url base) as [parsed|] eqn:Hparsed;
    [|done].
  rewrite Hfrag.
  destruct (urlparse_no_hash _ _ _ Hparsed) as (Hnl & _ & Hpar).
  destruct (userinfo_no_hash parsed Hnl) as [Huser Hpw].
  destruct (negb (str_in _ _)) eqn:Hsch; [done|].
  apply negb_false_iff, str_in_spec in Hsch.
  assert (Hscheme : contains "#" (lower (scheme parsed)) = false).
  { unfold ALLOWED_SCHEMES in Hsch.
    repeat (apply elem_of_cons in Hsch as [->|Hsch]; [done|]).
    by apply elem_of_nil in Hsch. }
  clear Hsch.
  destruct (existsb _ _); [done|].
  destruct (hostname parsed) as [h|] eqn:Hh; [|done].
  apply (hostname_no_hash _ _ Hnl) in Hh.
  assert (Hhost : contains "#" (strip_by (Ascii.eqb ".") (lower h)) = false).
  { apply strip_by_contains. by rewrite lower_no_hash. }
  destruct (port parsed) as [po|] eqn:Hport; [|done].
  assert (Hpo : forall m, po = Some m -> contains "#" (str_of_int m) = false).
  { intros m ->. apply digits_of_no_hash; [by eapply port_nonneg|done]. }
  intros [= <-]. apply urlunparse_no_hash; try done.
  - destruct (username parsed) as [u|];
      [specialize (Huser u eq_refl)|clear Huser];
      (destruct (password parsed) as [w|];
       [specialize (Hpw w eq_refl)|clear Hpw]);
      repeat case_match; simplify_eq;
      rewrite ?contains_app, ?Huser, ?Hpw, ?Hhost, ?(Hpo _ eq_refl); done.
  - unfold _normalize_path. by apply quote_avoids.
  - rewrite _normalize_query_kept. apply urlencode_no_hash.
Qed.

(** X30: with [remove_fragments] on, the fragment is gone for good and
    counts for nothing.  No URL that [normalize] returns contains a [#];
    and for a URL that is not resolved against a base, appending [#] and
    any text gives the same result as the URL itself, the [None] cases
    included: the parts of a URL from its first [#] on never reach the
    result. *)
Theorem fragment_removed urljoin check self url base :
  remove_fragments self = true ->
  (forall n, normalize urljoin check self url base = Some n ->
     contains "#" n = false) /\
  (joined url base = false ->
   forall frag,
     normalize urljoin check self (with_fragment url frag) base
     = normalize urljoin check self url base).
Proof.
  intros Hrem. split.
  - intros n. by apply normalize_no_hash.
  - intros Hj frag. by apply normalize_fragment.
Qed.

Lemma fragment_removed_witness :
  remove_fragments default_normalizer = true /\
  joined "http://A.test/x/?b=1" None = false /\
  normalize_url "http://A.test/x/?b=1" = Some "http://a.test/x?b=1" /\
  contains "#" "http://a.test/x?b=1" = false /\
  normalize_url (with_fragment "http://A.test/x/?b=1" "top/?a=2#b")
  = normalize_url "http://A.test/x/?b=1".
Proof.
  destruct (fragment_removed (fun _ u => u) (fun _ => true) default_normalizer
              "http://A.test/x/?b=1" None eq_refl) as [Hno Hsame].
  assert (Hn : normalize_url "http://A.test/x/?b=1"
               = Some "http://a.test/x?b=1") by (vm_compute; reflexivity).
  split; [reflexivity|]. split; [reflexivity|]. split; [exact Hn|].
  split; [exact (Hno _ Hn)|]. exact (Hsame eq_refl "top/?a=2#b").
Defined.
End FragmentProps.
